(** * Dbcube query builder: descriptor construction and execution orchestration

    A shallow embedding of the [Table] builder of the repository and of its
    orchestrator [getResponse], in the two forms under which the builder
    appears in the sources:

    - [src/lib/Database.ts]: every chain step mutates [this] and returns it
      (module [InPlace]);
    - the second copy of the same file ([unnamed/part_002]): every step works
      on [this.clone()] and returns the clone (module [CloneOnWrite]).

    Builders are JavaScript objects, so they live in a store and are named by
    their location: aliasing between a builder and the value a chain step
    returns is what separates the two forms.  The engine, the computed field
    processor and the trigger handlers are external collaborators and are
    taken as parameters ([Collaborators]). *)

From Stdlib Require Import ZArith DecimalString.
From stdpp Require Import base list strings.

#[local] Set Warnings "-register-all".

Open Scope Z_scope.
Open Scope string_scope.
Open Scope list_scope.

(** ** JavaScript values *)

Inductive value : Type :=
| VUndefined
| VNull
| VBool (b : bool)
| VNum (n : Z)
| VStr (s : string)
| VArr (items : list value)
| VObj (props : list (string * value)).

(** [DatabaseRecord = Record<string, any>]: property list, in key order. *)
Definition DatabaseRecord : Type := list (string * value).

Fixpoint getProp (key : string) (o : DatabaseRecord) : value :=
  match o with
  | [] => VUndefined
  | (k, v) :: rest => if String.eqb k key then v else getProp key rest
  end.

(** [delete obj[key]] *)
Definition deleteProp (key : string) (o : DatabaseRecord) : DatabaseRecord :=
  filter (fun kv => negb (String.eqb (fst kv) key)) o.

(** [keys.forEach(key => delete newObj[key])] *)
Definition deleteProps (keys : list string) (o : DatabaseRecord) : DatabaseRecord :=
  fold_left (fun acc key => deleteProp key acc) keys o.

(** [typeof v === 'object'] *)
Definition typeofObject (v : value) : bool :=
  match v with
  | VNull | VArr _ | VObj _ => true
  | _ => false
  end.

(** [Array.isArray(v)] *)
Definition isArray (v : value) : bool :=
  match v with
  | VArr _ => true
  | _ => false
  end.

Definition decimal (n : nat) : string :=
  NilEmpty.string_of_uint (Nat.to_uint n).

(** ** The DML descriptor ([@types/Database.ts]) *)

Inductive Connective : Type := AND | OR.

Inductive WhereNode : Type :=
| Leaf (column operator : string) (val : value) (type : Connective)
| Group (type : Connective) (conditions : list WhereNode).

Inductive DmlType : Type := select_ | insert_ | update_ | delete_.

Inductive JoinType : Type := INNER | LEFT | RIGHT.

Record Join : Type := mkJoin {
  join_type : JoinType;
  join_table : string;
  on_column1 : string;
  on_operator : string;
  on_column2 : string
}.

Inductive Direction : Type := ASC | DESC.

Inductive AggType : Type := COUNT | SUM | AVG | MAX | MIN.

Record Aggregation : Type := mkAggregation {
  agg_type : AggType;
  agg_column : string;
  agg_alias : string
}.

(** The constructor arguments [databaseName] and [tableName] are declared as
    strings, but [whereGroup] of [src/lib/Database.ts] passes the engine
    object in the place of the table name. *)
Inductive Ident : Type :=
| Name (s : string)
| EngineObject
| NullName.

Record DML : Type := mkDML {
  type : DmlType;
  database : Ident;
  table : Ident;
  columns : list string;
  distinct : bool;
  joins : list Join;
  dml_where : list WhereNode;
  orderBy : list (string * Direction);
  groupBy : list string;
  limit : option Z;
  offset : option Z;
  data : value;
  aggregation : option Aggregation
}.

Definition set_type (x : DmlType) (d : DML) : DML :=
  mkDML x (database d) (table d) (columns d) (distinct d) (joins d) (dml_where d)
        (orderBy d) (groupBy d) (limit d) (offset d) (data d) (aggregation d).
Definition set_columns (x : list string) (d : DML) : DML :=
  mkDML (type d) (database d) (table d) x (distinct d) (joins d) (dml_where d)
        (orderBy d) (groupBy d) (limit d) (offset d) (data d) (aggregation d).
Definition set_distinct (x : bool) (d : DML) : DML :=
  mkDML (type d) (database d) (table d) (columns d) x (joins d) (dml_where d)
        (orderBy d) (groupBy d) (limit d) (offset d) (data d) (aggregation d).
Definition set_joins (x : list Join) (d : DML) : DML :=
  mkDML (type d) (database d) (table d) (columns d) (distinct d) x (dml_where d)
        (orderBy d) (groupBy d) (limit d) (offset d) (data d) (aggregation d).
Definition set_where (x : list WhereNode) (d : DML) : DML :=
  mkDML (type d) (database d) (table d) (columns d) (distinct d) (joins d) x
        (orderBy d) (groupBy d) (limit d) (offset d) (data d) (aggregation d).
Definition set_orderBy (x : list (string * Direction)) (d : DML) : DML :=
  mkDML (type d) (database d) (table d) (columns d) (distinct d) (joins d) (dml_where d)
        x (groupBy d) (limit d) (offset d) (data d) (aggregation d).
Definition set_groupBy (x : list string) (d : DML) : DML :=
  mkDML (type d) (database d) (table d) (columns d) (distinct d) (joins d) (dml_where d)
        (orderBy d) x (limit d) (offset d) (data d) (aggregation d).
Definition set_limit (x : option Z) (d : DML) : DML :=
  mkDML (type d) (database d) (table d) (columns d) (distinct d) (joins d) (dml_where d)
        (orderBy d) (groupBy d) x (offset d) (data d) (aggregation d).
Definition set_offset (x : option Z) (d : DML) : DML :=
  mkDML (type d) (database d) (table d) (columns d) (distinct d) (joins d) (dml_where d)
        (orderBy d) (groupBy d) (limit d) x (data d) (aggregation d).
Definition set_data (x : value) (d : DML) : DML :=
  mkDML (type d) (database d) (table d) (columns d) (distinct d) (joins d) (dml_where d)
        (orderBy d) (groupBy d) (limit d) (offset d) x (aggregation d).
Definition set_aggregation (x : option Aggregation) (d : DML) : DML :=
  mkDML (type d) (database d) (table d) (columns d) (distinct d) (joins d) (dml_where d)
        (orderBy d) (groupBy d) (limit d) (offset d) (data d) x.

(** ** Collaborator descriptors *)

Record ComputedField : Type := mkComputedField {
  cf_column : string;
  instruction : string
}.

Record TriggerMeta : Type := mkTriggerMeta {
  tr_type : string;
  database_ref : string;
  table_ref : string
}.

(** What the engine answers to one request: [{status, data?, message?}]. *)
Record Response : Type := mkResponse {
  status : Z;
  resp_data : option (list DatabaseRecord);
  message : option string
}.

(** ** Builders, the store and the observable trace *)

(** A [Table] object.  [engine] is [false] when the field holds [null].  The
    [Trigger] helper built by the constructor keeps the very list stored in
    [triggers], so one field stands for both. *)
Record Table : Type := mkTable {
  engine : bool;
  nextType : Connective;
  dml : DML;
  computedFields : list ComputedField;
  triggers : list TriggerMeta
}.

Definition set_dml (d : DML) (t : Table) : Table :=
  mkTable (engine t) (nextType t) d (computedFields t) (triggers t).
Definition set_nextType (c : Connective) (t : Table) : Table :=
  mkTable (engine t) c (dml t) (computedFields t) (triggers t).
Definition map_dml (f : DML -> DML) (t : Table) : Table :=
  set_dml (f (dml t)) t.

Inductive event : Type :=
| EngineRun (request : DML)
| TriggerRun (key : string) (row : value)
| Commit (key : string)
| Discard (key : string)
| ErrorPrinted (code : Z) (msg : string).

(** Builders are named by their position in the store. *)
Abbreviation loc := nat (only parsing).

Record World : Type := mkWorld {
  heap : list Table;
  trace : list event
}.

Inductive error : Type :=
| Error (msg : string)
| TypeError (msg : string)
| HandlerError (key : string).

Inductive outcome (A : Type) : Type :=
| Return (a : A) (w : World)
| Throw (e : error) (w : World).
Arguments Return {A} a w.
Arguments Throw {A} e w.

Definition world_of {A} (o : outcome A) : World :=
  match o with
  | Return _ w => w
  | Throw _ w => w
  end.

Definition M (A : Type) : Type := World -> outcome A.

Definition ret {A} (a : A) : M A := fun w => Return a w.

Definition bind {A B} (m : M A) (k : A -> M B) : M B :=
  fun w => match m w with
           | Return a w' => k a w'
           | Throw e w' => Throw e w'
           end.

Definition throw {A} (e : error) : M A := fun w => Throw e w.

Notation "'let!' x ':=' m 'in' k" := (bind m (fun x => k))
  (at level 10, x pattern, m at level 100, k at level 200).
Notation "m ';;' k" := (bind m (fun _ => k))
  (at level 100, k at level 200, right associativity).

Definition emit (e : event) : M unit :=
  fun w => Return tt (mkWorld (heap w) (trace w ++ [e])).

Definition getTrace : M (list event) := fun w => Return (trace w) w.

(** Reading a builder.  A location outside the store cannot arise from the
    program; it is reported as a [TypeError]. *)
Definition deref (l : loc) : M Table :=
  fun w => match heap w !! l with
           | Some t => Return t w
           | None => Throw (TypeError "dangling reference") w
           end.

Definition assign (l : loc) (t : Table) : M unit :=
  fun w => Return tt (mkWorld (<[l := t]> (heap w)) (trace w)).

Definition modify (l : loc) (f : Table -> Table) : M unit :=
  let! t := deref l in assign l (f t).

Definition alloc (t : Table) : M loc :=
  fun w => Return (length (heap w)) (mkWorld (heap w ++ [t]) (trace w)).

(** The requests the engine has received, oldest first. *)
Definition requests (tr : list event) : list DML :=
  omap (fun e => match e with EngineRun d => Some d | _ => None end) tr.

(** ** External collaborators *)

(** [run] is the engine's answer to an [execute] request, which may depend on
    everything that happened before; [extractDependencies] and
    [computedFieldsOf] are the two functions of the computed field processor
    ([None] stands for a result that is not an array); [handlerOk] tells
    whether the handler module of a trigger returns ([true]) or throws. *)
Record Collaborators : Type := mkCollaborators {
  run : list event -> DML -> Response;
  extractDependencies : string -> list string;
  computedFieldsOf :
    option (list DatabaseRecord) -> list ComputedField -> option (list DatabaseRecord);
  handlerOk : TriggerMeta -> value -> bool
}.

Inductive Phase : Type := Add | Update | Delete.

Definition phaseName (p : Phase) : string :=
  match p with
  | Add => "Add"
  | Update => "Update"
  | Delete => "Delete"
  end.

(** Truthiness of a value that is either an object or [undefined]. *)
Definition truthy {A} (o : option A) : bool :=
  match o with
  | Some _ => true
  | None => false
  end.

(** ** [Trigger] ([lib/Trigger.ts]) *)

(** [this.triggers.find(tr => tr.type === type)] *)
Definition trigger_get (trs : list TriggerMeta) (key : string) : option TriggerMeta :=
  find (fun tr => String.eqb (tr_type tr) key) trs.

(** [Array.from(new Set(xs))]: first occurrences, in order. *)
Fixpoint uniq (xs : list string) : list string :=
  match xs with
  | [] => []
  | x :: rest => x :: filter (fun y => negb (String.eqb y x)) (uniq rest)
  end.

(** The number a string of decimal digits stands for; the empty string
    stands for 0. *)
Fixpoint digitsValue (acc : nat) (s : string) : option nat :=
  match s with
  | EmptyString => Some acc
  | String c rest =>
      let n := Ascii.nat_of_ascii c in
      if (48 <=? n)%nat && (n <=? 57)%nat
      then digitsValue (10 * acc + (n - 48)) rest
      else None
  end.

(** [dataset.length] and [dataset[index]] of the per-row loop: how many
    times [index < dataset.length] holds from [index = 0] on.  A payload
    object answers with its own [length] property, which the comparison
    turns into a number: a number counts as it is, a string of decimal
    digits as the number it spells, [true] as 1, and [undefined], [null],
    [false] and objects as no iteration.  Other spellings of a number in a
    string (sign, blanks, fraction, exponent, another base) and arrays are
    not followed and count as no iteration. *)
Definition payloadLength (dataset : value) : option nat :=
  match dataset with
  | VUndefined | VNull => None
  | VArr items => Some (length items)
  | VStr s => Some (String.length s)
  | VObj props =>
      match getProp "length" props with
      | VNum n => Some (Z.to_nat n)
      | VStr s => Some (default 0%nat (digitsValue 0 s))
      | VBool true => Some 1%nat
      | _ => Some 0%nat
      end
  | VBool _ | VNum _ => Some 0%nat
  end.

Definition payloadAt (dataset : value) (index : nat) : value :=
  match dataset with
  | VArr items => nth index items VUndefined
  | VObj props => getProp (decimal index) props
  | VStr s => match String.get index s with
              | Some c => VStr (String c EmptyString)
              | None => VUndefined
              end
  | _ => VUndefined
  end.

Inductive DmlArg : Type :=
| ThisDml
| FreshDml (d : DML).

Section Orchestrator.

Context (env : Collaborators).

(** [async execute(type, row)]: the interceptor is named by its key;
    [None] is the [null] returned when no trigger has that key. *)
Definition trigger_execute (trs : list TriggerMeta) (key : string) (row : value)
  : M (option string) :=
  match trigger_get trs key with
  | Some tr =>
      if handlerOk env tr row
      then emit (TriggerRun key row);; ret (Some key)
      else throw (HandlerError key)
  | None => ret None
  end.

Definition interceptor_commit (i : option string) : M unit :=
  match i with
  | Some key => emit (Commit key)
  | None => throw (TypeError "Cannot read properties of null (reading 'commit')")
  end.

Definition interceptor_discard (i : option string) : M unit :=
  match i with
  | Some key => emit (Discard key)
  | None => throw (TypeError "Cannot read properties of null (reading 'discard')")
  end.

(** [returnFormattedError]: builds the coloured text and hands it to
    [console.error]; it returns to its caller.  [message.includes] fails on
    an absent message. *)
Definition returnFormattedError (code : Z) (msg : option string) : M unit :=
  match msg with
  | Some m => emit (ErrorPrinted code m)
  | None => throw (TypeError "Cannot read properties of undefined (reading 'includes')")
  end.

(** [this.engine.run('query_engine', ['--action','execute','--dml', JSON.stringify(dml)])] *)
Definition engine_run (t : Table) (request : DML) : M Response :=
  if engine t
  then let! tr := getTrace in
       let r := run env tr request in
       emit (EngineRun request);; ret r
  else throw (TypeError "Cannot read properties of null (reading 'run')").

(** The loop over [localDML.columns] that replaces computed fields by their
    dependencies.  The state is [(columns, computedFieldsNeeded,
    dependeciesArrray)]. *)
Definition rewriteStep (cfs : list ComputedField)
    (st : list string * list ComputedField * list string) (field : string)
  : list string * list ComputedField * list string :=
  let '(cols, needed, deps) := st in
  match find (fun cf => String.eqb (cf_column cf) field) cfs with
  | Some cf =>
      let dependencies := extractDependencies env (instruction cf) in
      (filter (fun col => negb (String.eqb col field)) (uniq (cols ++ dependencies)),
       needed ++ [cf],
       deps ++ dependencies)
  | None => st
  end.

Definition rewriteColumns (cfs : list ComputedField) (cols : list string)
  : list string * list ComputedField * list string :=
  match cfs with
  | [] => (cols, [], [])
  | _ :: _ => fold_left (rewriteStep cfs) cols (cols, [], [])
  end.

(** One row of the trigger loop. *)
Definition rowStep (t : Table) (localDML : DML) (ph : Phase)
    (beffore after : option TriggerMeta)
    (arrayResult : option (list DatabaseRecord)) (row : value)
  : M (option (list DatabaseRecord)) :=
  let newDML := set_data (VArr [row]) localDML in
  let! arrayResult :=
    match beffore with
    | Some _ =>
        let! interceptor := trigger_execute (triggers t) ("before" +:+ phaseName ph) row in
        let! response := engine_run t newDML in
        (if negb (Z.eqb (status response) 200)
         then interceptor_discard interceptor;;
              returnFormattedError (status response) (message response)
         else ret tt);;
        interceptor_commit interceptor;;
        ret (resp_data response)
    | None => ret arrayResult
    end in
  match after with
  | Some _ =>
      let! response := engine_run t newDML in
      (if negb (Z.eqb (status response) 200)
       then returnFormattedError (status response) (message response)
       else ret tt);;
      let! interceptor := trigger_execute (triggers t) ("after" +:+ phaseName ph) row in
      interceptor_commit interceptor;;
      ret arrayResult
  | None => ret arrayResult
  end.

Fixpoint rowLoop (t : Table) (localDML : DML) (ph : Phase)
    (beffore after : option TriggerMeta)
    (arrayResult : option (list DatabaseRecord)) (indices : list nat)
  : M (option (list DatabaseRecord)) :=
  match indices with
  | [] => ret arrayResult
  | index :: rest =>
      let! arrayResult :=
        rowStep t localDML ph beffore after arrayResult
                (payloadAt (data localDML) index) in
      rowLoop t localDML ph beffore after arrayResult rest
  end.

(** The branch without triggers: one request for the whole descriptor. *)
Definition dispatchWhole (t : Table) (localDML : DML)
  : M (option (list DatabaseRecord)) :=
  let! response := engine_run t localDML in
  (if negb (Z.eqb (status response) 200)
   then returnFormattedError (status response) (message response)
   else ret tt);;
  ret (resp_data response).

Definition dispatch (t : Table) (localDML : DML) (ph : option Phase)
  : M (option (list DatabaseRecord)) :=
  match ph with
  | Some p =>
      let beffore := trigger_get (triggers t) ("before" +:+ phaseName p) in
      let after := trigger_get (triggers t) ("after" +:+ phaseName p) in
      if (0 <? length (triggers t))%nat && (truthy beffore || truthy after)
      then
        match payloadLength (data localDML) with
        | None => throw (TypeError "Cannot read properties of null (reading 'length')")
        | Some n => rowLoop t localDML p beffore after (Some []) (seq 0 n)
        end
      else dispatchWhole t localDML
  | None => dispatchWhole t localDML
  end.

(** The last step: materialise the computed fields and drop the
    dependency columns from every row. *)
Definition postProcess (needed : list ComputedField) (deps : list string)
    (arrayResult : option (list DatabaseRecord))
  : M (option (list DatabaseRecord)) :=
  match needed with
  | [] => ret arrayResult
  | _ :: _ =>
      match computedFieldsOf env arrayResult needed with
      | Some newDataset => ret (Some (map (deleteProps deps) newDataset))
      | None => throw (TypeError "newDataset.map is not a function")
      end
  end.

(** [getResponse(dml = null, type = null)].  [ThisDml] covers both the call
    without a descriptor and the call that passes [this.dml]: in either
    case [localDML] is the builder's own descriptor object, and the
    assignment to [localDML.columns] lands in the builder.  [FreshDml d] is
    a descriptor object of its own. *)
Definition getResponse (self : loc) (arg : DmlArg) (ph : option Phase)
  : M (option (list DatabaseRecord)) :=
  let! t := deref self in
  let localDML := match arg with ThisDml => dml t | FreshDml d => d end in
  let '(cols, needed, deps) := rewriteColumns (computedFields t) (columns localDML) in
  let localDML := set_columns cols localDML in
  match arg with
  | ThisDml => assign self (set_dml localDML t)
  | FreshDml _ => ret tt
  end;;
  let! arrayResult := dispatch t localDML ph in
  postProcess needed deps arrayResult.
End Orchestrator.

(** ** Pieces shared by the two forms of the builder *)

(** The descriptor a constructor call installs. *)
Definition newTable (databaseName tableName : Ident) (eng : bool)
    (cfs : list ComputedField) (trs : list TriggerMeta) : M loc :=
  alloc (mkTable eng AND
           (mkDML select_ databaseName tableName ["*"] false [] [] [] [] None None
                  VNull None)
           cfs trs).

(** [this.dml.where.push(node)] *)
Definition pushWhere (node : WhereNode) (t : Table) : Table :=
  map_dml (fun d => set_where (dml_where d ++ [node]) d) t.

Definition isUndefined (v : value) : bool :=
  match v with
  | VUndefined => true
  | _ => false
  end.

(** [Array.isArray(values) && values.length > 0] *)
Definition nonEmptyArray (v : value) : bool :=
  match v with
  | VArr (_ :: _) => true
  | _ => false
  end.

(** [typeof item === 'object' && item !== null] *)
Definition validObject (item : value) : bool :=
  match item with
  | VArr _ | VObj _ => true
  | _ => false
  end.

(** [if (this.dml.limit)] *)
Definition limitSet (l : option Z) : bool :=
  match l with
  | Some n => negb (Z.eqb n 0)
  | None => false
  end.

Definition aggName (a : AggType) : string :=
  match a with
  | COUNT => "COUNT"
  | SUM => "SUM"
  | AVG => "AVG"
  | MAX => "MAX"
  | MIN => "MIN"
  end.

Definition aggAlias (a : AggType) : string :=
  match a with
  | COUNT => "count"
  | SUM => "sum"
  | AVG => "avg"
  | MAX => "max"
  | MIN => "min"
  end.

(** [`COUNT(${column}) AS count`] and its four siblings. *)
Definition aggExpr (a : AggType) (column : string) : string :=
  aggName a +:+ "(" +:+ column +:+ ") AS " +:+ aggAlias a.

(** The three assignments every aggregate shortcut starts with. *)
Definition setAggregate (a : AggType) (column : string) (d : DML) : DML :=
  set_columns [aggExpr a column]
    (set_aggregation (Some (mkAggregation a column (aggAlias a)))
       (set_type select_ d)).

(** [Database]: the fields [table] reads. *)
Record Database : Type := mkDatabase {
  db_name : string;
  db_computedFields : list ComputedField;
  db_triggers : list TriggerMeta
}.

(** [Database.table(tableName)], the same in both forms. *)
Definition table_ (db : Database) (tableName : string) : M loc :=
  newTable (Name (db_name db)) (Name tableName) true
           (db_computedFields db) (db_triggers db).

Definition updateNeedsObject : string :=
  "The update method requires an object with key-value pairs.".
Definition updateNeedsWhere : string :=
  "You must specify at least one WHERE condition to perform an update.".
Definition deleteNeedsWhere : string :=
  "You must specify at least one WHERE condition to perform a delete.".
Definition insertNeedsArray : string :=
  "The insert method requires an array of objects with key-value pairs.".
Definition insertNeedsObjects : string :=
  "The array must contain only valid objects.".
Definition readOfUndefined : string :=
  "Cannot read properties of undefined (reading '0')".

(** [result[0] || null] on an array of row objects. *)
Definition firstOrNull (result : option (list DatabaseRecord)) : M (option DatabaseRecord) :=
  match result with
  | Some rows => ret (head rows)
  | None => throw (TypeError readOfUndefined)
  end.

(** ** Numbers *)

(** A number of the program is a double.  The development follows the
    integers among them, as [Z]; differences and products are those of the
    doubles: the exact result when its magnitude is below [2^53], and beyond
    that the nearest double, ties going to the even significand.  The two
    zeros of the doubles are the one [0].  A result of magnitude [2^1024]
    or more, which a double holds as [Infinity], is outside the model. *)
Definition nearestDouble (x : Z) : Z :=
  if Z.ltb (Z.abs x) (2 ^ 53) then x
  else
    let e := (Z.log2 (Z.abs x) - 52)%Z in
    let q := (Z.abs x / 2 ^ e)%Z in
    let r := (Z.abs x mod 2 ^ e)%Z in
    let q' := if Z.ltb (2 ^ e) (2 * r) || (Z.eqb (2 * r) (2 ^ e) && Z.odd q)
              then (q + 1)%Z else q in
    (Z.sgn x * (q' * 2 ^ e))%Z.

(** [a - b] and [a * b] *)
Definition minus (a b : Z) : Z := nearestDouble (a - b).
Definition times (a b : Z) : Z := nearestDouble (a * b).

(** The double arithmetic gives [x] itself. *)
Definition exact (x : Z) : Prop := (Z.abs x < 2 ^ 53)%Z.

(** [this.dml.joins.push({type, table, on: {column1, operator, column2}})] *)
Definition pushJoin (j : Join) (t : Table) : Table :=
  map_dml (fun d => set_joins (joins d ++ [j]) d) t.

(** [validDirections.includes(upper)] for [validDirections = ['ASC', 'DESC']]. *)
Definition validDirection (upper : string) : option Direction :=
  if String.eqb upper "ASC" then Some ASC
  else if String.eqb upper "DESC" then Some DESC
  else None.

(** [`Invalid direction: ${direction}. Use 'ASC' or 'DESC'.`] *)
Definition invalidDirection (direction : string) : string :=
  "Invalid direction: " +:+ direction +:+ ". Use 'ASC' or 'DESC'.".

(** ** [src/lib/Database.ts]: chain steps mutate [this] and return it *)

Module InPlace.

Definition select (self : loc) (fields : list string) : M loc :=
  modify self (map_dml (fun d =>
    set_columns (match fields with [] => ["*"] | _ :: _ => fields end)
                (set_type select_ d)));;
  ret self.

Definition where_ (self : loc) (column operator : string) (val : value) : M loc :=
  modify self (fun t =>
    set_nextType AND (pushWhere (Leaf column operator val (nextType t)) t));;
  ret self.

Definition orWhere (self : loc) (column operator : string) (val : value) : M loc :=
  modify self (pushWhere (Leaf column operator val OR));;
  ret self.

(** [new Table(this.dml.database, this.dml.table, this.engine)]: the three
    arguments fill [instance], [databaseName] and [tableName]; [engine],
    [computedFields] and [triggers] take their defaults.  The group node
    takes the WHERE sequence the sub-builder holds when the callback has
    returned.  In the code the node holds the sub-builder's array itself, so
    a callback that keeps its sub-builder and steps it after [whereGroup]
    has returned reaches into the group; the store holds values and does
    not follow that sharing, and what is proved of the steps of this form
    concerns their receiver. *)
Definition whereGroup (self : loc) (callback : loc -> M unit) : M loc :=
  let! t := deref self in
  let! groupQuery :=
    newTable (table (dml t)) (if engine t then EngineObject else NullName)
             false [] [] in
  callback groupQuery;;
  let! g := deref groupQuery in
  modify self (fun t =>
    set_nextType AND (pushWhere (Group (nextType t) (dml_where (dml g))) t));;
  ret self.

Definition or (self : loc) : M loc :=
  modify self (set_nextType OR);; ret self.

Definition and (self : loc) : M loc :=
  modify self (set_nextType AND);; ret self.

Definition whereBetween (self : loc) (column : string) (value1 value2 : value) : M loc :=
  (if negb (isUndefined value1) && negb (isUndefined value2)
   then modify self (fun t =>
          set_nextType AND
            (pushWhere (Leaf column "BETWEEN" (VArr [value1; value2]) (nextType t)) t))
   else ret tt);;
  ret self.

Definition whereIn (self : loc) (column : string) (values : value) : M loc :=
  (if nonEmptyArray values
   then modify self (fun t =>
          set_nextType AND (pushWhere (Leaf column "IN" values (nextType t)) t))
   else ret tt);;
  ret self.

Definition whereNull (self : loc) (column : string) : M loc :=
  modify self (fun t =>
    set_nextType AND (pushWhere (Leaf column "IS NULL" VUndefined (nextType t)) t));;
  ret self.

Definition whereNotNull (self : loc) (column : string) : M loc :=
  modify self (fun t =>
    set_nextType AND (pushWhere (Leaf column "IS NOT NULL" VUndefined (nextType t)) t));;
  ret self.

Definition join (self : loc) (table column1 operator column2 : string) : M loc :=
  modify self (pushJoin (mkJoin INNER table column1 operator column2));;
  ret self.

Definition leftJoin (self : loc) (table column1 operator column2 : string) : M loc :=
  modify self (pushJoin (mkJoin LEFT table column1 operator column2));;
  ret self.

Definition rightJoin (self : loc) (table column1 operator column2 : string) : M loc :=
  modify self (pushJoin (mkJoin RIGHT table column1 operator column2));;
  ret self.

(** [direction.toUpperCase()] is the string method of the language and is
    taken as a parameter. *)
Definition orderBy_ (toUpperCase : string -> string) (self : loc)
    (column direction : string) : M loc :=
  match validDirection (toUpperCase direction) with
  | Some dir =>
      modify self (map_dml (fun d => set_orderBy (orderBy d ++ [(column, dir)]) d));;
      ret self
  | None => throw (Error (invalidDirection direction))
  end.

Definition groupBy_ (self : loc) (column : string) : M loc :=
  modify self (map_dml (fun d => set_groupBy (groupBy d ++ [column]) d));;
  ret self.

Definition distinct_ (self : loc) : M loc :=
  modify self (map_dml (set_distinct true));; ret self.

(** [count], [sum], [avg], [max], [min]: chain steps here. *)
Definition aggregate (a : AggType) (self : loc) (column : string) : M loc :=
  modify self (map_dml (setAggregate a column));; ret self.

Definition count := aggregate COUNT.
Definition sum := aggregate SUM.
Definition avg := aggregate AVG.
Definition max := aggregate MAX.
Definition min := aggregate MIN.

Definition limit_ (self : loc) (number : Z) : M loc :=
  modify self (map_dml (set_limit (Some number)));; ret self.

Definition page (self : loc) (number : Z) : M loc :=
  modify self (map_dml (fun d =>
    if limitSet (limit d)
    then set_offset (Some (times (minus number 1) (default 0 (limit d)))) d
    else d));;
  ret self.

Section Terminal.

Context (env : Collaborators).

Definition get (self : loc) : M (option (list DatabaseRecord)) :=
  modify self (map_dml (fun d => set_data VNull (set_type select_ d)));;
  getResponse env self ThisDml None.

Definition first (self : loc) : M (option DatabaseRecord) :=
  modify self (map_dml (fun d =>
    set_limit (Some 1) (set_data VNull (set_type select_ d))));;
  let! result := getResponse env self ThisDml None in
  firstOrNull result.

(** [Array.isArray(result) ? result[0] || null : null] *)
Definition find_ (self : loc) (val : value) (column : string)
  : M (option DatabaseRecord) :=
  modify self (map_dml (fun d => set_data VNull (set_type select_ d)));;
  where_ self column "=" val;;
  modify self (map_dml (set_limit (Some 1)));;
  let! result := getResponse env self ThisDml None in
  ret (match result with Some rows => head rows | None => None end).

Definition insert (self : loc) (data : value) : M value :=
  match data with
  | VArr items =>
      if forallb validObject items
      then modify self (map_dml (fun d => set_data data (set_type insert_ d)));;
           getResponse env self ThisDml (Some Add);;
           ret data
      else throw (Error insertNeedsObjects)
  | _ => throw (Error insertNeedsArray)
  end.

Definition update (self : loc) (data : value) : M value :=
  if negb (typeofObject data) || isArray data
  then throw (Error updateNeedsObject)
  else
    let! t := deref self in
    match dml_where (dml t) with
    | [] => throw (Error updateNeedsWhere)
    | _ :: _ =>
        modify self (map_dml (fun d => set_data data (set_type update_ d)));;
        getResponse env self ThisDml (Some Update);;
        ret data
    end.

(** The rows are first read with a select built from the descriptor
    ([newDml]), under the phase [Delete]; the delete itself follows
    without a phase. *)
Definition delete (self : loc) : M (option (list DatabaseRecord)) :=
  let! t := deref self in
  match dml_where (dml t) with
  | [] => throw (Error deleteNeedsWhere)
  | _ :: _ =>
      modify self (map_dml (set_type delete_));;
      let! t := deref self in
      let newDml :=
        mkDML select_ (database (dml t)) (table (dml t)) ["*"] false []
              (dml_where (dml t)) [] [] None None VNull None in
      let! deleteData := getResponse env self (FreshDml newDml) (Some Delete) in
      getResponse env self ThisDml None;;
      ret deleteData
  end.
End Terminal.
End InPlace.

(** ** The second copy ([unnamed/part_002]): chain steps work on a clone *)

Module CloneOnWrite.

(** [clone()]: a new object with [this]'s fields; the five arrays of the
    descriptor are copied, which in this value model is the same
    descriptor. *)
Definition clone (self : loc) : M loc :=
  let! t := deref self in alloc t.

Definition select (self : loc) (fields : list string) : M loc :=
  let! clone := clone self in
  modify clone (map_dml (fun d =>
    set_columns (match fields with [] => ["*"] | _ :: _ => fields end)
                (set_type select_ d)));;
  ret clone.

Definition where_ (self : loc) (column operator : string) (val : value) : M loc :=
  let! clone := clone self in
  modify clone (fun t =>
    set_nextType AND (pushWhere (Leaf column operator val (nextType t)) t));;
  ret clone.

Definition orWhere (self : loc) (column operator : string) (val : value) : M loc :=
  let! clone := clone self in
  modify clone (pushWhere (Leaf column operator val OR));;
  ret clone.

(** [new Table(this, clone.dml.database, clone.dml.table, clone.engine)] *)
Definition whereGroup (self : loc) (callback : loc -> M unit) : M loc :=
  let! clone := clone self in
  let! c := deref clone in
  let! groupQuery := newTable (database (dml c)) (table (dml c)) (engine c) [] [] in
  callback groupQuery;;
  let! g := deref groupQuery in
  modify clone (fun t =>
    set_nextType AND (pushWhere (Group (nextType t) (dml_where (dml g))) t));;
  ret clone.

Definition or (self : loc) : M loc :=
  let! clone := clone self in
  modify clone (set_nextType OR);; ret clone.

Definition and (self : loc) : M loc :=
  let! clone := clone self in
  modify clone (set_nextType AND);; ret clone.

Definition whereBetween (self : loc) (column : string) (value1 value2 : value) : M loc :=
  let! clone := clone self in
  (if negb (isUndefined value1) && negb (isUndefined value2)
   then modify clone (fun t =>
          set_nextType AND
            (pushWhere (Leaf column "BETWEEN" (VArr [value1; value2]) (nextType t)) t))
   else ret tt);;
  ret clone.

Definition whereIn (self : loc) (column : string) (values : value) : M loc :=
  let! clone := clone self in
  (if nonEmptyArray values
   then modify clone (fun t =>
          set_nextType AND (pushWhere (Leaf column "IN" values (nextType t)) t))
   else ret tt);;
  ret clone.

Definition whereNull (self : loc) (column : string) : M loc :=
  let! clone := clone self in
  modify clone (fun t =>
    set_nextType AND (pushWhere (Leaf column "IS NULL" VUndefined (nextType t)) t));;
  ret clone.

Definition whereNotNull (self : loc) (column : string) : M loc :=
  let! clone := clone self in
  modify clone (fun t =>
    set_nextType AND (pushWhere (Leaf column "IS NOT NULL" VUndefined (nextType t)) t));;
  ret clone.

Definition join (self : loc) (table column1 operator column2 : string) : M loc :=
  let! clone := clone self in
  modify clone (pushJoin (mkJoin INNER table column1 operator column2));;
  ret clone.

Definition leftJoin (self : loc) (table column1 operator column2 : string) : M loc :=
  let! clone := clone self in
  modify clone (pushJoin (mkJoin LEFT table column1 operator column2));;
  ret clone.

Definition rightJoin (self : loc) (table column1 operator column2 : string) : M loc :=
  let! clone := clone self in
  modify clone (pushJoin (mkJoin RIGHT table column1 operator column2));;
  ret clone.

Definition orderBy_ (toUpperCase : string -> string) (self : loc)
    (column direction : string) : M loc :=
  let! clone := clone self in
  match validDirection (toUpperCase direction) with
  | Some dir =>
      modify clone (map_dml (fun d => set_orderBy (orderBy d ++ [(column, dir)]) d));;
      ret clone
  | None => throw (Error (invalidDirection direction))
  end.

Definition groupBy_ (self : loc) (column : string) : M loc :=
  let! clone := clone self in
  modify clone (map_dml (fun d => set_groupBy (groupBy d ++ [column]) d));;
  ret clone.

Definition distinct_ (self : loc) : M loc :=
  let! clone := clone self in
  modify clone (map_dml (set_distinct true));; ret clone.

Definition limit_ (self : loc) (number : Z) : M loc :=
  let! clone := clone self in
  modify clone (map_dml (set_limit (Some number)));; ret clone.

Definition page (self : loc) (number : Z) : M loc :=
  let! clone := clone self in
  modify clone (map_dml (fun d =>
    if limitSet (limit d)
    then set_offset (Some (times (minus number 1) (default 0 (limit d)))) d
    else d));;
  ret clone.

Section Terminal.

Context (env : Collaborators).

(** [count], [sum], [avg], [max], [min]: terminal here.  The value is the
    alias property of the first row, or the number 0 without a row. *)
Definition aggregate (a : AggType) (self : loc) (column : string) : M value :=
  let! clone := clone self in
  modify clone (map_dml (fun d =>
    set_limit (Some 1) (set_data VNull (setAggregate a column d))));;
  let! result := getResponse env clone ThisDml None in
  let! res := firstOrNull result in
  match res with
  | Some row => ret (getProp (aggAlias a) row)
  | None => ret (VNum 0)
  end.

Definition count := aggregate COUNT.
Definition sum := aggregate SUM.
Definition avg := aggregate AVG.
Definition max := aggregate MAX.
Definition min := aggregate MIN.

Definition get (self : loc) : M (option (list DatabaseRecord)) :=
  let! clone := clone self in
  modify clone (map_dml (fun d => set_data VNull (set_type select_ d)));;
  getResponse env clone ThisDml None.

Definition first (self : loc) : M (option DatabaseRecord) :=
  let! clone := clone self in
  modify clone (map_dml (fun d =>
    set_limit (Some 1) (set_data VNull (set_type select_ d))));;
  let! result := getResponse env clone ThisDml None in
  firstOrNull result.

(** [clone.where(column, '=', value)] is called for its effect; the
    builder it returns is dropped. *)
Definition find_ (self : loc) (val : value) (column : string)
  : M (option DatabaseRecord) :=
  let! clone := clone self in
  modify clone (map_dml (fun d => set_data VNull (set_type select_ d)));;
  where_ clone column "=" val;;
  modify clone (map_dml (set_limit (Some 1)));;
  let! result := getResponse env clone ThisDml None in
  firstOrNull result.

Definition insert (self : loc) (data : value) : M value :=
  let! clone := clone self in
  match data with
  | VArr items =>
      if forallb validObject items
      then modify clone (map_dml (fun d => set_data data (set_type insert_ d)));;
           getResponse env clone ThisDml (Some Add);;
           ret data
      else throw (Error insertNeedsObjects)
  | _ => throw (Error insertNeedsArray)
  end.

Definition update (self : loc) (data : value) : M value :=
  let! clone := clone self in
  if negb (typeofObject data) || isArray data
  then throw (Error updateNeedsObject)
  else
    let! c := deref clone in
    match dml_where (dml c) with
    | [] => throw (Error updateNeedsWhere)
    | _ :: _ =>
        modify clone (map_dml (fun d => set_data data (set_type update_ d)));;
        getResponse env clone ThisDml (Some Update);;
        ret data
    end.

Definition delete (self : loc) : M (option (list DatabaseRecord)) :=
  let! clone := clone self in
  let! c := deref clone in
  match dml_where (dml c) with
  | [] => throw (Error deleteNeedsWhere)
  | _ :: _ =>
      modify clone (map_dml (set_type delete_));;
      getResponse env clone ThisDml (Some Delete)
  end.
End Terminal.
End CloneOnWrite.

(** ** Observations *)

(** The WHERE sequence of the builder a chain step returns. *)
Definition whereAfter (m : M loc) (w : World) : option (list WhereNode) :=
  match m w with
  | Return l w' => option_map (fun t => dml_where (dml t)) (heap w' !! l)
  | Throw _ _ => None
  end.

(** The descriptor held by the builder at [l]. *)
Definition descriptorAt (l : loc) (w : World) : option DML :=
  option_map dml (heap w !! l).

(** The requests a computation adds to the trace. *)
Definition requestsOf {A} (m : M A) (w : World) : list DML :=
  requests (drop (length (trace w)) (trace (world_of (m w)))).

Definition returns {A} (m : M A) (w : World) : option A :=
  match m w with
  | Return a _ => Some a
  | Throw _ _ => None
  end.

Definition throws {A} (m : M A) (w : World) : option error :=
  match m w with
  | Return _ _ => None
  | Throw e _ => Some e
  end.

(** The events of a trace without their payloads. *)
Inductive kind : Type := Sent | Hook | Committed | Discarded | Printed.

Definition kindOf (e : event) : kind :=
  match e with
  | EngineRun _ => Sent
  | TriggerRun _ _ => Hook
  | Commit _ => Committed
  | Discard _ => Discarded
  | ErrorPrinted _ _ => Printed
  end.

Definition kindsOf {A} (m : M A) (w : World) : list kind :=
  map kindOf (drop (length (trace w)) (trace (world_of (m w)))).

(** The keys of a row. *)
Definition keysOf (row : DatabaseRecord) : list string := map fst row.

(** ** What one orchestrator call sends and how it ends *)

(** The descriptor [getResponse] sends for [localDML] on builder [t], the
    computed fields it found among the columns and their dependencies. *)
Definition rewritten (env : Collaborators) (t : Table) (localDML : DML) : DML :=
  set_columns (fst (fst (rewriteColumns env (computedFields t) (columns localDML))))
              localDML.

Definition neededFor (env : Collaborators) (t : Table) (localDML : DML)
  : list ComputedField :=
  snd (fst (rewriteColumns env (computedFields t) (columns localDML))).

Definition depsFor (env : Collaborators) (t : Table) (localDML : DML) : list string :=
  snd (rewriteColumns env (computedFields t) (columns localDML)).

(** The assignments [get] and [first] make before the orchestrator call. *)
Definition asSelect (d : DML) : DML := set_data VNull (set_type select_ d).
Definition asFirst (d : DML) : DML :=
  set_limit (Some 1) (set_data VNull (set_type select_ d)).

(** What follows the engine's answer in the branch without triggers. *)
Definition finish (env : Collaborators) (response : Response)
    (needed : list ComputedField) (deps : list string)
  : M (option (list DatabaseRecord)) :=
  (if negb (Z.eqb (status response) 200)
   then returnFormattedError (status response) (message response)
   else ret tt);;
  postProcess env needed deps (resp_data response).

(** No trigger of the phase is registered on the builder. *)
Definition noTrigger (t : Table) (ph : option Phase) : Prop :=
  match ph with
  | None => True
  | Some p =>
      trigger_get (triggers t) ("before" +:+ phaseName p) = None /\
      trigger_get (triggers t) ("after" +:+ phaseName p) = None
  end.

(** A trigger of the phase is registered on the builder. *)
Definition hasTrigger (t : Table) (p : Phase) : Prop :=
  truthy (trigger_get (triggers t) ("before" +:+ phaseName p))
  || truthy (trigger_get (triggers t) ("after" +:+ phaseName p)) = true.

(** ** Computed fields among the columns *)

(** [field] names one of the computed fields [cfs]. *)
Definition isComputed (cfs : list ComputedField) (field : string) : bool :=
  truthy (find (fun cf => String.eqb (cf_column cf) field) cfs).

(** The dependencies of [field] when it names a computed field. *)
Definition depsOfField (env : Collaborators) (cfs : list ComputedField)
    (field : string) : list string :=
  match find (fun cf => String.eqb (cf_column cf) field) cfs with
  | Some cf => extractDependencies env (instruction cf)
  | None => []
  end.

Definition fieldDeps (env : Collaborators) (cfs : list ComputedField)
    (fields : list string) : list string :=
  concat (map (depsOfField env cfs) fields).

(** Dependencies are real columns: none of them names a computed field. *)
Definition realDependencies (env : Collaborators) (cfs : list ComputedField) : Prop :=
  forall cf x,
    cf ∈ cfs -> x ∈ extractDependencies env (instruction cf) -> isComputed cfs x = false.

(** The columns [select(fields)] stores. *)
Definition selected (fields : list string) : list string :=
  match fields with
  | [] => ["*"]
  | _ :: _ => fields
  end.

(** ** Caller programs *)

(** [table("users").where("age", ">", 18).orWhere("name", "=", "Alice")] *)
Definition adultsOrAlice_inPlace (db : Database) : M loc :=
  let! users := table_ db "users" in
  let! q := InPlace.where_ users "age" ">" (VNum 18) in
  InPlace.orWhere q "name" "=" (VStr "Alice").

Definition adultsOrAlice_cloning (db : Database) : M loc :=
  let! users := table_ db "users" in
  let! q := CloneOnWrite.where_ users "age" ">" (VNum 18) in
  CloneOnWrite.orWhere q "name" "=" (VStr "Alice").

(** [q => q.where("age", ">", 25).orWhere("name", "=", "Jane")]: the callback
    returns nothing, the builder its chain ends with is dropped. *)
Definition olderOrJane_inPlace (q : loc) : M unit :=
  let! q1 := InPlace.where_ q "age" ">" (VNum 25) in
  InPlace.orWhere q1 "name" "=" (VStr "Jane");;
  ret tt.

Definition olderOrJane_cloning (q : loc) : M unit :=
  let! q1 := CloneOnWrite.where_ q "age" ">" (VNum 25) in
  CloneOnWrite.orWhere q1 "name" "=" (VStr "Jane");;
  ret tt.

(** [table("users").whereGroup(q => ...).where("status", "=", "active")] *)
Definition groupThenStatus_inPlace (db : Database) : M loc :=
  let! users := table_ db "users" in
  let! q := InPlace.whereGroup users olderOrJane_inPlace in
  InPlace.where_ q "status" "=" (VStr "active").

Definition groupThenStatus_cloning (db : Database) : M loc :=
  let! users := table_ db "users" in
  let! q := CloneOnWrite.whereGroup users olderOrJane_cloning in
  CloneOnWrite.where_ q "status" "=" (VStr "active").

(** Two branches derived from the base builder [B], each run with [get]:
    [B.where("age", ">", 18).get(); B.where("name", "=", "Alice").get()]. *)
Definition twoBranches_inPlace (env : Collaborators) (B : loc) : M unit :=
  let! bx := InPlace.where_ B "age" ">" (VNum 18) in
  InPlace.get env bx;;
  let! by_ := InPlace.where_ B "name" "=" (VStr "Alice") in
  InPlace.get env by_;;
  ret tt.

Definition twoBranches_cloning (env : Collaborators) (B : loc) : M unit :=
  let! bx := CloneOnWrite.where_ B "age" ">" (VNum 18) in
  CloneOnWrite.get env bx;;
  let! by_ := CloneOnWrite.where_ B "name" "=" (VStr "Alice") in
  CloneOnWrite.get env by_;;
  ret tt.

(** One branch off a base builder, run: [B.where(column, operator, val).get()]. *)
Definition branch_cloning (env : Collaborators) (B : loc)
    (column operator : string) (val : value) : M (option (list DatabaseRecord)) :=
  let! b := CloneOnWrite.where_ B column operator val in
  CloneOnWrite.get env b.

(** [limit(5).count()] on [src/lib/Database.ts]. *)
Definition limitThenCount_inPlace (B : loc) : M loc :=
  let! q := InPlace.limit_ B 5 in
  InPlace.count q "*".

(** [count().first()], the documented way to read a count there. *)
Definition countThenFirst_inPlace (env : Collaborators) (B : loc)
  : M (option DatabaseRecord) :=
  let! q := InPlace.count B "*" in
  InPlace.first env q.

(** [select(fields).get()] *)
Definition selectGet_inPlace (env : Collaborators) (B : loc) (fields : list string)
  : M (option (list DatabaseRecord)) :=
  let! q := InPlace.select B fields in
  InPlace.get env q.

Definition selectGet_cloning (env : Collaborators) (B : loc) (fields : list string)
  : M (option (list DatabaseRecord)) :=
  let! q := CloneOnWrite.select B fields in
  CloneOnWrite.get env q.

(** ** Concrete collaborators and stores *)

(** An engine that answers every request with success and no rows, a
    computed field processor that finds no dependency and returns the rows
    it is given, handlers that return. *)
Definition quietEnv : Collaborators :=
  mkCollaborators (fun _ _ => mkResponse 200 (Some []) None)
                  (fun _ => [])
                  (fun rows _ => rows)
                  (fun _ _ => true).

(** An engine that fails every request with status 500 and a message. *)
Definition failingEnv : Collaborators :=
  mkCollaborators (fun _ _ => mkResponse 500 None (Some "syntax error"))
                  (fun _ => [])
                  (fun rows _ => rows)
                  (fun _ _ => true).

Definition usersTable : Table :=
  mkTable true AND
    (mkDML select_ (Name "shop") (Name "users") ["*"] false [] [] [] [] None None
           VNull None)
    [] [].

(** A store holding one builder, [table("users").where("id", "=", 1)]. *)
Definition oneWhere : Table := pushWhere (Leaf "id" "=" (VNum 1) AND) usersTable.
Definition oneWhereWorld : World := mkWorld [oneWhere] [].

(** Builders of a table with a registered trigger. *)
Definition withTriggers (trs : list TriggerMeta) (t : Table) : Table :=
  mkTable (engine t) (nextType t) (dml t) (computedFields t) trs.

Definition beforeAdd : TriggerMeta := mkTriggerMeta "beforeAdd" "shop" "users".
Definition beforeUpdate : TriggerMeta := mkTriggerMeta "beforeUpdate" "shop" "users".

Definition hookedInsertWorld : World :=
  mkWorld [withTriggers [beforeAdd] usersTable] [].

Definition hookedUpdateWorld : World :=
  mkWorld [withTriggers [beforeUpdate] oneWhere] [].

Definition alice : value := VObj [("name", VStr "Alice")].
Definition bob : value := VObj [("name", VStr "Bob")].

(** A table with the computed field [total = price * qty]: the processor
    reads [price] and [qty] and appends [total] to every row; the engine
    answers with one row holding [price] and [qty]. *)
Definition total : ComputedField := mkComputedField "total" "price * qty".

Definition shopEnv : Collaborators :=
  mkCollaborators
    (fun _ _ => mkResponse 200 (Some [[("price", VNum 2); ("qty", VNum 3)]]) None)
    (fun _ => ["price"; "qty"])
    (fun rows _ => option_map (map (fun row => row ++ [("total", VNum 6)])) rows)
    (fun _ _ => true).

Definition itemsTable : Table :=
  mkTable true AND
    (mkDML select_ (Name "shop") (Name "items") ["*"] false [] [] [] [] None None
           VNull None)
    [total] [].

Definition itemsWorld : World := mkWorld [itemsTable] [].




(** ** Chains of builder steps *)

(** The chain steps both forms of the builder have in common.  [whereGroup]
    and the aggregate shortcuts are left out: they are not steps of the same
    kind in the two forms. *)
Inductive Step : Type :=
| SSelect (fields : list string)
| SWhere (column operator : string) (val : value)
| SOrWhere (column operator : string) (val : value)
| SOr
| SAnd
| SWhereBetween (column : string) (value1 value2 : value)
| SWhereIn (column : string) (values : value)
| SWhereNull (column : string)
| SWhereNotNull (column : string)
| SJoin (ty : JoinType) (table column1 operator column2 : string)
| SOrderBy (column direction : string)
| SGroupBy (column : string)
| SDistinct
| SLimit (number : Z)
| SPage (number : Z).

(** The method call a step stands for, in each form. *)
Definition step_inPlace (toUpperCase : string -> string) (s : Step) (self : loc)
  : M loc :=
  match s with
  | SSelect fields => InPlace.select self fields
  | SWhere column operator val => InPlace.where_ self column operator val
  | SOrWhere column operator val => InPlace.orWhere self column operator val
  | SOr => InPlace.or self
  | SAnd => InPlace.and self
  | SWhereBetween column value1 value2 => InPlace.whereBetween self column value1 value2
  | SWhereIn column values => InPlace.whereIn self column values
  | SWhereNull column => InPlace.whereNull self column
  | SWhereNotNull column => InPlace.whereNotNull self column
  | SJoin INNER table column1 operator column2 =>
      InPlace.join self table column1 operator column2
  | SJoin LEFT table column1 operator column2 =>
      InPlace.leftJoin self table column1 operator column2
  | SJoin RIGHT table column1 operator column2 =>
      InPlace.rightJoin self table column1 operator column2
  | SOrderBy column direction => InPlace.orderBy_ toUpperCase self column direction
  | SGroupBy column => InPlace.groupBy_ self column
  | SDistinct => InPlace.distinct_ self
  | SLimit number => InPlace.limit_ self number
  | SPage number => InPlace.page self number
  end.

Definition step_cloning (toUpperCase : string -> string) (s : Step) (self : loc)
  : M loc :=
  match s with
  | SSelect fields => CloneOnWrite.select self fields
  | SWhere column operator val => CloneOnWrite.where_ self column operator val
  | SOrWhere column operator val => CloneOnWrite.orWhere self column operator val
  | SOr => CloneOnWrite.or self
  | SAnd => CloneOnWrite.and self
  | SWhereBetween column value1 value2 =>
      CloneOnWrite.whereBetween self column value1 value2
  | SWhereIn column values => CloneOnWrite.whereIn self column values
  | SWhereNull column => CloneOnWrite.whereNull self column
  | SWhereNotNull column => CloneOnWrite.whereNotNull self column
  | SJoin INNER table column1 operator column2 =>
      CloneOnWrite.join self table column1 operator column2
  | SJoin LEFT table column1 operator column2 =>
      CloneOnWrite.leftJoin self table column1 operator column2
  | SJoin RIGHT table column1 operator column2 =>
      CloneOnWrite.rightJoin self table column1 operator column2
  | SOrderBy column direction => CloneOnWrite.orderBy_ toUpperCase self column direction
  | SGroupBy column => CloneOnWrite.groupBy_ self column
  | SDistinct => CloneOnWrite.distinct_ self
  | SLimit number => CloneOnWrite.limit_ self number
  | SPage number => CloneOnWrite.page self number
  end.

(** [self.step1(...).step2(...)...]: each step is called on what the one
    before it returned. *)
Fixpoint chain (step : Step -> loc -> M loc) (steps : list Step) (self : loc)
  : M loc :=
  match steps with
  | [] => ret self
  | s :: rest => let! q := step s self in chain step rest q
  end.

(** The builder a computation returns. *)
Definition tableAfter (m : M loc) (w : World) : option Table :=
  match m w with
  | Return l w' => heap w' !! l
  | Throw _ _ => None
  end.

(** What a step does to the fields of the builder it works on (the receiver
    in [src/lib/Database.ts], the clone in the second copy), or the error it
    throws. *)
Definition stepTable (toUpperCase : string -> string) (s : Step) (t : Table)
  : error + Table :=
  match s with
  | SSelect fields =>
      inr (map_dml (fun d => set_columns (selected fields) (set_type select_ d)) t)
  | SWhere column operator val =>
      inr (set_nextType AND (pushWhere (Leaf column operator val (nextType t)) t))
  | SOrWhere column operator val => inr (pushWhere (Leaf column operator val OR) t)
  | SOr => inr (set_nextType OR t)
  | SAnd => inr (set_nextType AND t)
  | SWhereBetween column value1 value2 =>
      inr (if negb (isUndefined value1) && negb (isUndefined value2)
           then set_nextType AND
                  (pushWhere (Leaf column "BETWEEN" (VArr [value1; value2]) (nextType t)) t)
           else t)
  | SWhereIn column values =>
      inr (if nonEmptyArray values
           then set_nextType AND (pushWhere (Leaf column "IN" values (nextType t)) t)
           else t)
  | SWhereNull column =>
      inr (set_nextType AND (pushWhere (Leaf column "IS NULL" VUndefined (nextType t)) t))
  | SWhereNotNull column =>
      inr (set_nextType AND
             (pushWhere (Leaf column "IS NOT NULL" VUndefined (nextType t)) t))
  | SJoin ty table column1 operator column2 =>
      inr (pushJoin (mkJoin ty table column1 operator column2) t)
  | SOrderBy column direction =>
      match validDirection (toUpperCase direction) with
      | Some dir =>
          inr (map_dml (fun d => set_orderBy (orderBy d ++ [(column, dir)]) d) t)
      | None => inl (Error (invalidDirection direction))
      end
  | SGroupBy column => inr (map_dml (fun d => set_groupBy (groupBy d ++ [column]) d) t)
  | SDistinct => inr (map_dml (set_distinct true) t)
  | SLimit number => inr (map_dml (set_limit (Some number)) t)
  | SPage number =>
      inr (map_dml (fun d =>
             if limitSet (limit d)
             then set_offset (Some (times (minus number 1) (default 0 (limit d)))) d
             else d) t)
  end.

(** The fields reached by a chain, and the error that stopped it if one
    did. *)
Fixpoint chainTable (toUpperCase : string -> string) (steps : list Step) (t : Table)
  : Table * option error :=
  match steps with
  | [] => (t, None)
  | s :: rest =>
      match stepTable toUpperCase s t with
      | inr t' => chainTable toUpperCase rest t'
      | inl e => (t, Some e)
      end
  end.

(** The step appends a node to the WHERE sequence. *)
Definition appendsNode (s : Step) : bool :=
  match s with
  | SWhere _ _ _ | SOrWhere _ _ _ | SWhereNull _ | SWhereNotNull _ => true
  | SWhereBetween _ value1 value2 => negb (isUndefined value1) && negb (isUndefined value2)
  | SWhereIn _ values => nonEmptyArray values
  | _ => false
  end.

(** The entries a step adds to [joins], [groupBy] and [orderBy]. *)
Definition joinOf (s : Step) : option Join :=
  match s with
  | SJoin ty table column1 operator column2 =>
      Some (mkJoin ty table column1 operator column2)
  | _ => None
  end.

Definition groupOf (s : Step) : option string :=
  match s with
  | SGroupBy column => Some column
  | _ => None
  end.

Definition orderOf (toUpperCase : string -> string) (s : Step)
  : option (string * Direction) :=
  match s with
  | SOrderBy column direction =>
      option_map (fun dir => (column, dir)) (validDirection (toUpperCase direction))
  | _ => None
  end.

(** Every [orderBy] of the chain names a direction the code accepts. *)
Definition wellDirected (toUpperCase : string -> string) (steps : list Step) : Prop :=
  Forall (fun s =>
            match s with
            | SOrderBy _ direction => is_Some (validDirection (toUpperCase direction))
            | _ => True
            end) steps.

(** How many steps of the chain append a WHERE node. *)
Fixpoint countNodes (steps : list Step) : nat :=
  match steps with
  | [] => 0
  | s :: rest => (if appendsNode s then 1 else 0) + countNodes rest
  end.

(** [select(fields).count(column)] and [count(column).select(fields)] on
    [src/lib/Database.ts], for any of the five aggregates. *)
Definition selectThenAggregate (a : AggType) (B : loc) (fields : list string)
    (column : string) : M loc :=
  let! q := InPlace.select B fields in
  InPlace.aggregate a q column.

Definition aggregateThenSelect (a : AggType) (B : loc) (fields : list string)
    (column : string) : M loc :=
  let! q := InPlace.aggregate a B column in
  InPlace.select q fields.

(** Upper case of the letters a to z, for the examples. *)
Fixpoint upperAscii (s : string) : string :=
  match s with
  | EmptyString => EmptyString
  | String c rest =>
      let n := Ascii.nat_of_ascii c in
      String (if (97 <=? n)%nat && (n <=? 122)%nat
              then Ascii.ascii_of_nat (n - 32)
              else c)
             (upperAscii rest)
  end.

(** ** Effects of the orchestrator *)

(** The computation leaves the store as it was, however it ends. *)
Definition keepsStore {A} (m : M A) : Prop :=
  forall w, heap (world_of (m w)) = heap w.

(** The computation returns, leaves the store as it was and sends exactly
    [reqs] to the engine, in that order; what it returns satisfies [P]. *)
Definition sends {A} (m : M A) (reqs : list DML) (P : A -> Prop) : Prop :=
  forall h tr,
    exists a evs,
      m (mkWorld h tr) = Return a (mkWorld h (tr ++ evs)) /\
      requests evs = reqs /\
      P a.

(** An answer that lets the orchestrator go on: status 200, or a failure
    that carries a message. *)
Definition answered (r : Response) : Prop :=
  status r = 200 \/ is_Some (message r).

(** How many hooks of the phase the builder has: [before], [after], or
    both. *)
Definition hooks (t : Table) (p : Phase) : nat :=
  (if truthy (trigger_get (triggers t) ("before" +:+ phaseName p)) then 1 else 0)
  + (if truthy (trigger_get (triggers t) ("after" +:+ phaseName p)) then 1 else 0).

(** The descriptor [insert] stores before it calls the orchestrator. *)
Definition asInsert (data : value) (d : DML) : DML :=
  set_data data (set_type insert_ d).

(** The computation writes to no builder below position [n] and removes
    none. *)
Definition writesAbove (n : nat) {A} (m : M A) : Prop :=
  forall w,
    (n <= length (heap w))%nat ->
    (n <= length (heap (world_of (m w))))%nat /\
    forall l, (l < n)%nat -> heap (world_of (m w)) !! l = heap w !! l.

(** The computation throws [e], leaves the store as it was and has sent
    exactly [reqs] by then. *)
Definition stops {A} (m : M A) (reqs : list DML) (e : error) : Prop :=
  forall h tr,
    exists evs,
      m (mkWorld h tr) = Throw e (mkWorld h (tr ++ evs)) /\
      requests evs = reqs.

(** The computation returns, leaves the store as it was and adds exactly
    the events [evs] to the trace. *)
Definition leaves {A} (m : M A) (evs : list event) (P : A -> Prop) : Prop :=
  forall h tr,
    exists a, m (mkWorld h tr) = Return a (mkWorld h (tr ++ evs)) /\ P a.

(** The events a computation adds to the trace. *)
Definition eventsOf {A} (m : M A) (w : World) : list event :=
  drop (length (trace w)) (trace (world_of (m w))).

(** The requests of the per-row loop: every row is sent on its own, once
    for each of the [k] hooks. *)
Definition rowRequests (k : nat) (localDML : DML) (rows : list value) : list DML :=
  flat_map (fun row => replicate k (set_data (VArr [row]) localDML)) rows.

(** What one row of the loop leaves in the trace when the handlers return
    and the engine answers 200. *)
Definition rowEvents (t : Table) (ph : Phase) (localDML : DML) (row : value)
  : list event :=
  let request := set_data (VArr [row]) localDML in
  (if truthy (trigger_get (triggers t) ("before" +:+ phaseName ph))
   then [TriggerRun ("before" +:+ phaseName ph) row; EngineRun request;
         Commit ("before" +:+ phaseName ph)]
   else [])
  ++ (if truthy (trigger_get (triggers t) ("after" +:+ phaseName ph))
      then [EngineRun request; TriggerRun ("after" +:+ phaseName ph) row;
            Commit ("after" +:+ phaseName ph)]
      else []).

(** ** The two forms side by side *)

Inductive Form : Type := Mutating | Cloning.

Definition getOf (f : Form) (env : Collaborators) (self : loc)
  : M (option (list DatabaseRecord)) :=
  match f with
  | Mutating => InPlace.get env self
  | Cloning => CloneOnWrite.get env self
  end.

Definition firstOf (f : Form) (env : Collaborators) (self : loc)
  : M (option DatabaseRecord) :=
  match f with
  | Mutating => InPlace.first env self
  | Cloning => CloneOnWrite.first env self
  end.

Definition insertOf (f : Form) (env : Collaborators) (self : loc) (data : value)
  : M value :=
  match f with
  | Mutating => InPlace.insert env self data
  | Cloning => CloneOnWrite.insert env self data
  end.

Definition updateOf (f : Form) (env : Collaborators) (self : loc) (data : value)
  : M value :=
  match f with
  | Mutating => InPlace.update env self data
  | Cloning => CloneOnWrite.update env self data
  end.

Definition deleteOf (f : Form) (env : Collaborators) (self : loc)
  : M (option (list DatabaseRecord)) :=
  match f with
  | Mutating => InPlace.delete env self
  | Cloning => CloneOnWrite.delete env self
  end.

(** ** [Database]: loading computed fields and triggers *)

(** What [ComputedFieldProcessor.getComputedFields] and
    [TriggerProcessor.getTriggers] answer for a database name. *)
Record Registry : Type := mkRegistry {
  getComputedFields : string -> list ComputedField;
  getTriggers : string -> list TriggerMeta
}.

(** [new Database(name)] *)
Definition newDatabase (name : string) : Database := mkDatabase name [] [].

(** The two loading calls. *)
Inductive Setup : Type := UseComputes | UseTriggers.

(** [src/lib/Database.ts]: the calls assign to the fields of [this]. *)
Module DatabaseInPlace.

Definition useComputes (reg : Registry) (db : Database) : Database :=
  mkDatabase (db_name db) (getComputedFields reg (db_name db)) (db_triggers db).

Definition useTriggers (reg : Registry) (db : Database) : Database :=
  mkDatabase (db_name db) (db_computedFields db) (getTriggers reg (db_name db)).

Definition call (reg : Registry) (db : Database) (c : Setup) : Database :=
  match c with
  | UseComputes => useComputes reg db
  | UseTriggers => useTriggers reg db
  end.

(** [await db.useComputes(); await db.useTriggers(); ...] on one handle. *)
Definition setup (reg : Registry) (calls : list Setup) (db : Database) : Database :=
  fold_left (call reg) calls db.
End DatabaseInPlace.

(** The second copy: each call returns [new Database(this.name)] with one
    field set, and leaves [this] alone. *)
Module DatabaseCloning.

Definition useComputes (reg : Registry) (db : Database) : Database :=
  mkDatabase (db_name db) (getComputedFields reg (db_name db)) [].

Definition useTriggers (reg : Registry) (db : Database) : Database :=
  mkDatabase (db_name db) [] (getTriggers reg (db_name db)).

Definition call (reg : Registry) (db : Database) (c : Setup) : Database :=
  match c with
  | UseComputes => useComputes reg db
  | UseTriggers => useTriggers reg db
  end.

(** [db = await db.useComputes(); db = await db.useTriggers(); ...]: each
    call on the handle the one before returned. *)
Definition setup (reg : Registry) (calls : list Setup) (db : Database) : Database :=
  fold_left (call reg) calls db.
End DatabaseCloning.

(** ** [whereGroup] with a callback that runs a chain *)

(** [q => { q.step1(...).step2(...)... }] *)
Definition chainCallback (step : Step -> loc -> M loc) (steps : list Step)
  : loc -> M unit :=
  fun q => chain step steps q;; ret tt.

(** The sub-builder [whereGroup] of [src/lib/Database.ts] hands to its
    callback. *)
Definition groupQueryOf (t : Table) : Table :=
  mkTable false AND
    (mkDML select_ (table (dml t)) (if engine t then EngineObject else NullName)
           ["*"] false [] [] [] [] None None VNull None) [] [].

(** ** Concrete builders for the examples *)

(** [.where("age", ">", 18).orWhere("name", "=", "Alice").join("orders", ...)
     .groupBy("city").orderBy("name", "desc").limit(5)] *)
Definition exampleChain : list Step :=
  [SWhere "age" ">" (VNum 18); SOrWhere "name" "=" (VStr "Alice");
   SJoin INNER "orders" "users.id" "=" "orders.user_id";
   SGroupBy "city"; SOrderBy "name" "desc"; SLimit 5].

(** [q => { q.where("age", ">", 25).orWhere("name", "=", "Jane") }] as a
    chain. *)
Definition olderOrJane : list Step :=
  [SWhere "age" ">" (VNum 25); SOrWhere "name" "=" (VStr "Jane")].

Definition afterAdd : TriggerMeta := mkTriggerMeta "afterAdd" "shop" "users".
Definition beforeDelete : TriggerMeta := mkTriggerMeta "beforeDelete" "shop" "users".

Definition hookedBothWorld : World :=
  mkWorld [withTriggers [beforeAdd; afterAdd] usersTable] [].

Definition hookedAfterWorld : World :=
  mkWorld [withTriggers [afterAdd] usersTable] [].

Definition hookedDeleteWorld : World :=
  mkWorld [withTriggers [beforeDelete] oneWhere] [].

Definition usersWorld : World := mkWorld [usersTable] [].

(** Handlers that throw on the row of Bob. *)
Definition pickyEnv : Collaborators :=
  mkCollaborators (fun _ _ => mkResponse 200 (Some []) None)
                  (fun _ => [])
                  (fun rows _ => rows)
                  (fun _ row =>
                     match row with
                     | VObj [(_, VStr name)] => negb (String.eqb name "Bob")
                     | _ => true
                     end).

(** An engine that answers every request with the one row [{count: 3}]. *)
Definition countEnv : Collaborators :=
  mkCollaborators (fun _ _ => mkResponse 200 (Some [[("count", VNum 3)]]) None)
                  (fun _ => [])
                  (fun rows _ => rows)
                  (fun _ _ => true).

(** [table("items").select(["name", "total"])] with [total] computed. *)
Definition totalsTable : Table :=
  map_dml (set_columns ["name"; "total"]) itemsTable.

Definition totalsWorld : World := mkWorld [totalsTable] [].

Definition shopRegistry : Registry :=
  mkRegistry (fun _ => [total]) (fun _ => [beforeAdd]).
(** ** Store lemmas *)

Section Store.

Context {A : Type}.

Lemma bind_Return {B} (m : M B) (k : B -> M A) w b w' :
  m w = Return b w' -> bind m k w = k b w'.
Proof. intros E. unfold bind. now rewrite E. Qed.

Lemma bind_Throw {B} (m : M B) (k : B -> M A) w e w' :
  m w = Throw e w' -> bind m k w = Throw e w'.
Proof. intros E. unfold bind. now rewrite E. Qed.

Lemma deref_at l t w : heap w !! l = Some t -> deref l w = Return t w.
Proof. intros E. unfold deref. now rewrite E. Qed.

Lemma modify_at l f t w :
  heap w !! l = Some t ->
  modify l f w = Return tt (mkWorld (<[l := f t]> (heap w)) (trace w)).
Proof. intros E. unfold modify, bind, deref, assign. now rewrite E. Qed.

Lemma lookup_fresh (h : list Table) t : (h ++ [t]) !! length h = Some t.
Proof. now rewrite list_lookup_middle. Qed.

Lemma lookup_kept (h : list Table) l t t' :
  h !! l = Some t -> (h ++ [t']) !! l = Some t.
Proof. intros E. now apply lookup_app_l_Some. Qed.

Lemma lookup_written (h : list Table) l t t' :
  h !! l = Some t -> <[l := t']> h !! l = Some t'.
Proof. intros E. apply list_lookup_insert_eq. now apply lookup_lt_Some in E. Qed.

Lemma lookup_other (h : list Table) l l' t' :
  l <> l' -> <[l := t']> h !! l' = h !! l'.
Proof. intros E. now apply list_lookup_insert_ne. Qed.

Lemma fresh_differs (h : list Table) l t : h !! l = Some t -> l <> length h.
Proof. intros E. apply lookup_lt_Some in E. lia. Qed.
End Store.

(** ** Chain steps *)

Lemma inplace_step (self : loc) (f : Table -> Table) t w :
  heap w !! self = Some t ->
  (modify self f;; ret self) w
  = Return self (mkWorld (<[self := f t]> (heap w)) (trace w)).
Proof. intros E. unfold bind. now rewrite (modify_at _ _ _ _ E). Qed.

Lemma clone_at (self : loc) t w :
  heap w !! self = Some t ->
  CloneOnWrite.clone self w
  = Return (length (heap w)) (mkWorld (heap w ++ [t]) (trace w)).
Proof. intros E. unfold CloneOnWrite.clone, bind, deref, alloc. now rewrite E. Qed.

Lemma write_fresh (h : list Table) (t t' : Table) :
  <[length h := t']> (h ++ [t]) = h ++ [t'].
Proof.
  rewrite insert_app_r_alt by lia.
  now replace (length h - length h)%nat with 0%nat by lia.
Qed.

Lemma clone_step (self : loc) (f : Table -> Table) t w :
  heap w !! self = Some t ->
  (let! clone := CloneOnWrite.clone self in modify clone f;; ret clone) w
  = Return (length (heap w)) (mkWorld (heap w ++ [f t]) (trace w)).
Proof.
  intros E. rewrite (bind_Return _ _ _ _ _ (clone_at _ _ _ E)).
  unfold bind. rewrite (modify_at _ _ t) by apply lookup_fresh.
  cbn. now rewrite write_fresh.
Qed.

Lemma whereAfter_inplace_step (self : loc) (f : Table -> Table) t w :
  heap w !! self = Some t ->
  whereAfter (modify self f;; ret self) w = Some (dml_where (dml (f t))).
Proof.
  intros E. unfold whereAfter. rewrite (inplace_step _ _ _ _ E). cbn.
  now rewrite (lookup_written _ _ _ _ E).
Qed.

Lemma whereAfter_clone_step (self : loc) (f : Table -> Table) t w :
  heap w !! self = Some t ->
  whereAfter (let! clone := CloneOnWrite.clone self in modify clone f;; ret clone) w
  = Some (dml_where (dml (f t))).
Proof.
  intros E. unfold whereAfter. rewrite (clone_step _ _ _ _ E). cbn.
  now rewrite lookup_fresh.
Qed.

(** A step that may skip its update, in the two forms. *)
Lemma whereAfter_inplace_guarded (self : loc) (b : bool) (f : Table -> Table) t w :
  heap w !! self = Some t ->
  whereAfter ((if b then modify self f else ret tt);; ret self) w
  = Some (dml_where (dml (if b then f t else t))).
Proof.
  intros E. destruct b.
  - now apply whereAfter_inplace_step.
  - unfold whereAfter. cbn. now rewrite E.
Qed.

Lemma whereAfter_clone_guarded (self : loc) (b : bool) (f : Table -> Table) t w :
  heap w !! self = Some t ->
  whereAfter (let! clone := CloneOnWrite.clone self in
              (if b then modify clone f else ret tt);; ret clone) w
  = Some (dml_where (dml (if b then f t else t))).
Proof.
  intros E. destruct b.
  - now apply whereAfter_clone_step.
  - unfold whereAfter. rewrite (bind_Return _ _ _ _ _ (clone_at _ _ _ E)).
    cbn. now rewrite lookup_fresh.
Qed.

Lemma bind_modify_at {A} l f t (k : unit -> M A) h tr :
  h !! l = Some t ->
  bind (modify l f) k (mkWorld h tr) = k tt (mkWorld (<[l := f t]> h) tr).
Proof. intros E. apply bind_Return. now apply (modify_at l f t (mkWorld h tr)). Qed.

Lemma bind_deref_at {A} l t (k : Table -> M A) h tr :
  h !! l = Some t ->
  bind (deref l) k (mkWorld h tr) = k t (mkWorld h tr).
Proof. intros E. apply bind_Return. now apply (deref_at l t (mkWorld h tr)). Qed.

Lemma bind_clone_at {A} l t (k : loc -> M A) h tr :
  h !! l = Some t ->
  bind (CloneOnWrite.clone l) k (mkWorld h tr) = k (length h) (mkWorld (h ++ [t]) tr).
Proof. intros E. apply bind_Return. now apply (clone_at l t (mkWorld h tr)). Qed.

Lemma bind_clone_modify_at {A} l f t (k : loc -> M A) h tr :
  h !! l = Some t ->
  (let! clone := CloneOnWrite.clone l in modify clone f;; k clone) (mkWorld h tr)
  = k (length h) (mkWorld (h ++ [f t]) tr).
Proof.
  intros E.
  rewrite (bind_Return _ _ _ _ _ (clone_at l t (mkWorld h tr) E)). cbn [heap trace].
  rewrite (bind_modify_at _ _ t) by apply lookup_fresh.
  now rewrite write_fresh.
Qed.

Lemma write_second (h : list Table) (t1 t1' t2 : Table) :
  <[length h := t1']> ((h ++ [t1]) ++ [t2]) = (h ++ [t1']) ++ [t2].
Proof.
  rewrite insert_app_l by (rewrite length_app; cbn; lia).
  now rewrite write_fresh.
Qed.

Lemma lookup_second (h : list Table) (t1 t2 : Table) :
  ((h ++ [t1]) ++ [t2]) !! length h = Some t1.
Proof. apply lookup_kept, lookup_fresh. Qed.

Lemma match_nonempty {A B} (l : list A) (a b : B) :
  l <> [] -> match l with [] => a | _ :: _ => b end = b.
Proof. now destruct l. Qed.

(** ** WHERE BETWEEN and WHERE IN *)

(** C9. [whereBetween] returns a builder with the WHERE sequence unchanged,
    and no error, when a bound is [undefined], and with one BETWEEN leaf
    holding the pair appended otherwise; [whereIn] leaves the sequence
    unchanged when [values] is not a non-empty array and appends one IN leaf
    otherwise.  Both forms of the builder agree. *)
Theorem whereBetween_whereIn_skip_or_append
    (w : World) (self : loc) (t : Table) (column : string) (lo hi values : value) :
  heap w !! self = Some t ->
  let ws := dml_where (dml t) in
  let between := Leaf column "BETWEEN" (VArr [lo; hi]) (nextType t) in
  let isIn := Leaf column "IN" values (nextType t) in
  let afterBetween :=
    if isUndefined lo || isUndefined hi then ws else ws ++ [between] in
  let afterIn := if nonEmptyArray values then ws ++ [isIn] else ws in
  whereAfter (InPlace.whereBetween self column lo hi) w = Some afterBetween /\
  whereAfter (CloneOnWrite.whereBetween self column lo hi) w = Some afterBetween /\
  whereAfter (InPlace.whereIn self column values) w = Some afterIn /\
  whereAfter (CloneOnWrite.whereIn self column values) w = Some afterIn.
Proof.
  intros E ws between isIn afterBetween afterIn.
  repeat split.
  - unfold InPlace.whereBetween.
    rewrite (whereAfter_inplace_guarded _ _ _ _ _ E).
    subst afterBetween. now destruct lo, hi.
  - unfold CloneOnWrite.whereBetween.
    rewrite (whereAfter_clone_guarded _ _ _ _ _ E).
    subst afterBetween. now destruct lo, hi.
  - unfold InPlace.whereIn.
    rewrite (whereAfter_inplace_guarded _ _ _ _ _ E).
    subst afterIn. now destruct (nonEmptyArray values).
  - unfold CloneOnWrite.whereIn.
    rewrite (whereAfter_clone_guarded _ _ _ _ _ E).
    subst afterIn. now destruct (nonEmptyArray values).
Qed.

Lemma whereBetween_whereIn_skip_or_append_witness :
  whereAfter (InPlace.whereBetween 0%nat "age" VUndefined (VNum 30)) oneWhereWorld
  = Some [Leaf "id" "=" (VNum 1) AND] /\
  whereAfter (CloneOnWrite.whereBetween 0%nat "age" VUndefined (VNum 30)) oneWhereWorld
  = Some [Leaf "id" "=" (VNum 1) AND] /\
  whereAfter (InPlace.whereIn 0%nat "age" (VArr [VNum 7])) oneWhereWorld
  = Some [Leaf "id" "=" (VNum 1) AND; Leaf "age" "IN" (VArr [VNum 7]) AND] /\
  whereAfter (CloneOnWrite.whereIn 0%nat "age" (VArr [VNum 7])) oneWhereWorld
  = Some [Leaf "id" "=" (VNum 1) AND; Leaf "age" "IN" (VArr [VNum 7]) AND].
Proof.
  apply (whereBetween_whereIn_skip_or_append oneWhereWorld 0%nat oneWhere "age"
           VUndefined (VNum 30) (VArr [VNum 7])).
  reflexivity.
Defined.

(** ** The documented WHERE chains *)

Lemma table_at (db : Database) (tableName : string) w :
  table_ db tableName w
  = Return (length (heap w))
      (mkWorld (heap w ++
                [mkTable true AND
                   (mkDML select_ (Name (db_name db)) (Name tableName) ["*"] false
                          [] [] [] [] None None VNull None)
                   (db_computedFields db) (db_triggers db)])
               (trace w)).
Proof. reflexivity. Qed.

(** C5. [table("users").where("age", ">", 18).orWhere("name", "=", "Alice")]
    holds the two leaves, in call order, the first stored with AND and the
    second with OR, in both forms of the builder. *)
Theorem where_then_orWhere_sequence (db : Database) (w : World) :
  let expected :=
    [Leaf "age" ">" (VNum 18) AND; Leaf "name" "=" (VStr "Alice") OR] in
  whereAfter (adultsOrAlice_inPlace db) w = Some expected /\
  whereAfter (adultsOrAlice_cloning db) w = Some expected.
Proof.
  split.
  - unfold whereAfter, adultsOrAlice_inPlace.
    rewrite (bind_Return _ _ _ _ _ (table_at db "users" w)).
    unfold InPlace.where_.
    erewrite bind_Return by (apply inplace_step; apply lookup_fresh).
    unfold InPlace.orWhere.
    erewrite inplace_step by (cbn [heap]; eapply lookup_written, lookup_fresh).
    cbn [heap]. rewrite list_insert_insert_eq.
    now rewrite (lookup_written _ _ _ _ (lookup_fresh _ _)).
  - unfold whereAfter, adultsOrAlice_cloning.
    rewrite (bind_Return _ _ _ _ _ (table_at db "users" w)).
    unfold CloneOnWrite.where_.
    erewrite bind_Return by (apply clone_step; apply lookup_fresh).
    unfold CloneOnWrite.orWhere.
    erewrite clone_step by (cbn [heap]; apply lookup_fresh).
    cbn [heap]. now rewrite lookup_fresh.
Qed.

(** ** [whereGroup] *)

(** The callback of the documentation in the clone-on-write form: its two
    steps add two builders to the store and touch no other. *)
Lemma olderOrJane_cloning_at q g h tr :
  h !! q = Some g ->
  olderOrJane_cloning q (mkWorld h tr)
  = Return tt
      (mkWorld
         ((h ++ [set_nextType AND (pushWhere (Leaf "age" ">" (VNum 25) (nextType g)) g)])
          ++ [pushWhere (Leaf "name" "=" (VStr "Jane") OR)
                (set_nextType AND
                   (pushWhere (Leaf "age" ">" (VNum 25) (nextType g)) g))])
         tr).
Proof.
  intros E. unfold olderOrJane_cloning, CloneOnWrite.where_, CloneOnWrite.orWhere.
  erewrite bind_Return by (apply clone_step; exact E).
  erewrite bind_Return by (apply clone_step; apply lookup_fresh).
  reflexivity.
Qed.

Lemma cloning_whereGroup_at self callback t c g h h2 tr tr2 :
  h !! self = Some t ->
  let sub :=
    mkTable (engine t) AND
      (mkDML select_ (database (dml t)) (table (dml t)) ["*"] false [] [] [] []
             None None VNull None) [] [] in
  callback (length (h ++ [t])) (mkWorld ((h ++ [t]) ++ [sub]) tr)
  = Return tt (mkWorld h2 tr2) ->
  h2 !! length (h ++ [t]) = Some g ->
  h2 !! length h = Some c ->
  CloneOnWrite.whereGroup self callback (mkWorld h tr)
  = Return (length h)
      (mkWorld (<[length h := set_nextType AND
                                (pushWhere (Group (nextType c) (dml_where (dml g))) c)]> h2)
               tr2).
Proof.
  intros E sub Hcb Eg Ec. unfold CloneOnWrite.whereGroup.
  rewrite (bind_clone_at _ t) by assumption.
  rewrite (bind_deref_at _ t) by apply lookup_fresh.
  unfold newTable. unfold bind at 1. cbn [alloc heap trace]. fold sub.
  rewrite (bind_Return _ _ _ _ _ Hcb).
  rewrite (bind_deref_at _ g) by assumption.
  now rewrite (bind_modify_at _ _ c) by assumption.
Qed.

(** C6 on the second copy of the builder, for every database handle and
    every store.  The callback's chain steps return clones and leave the
    sub-builder as it was made, so the group node of
    [table("users").whereGroup(q => q.where("age", ">", 25).orWhere("name", "=", "Jane")).where("status", "=", "active")]
    is appended with no condition in it. *)
Theorem cloning_whereGroup_group_is_empty (db : Database) (w : World) :
  whereAfter (groupThenStatus_cloning db) w
  = Some [Group AND []; Leaf "status" "=" (VStr "active") AND].
Proof.
  destruct w as [h tr]. unfold whereAfter, groupThenStatus_cloning.
  rewrite (bind_Return _ _ _ _ _ (table_at db "users" (mkWorld h tr))).
  cbn [heap trace].
  erewrite bind_Return.
  2:{ eapply cloning_whereGroup_at.
      - apply lookup_fresh.
      - apply olderOrJane_cloning_at, lookup_fresh.
      - apply lookup_kept, lookup_kept, lookup_fresh.
      - apply lookup_kept, lookup_kept, lookup_kept, lookup_fresh. }
  unfold CloneOnWrite.where_.
  erewrite clone_step.
  2:{ cbn [heap]. eapply lookup_written.
      apply lookup_kept, lookup_kept, lookup_kept, lookup_fresh. }
  cbn [heap]. now rewrite lookup_fresh.
Qed.

Lemma inplace_whereGroup_at self callback t t2 g h h2 tr tr2 :
  h !! self = Some t ->
  let sub :=
    mkTable false AND
      (mkDML select_ (table (dml t)) (if engine t then EngineObject else NullName)
             ["*"] false [] [] [] [] None None VNull None) [] [] in
  callback (length h) (mkWorld (h ++ [sub]) tr) = Return tt (mkWorld h2 tr2) ->
  h2 !! length h = Some g ->
  h2 !! self = Some t2 ->
  InPlace.whereGroup self callback (mkWorld h tr)
  = Return self
      (mkWorld (<[self := set_nextType AND
                            (pushWhere (Group (nextType t2) (dml_where (dml g))) t2)]> h2)
               tr2).
Proof.
  intros E sub Hcb Eg E2. unfold InPlace.whereGroup.
  rewrite (bind_deref_at _ t) by assumption.
  unfold newTable. unfold bind at 1. cbn [alloc heap trace]. fold sub.
  rewrite (bind_Return _ _ _ _ _ Hcb).
  rewrite (bind_deref_at _ g) by assumption.
  now rewrite (bind_modify_at _ _ t2) by assumption.
Qed.

Lemma olderOrJane_inPlace_at q g h tr :
  h !! q = Some g ->
  olderOrJane_inPlace q (mkWorld h tr)
  = Return tt
      (mkWorld
         (<[q := pushWhere (Leaf "name" "=" (VStr "Jane") OR)
                   (set_nextType AND
                      (pushWhere (Leaf "age" ">" (VNum 25) (nextType g)) g))]> h)
         tr).
Proof.
  intros E. unfold olderOrJane_inPlace, InPlace.where_, InPlace.orWhere.
  erewrite bind_Return by (apply inplace_step; exact E).
  erewrite bind_Return
    by (apply inplace_step; cbn [heap]; eapply lookup_written, E).
  cbn [heap ret]. now rewrite list_insert_insert_eq.
Qed.

(** [src/lib/Database.ts] on the same chain: the group holds the two leaves
    the callback added. *)
Lemma inplace_whereGroup_group_holds_the_leaves (db : Database) (w : World) :
  whereAfter (groupThenStatus_inPlace db) w
  = Some [Group AND [Leaf "age" ">" (VNum 25) AND; Leaf "name" "=" (VStr "Jane") OR];
          Leaf "status" "=" (VStr "active") AND].
Proof.
  destruct w as [h tr]. unfold whereAfter, groupThenStatus_inPlace.
  rewrite (bind_Return _ _ _ _ _ (table_at db "users" (mkWorld h tr))).
  cbn [heap trace].
  erewrite bind_Return.
  2:{ eapply inplace_whereGroup_at.
      - apply lookup_fresh.
      - apply olderOrJane_inPlace_at, lookup_fresh.
      - eapply lookup_written, lookup_fresh.
      - rewrite lookup_other by (rewrite length_app; cbn; lia).
        apply lookup_kept, lookup_fresh. }
  unfold InPlace.where_.
  erewrite inplace_step.
  2:{ cbn [heap]. eapply lookup_written.
      rewrite lookup_other by (rewrite length_app; cbn; lia).
      apply lookup_kept, lookup_fresh. }
  cbn [heap]. rewrite list_insert_insert_eq.
  erewrite lookup_written; [reflexivity|].
  rewrite lookup_other by (rewrite length_app; cbn; lia).
  apply lookup_kept, lookup_fresh.
Qed.

(** ** [whereGroup] in [src/lib/Database.ts] *)

(** The sub-builder handed to the callback starts with no WHERE node, and
    the group appended holds whatever WHERE sequence the sub-builder has when
    the callback returns. *)
Lemma inplace_whereGroup_captures (self : loc) (callback : loc -> M unit)
    (t t2 g : Table) (h h2 : list Table) (tr tr2 : list event) :
  h !! self = Some t ->
  let sub :=
    mkTable false AND
      (mkDML select_ (table (dml t)) (if engine t then EngineObject else NullName)
             ["*"] false [] [] [] [] None None VNull None) [] [] in
  callback (length h) (mkWorld (h ++ [sub]) tr) = Return tt (mkWorld h2 tr2) ->
  h2 !! self = Some t2 ->
  h2 !! length h = Some g ->
  dml_where (dml sub) = [] /\
  whereAfter (InPlace.whereGroup self callback) (mkWorld h tr)
  = Some (dml_where (dml t2) ++ [Group (nextType t2) (dml_where (dml g))]).
Proof.
  intros E sub Hcb E2 Eg. split; [reflexivity|].
  unfold whereAfter, InPlace.whereGroup.
  rewrite (bind_deref_at _ t) by assumption.
  unfold newTable. unfold bind at 1. cbn [alloc heap trace]. fold sub.
  rewrite (bind_Return _ _ _ _ _ Hcb).
  rewrite (bind_deref_at _ g) by assumption.
  rewrite (bind_modify_at _ _ t2) by assumption.
  cbn [ret heap]. now rewrite (lookup_written _ _ _ _ E2).
Qed.

(** ** Chain steps of [src/lib/Database.ts] return [this] *)

(** For every builder, [where] returns the builder it was called on, whose
    descriptor now holds the new node. *)
Lemma inplace_where_returns_this w B t column operator val :
  heap w !! B = Some t ->
  exists w',
    InPlace.where_ B column operator val w = Return B w' /\
    option_map dml_where (descriptorAt B w')
    = Some (dml_where (dml t) ++ [Leaf column operator val (nextType t)]).
Proof.
  intros E. eexists. split.
  - apply (inplace_step B _ t w E).
  - unfold descriptorAt. cbn [heap]. now rewrite (lookup_written _ _ _ _ E).
Qed.

(** ** Branches derived from one base builder *)

(** C1 on [src/lib/Database.ts].  [B] holds the node [id = 1].  After
    [B.where("age", ">", 18).get()] and [B.where("name", "=", "Alice").get()]
    the descriptor of [B] holds three nodes, and the request of the second
    [get] carries the condition on [age] of the first branch. *)
Theorem inplace_branches_share_the_descriptor :
  let x := Leaf "age" ">" (VNum 18) AND in
  let y := Leaf "name" "=" (VStr "Alice") AND in
  let base := Leaf "id" "=" (VNum 1) AND in
  let after := world_of (twoBranches_inPlace quietEnv 0%nat oneWhereWorld) in
  option_map dml_where (descriptorAt 0%nat oneWhereWorld) = Some [base] /\
  option_map dml_where (descriptorAt 0%nat after) = Some [base; x; y] /\
  map dml_where (requestsOf (twoBranches_inPlace quietEnv 0%nat) oneWhereWorld)
  = [[base; x]; [base; x; y]].
Proof. repeat split. Qed.

(** The second copy of the builder on the same program: [B] keeps its one
    node and each request carries the node of its own branch only. *)
Lemma cloning_branches_keep_the_base :
  let x := Leaf "age" ">" (VNum 18) AND in
  let y := Leaf "name" "=" (VStr "Alice") AND in
  let base := Leaf "id" "=" (VNum 1) AND in
  let after := world_of (twoBranches_cloning quietEnv 0%nat oneWhereWorld) in
  option_map dml_where (descriptorAt 0%nat after) = Some [base] /\
  map dml_where (requestsOf (twoBranches_cloning quietEnv 0%nat) oneWhereWorld)
  = [[base; x]; [base; y]].
Proof. split; reflexivity. Qed.

(** ** The orchestrator without triggers *)

Lemma dispatch_noTrigger env t localDML ph :
  noTrigger t ph -> dispatch env t localDML ph = dispatchWhole env t localDML.
Proof.
  destruct ph as [p|]; [|reflexivity].
  intros [Hb Ha]. unfold dispatch. rewrite Hb, Ha. cbn.
  now rewrite andb_false_r.
Qed.

Lemma dispatchWhole_at env t localDML h tr :
  engine t = true ->
  dispatchWhole env t localDML (mkWorld h tr)
  = ((if negb (Z.eqb (status (run env tr localDML)) 200)
      then returnFormattedError (status (run env tr localDML))
                                (message (run env tr localDML))
      else ret tt);;
     ret (resp_data (run env tr localDML)))
      (mkWorld h (tr ++ [EngineRun localDML])).
Proof.
  intros He. unfold dispatchWhole, engine_run. rewrite He. reflexivity.
Qed.

Lemma getResponse_whole env self arg ph t h tr :
  h !! self = Some t ->
  engine t = true ->
  noTrigger t ph ->
  let localDML := match arg with ThisDml => dml t | FreshDml d => d end in
  let request := rewritten env t localDML in
  getResponse env self arg ph (mkWorld h tr)
  = finish env (run env tr request) (neededFor env t localDML) (depsFor env t localDML)
      (mkWorld (match arg with
                | ThisDml => <[self := set_dml request t]> h
                | FreshDml _ => h
                end)
               (tr ++ [EngineRun request])).
Proof.
  intros E He Hn localDML request.
  unfold getResponse.
  rewrite (bind_Return _ _ _ _ _ (deref_at self t (mkWorld h tr) E)).
  fold localDML.
  unfold request, rewritten, neededFor, depsFor.
  destruct (rewriteColumns env (computedFields t) (columns localDML))
    as [[cols needed] deps]. cbn [fst snd].
  rewrite (dispatch_noTrigger _ _ _ _ Hn).
  destruct arg; unfold bind at 1; cbn [assign ret heap trace];
    unfold bind at 1; rewrite (dispatchWhole_at _ _ _ _ _ He);
    unfold finish, bind;
    destruct (negb (Z.eqb (status (run env tr (set_columns cols localDML))) 200));
    cbn; try reflexivity;
    destruct (returnFormattedError _ _ _); reflexivity.
Qed.

(** [finish] keeps the store and adds no request: at most the printed
    error. *)
Lemma finish_world env response needed deps h tr :
  exists errs,
    world_of (finish env response needed deps (mkWorld h tr)) = mkWorld h (tr ++ errs) /\
    requests errs = [].
Proof.
  unfold finish, bind, returnFormattedError, postProcess.
  destruct (negb (Z.eqb (status response) 200)).
  - destruct (message response) as [m|].
    + exists [ErrorPrinted (status response) m]. split; [|reflexivity].
      cbn. destruct needed; [reflexivity|].
      now destruct (computedFieldsOf env (resp_data response) (c :: needed)).
    + exists []. rewrite app_nil_r. now split.
  - exists []. rewrite app_nil_r. split; [|reflexivity].
    cbn. destruct needed; [reflexivity|].
    now destruct (computedFieldsOf env (resp_data response) (c :: needed)).
Qed.

Lemma finish_success env response needed deps w :
  status response = 200 ->
  finish env response needed deps w = postProcess env needed deps (resp_data response) w.
Proof. intros E. unfold finish, bind. rewrite E. reflexivity. Qed.

Lemma world_bind_quiet {A B} (m : M A) (k : A -> M B) w :
  (forall a w', world_of (k a w') = w') ->
  world_of (bind m k w) = world_of (m w).
Proof.
  intros Q. unfold bind. destruct (m w) as [a w'|e w']; [apply Q | reflexivity].
Qed.

Lemma firstOrNull_quiet result w : world_of (firstOrNull result w) = w.
Proof. now destruct result. Qed.

Lemma requests_app tr1 tr2 : requests (tr1 ++ tr2) = requests tr1 ++ requests tr2.
Proof. unfold requests. apply omap_app. Qed.

Lemma requests_sent tr request errs :
  requests errs = [] ->
  requests (drop (length tr) ((tr ++ [EngineRun request]) ++ errs)) = [request].
Proof.
  intros E. rewrite <- app_assoc, drop_app_length, requests_app, E.
  reflexivity.
Qed.

(** One orchestrator call without triggers: exactly one request, the
    rewritten descriptor. *)
Lemma getResponse_world env self arg ph t h tr :
  h !! self = Some t ->
  engine t = true ->
  noTrigger t ph ->
  let localDML := match arg with ThisDml => dml t | FreshDml d => d end in
  let request := rewritten env t localDML in
  exists errs,
    world_of (getResponse env self arg ph (mkWorld h tr))
    = mkWorld (match arg with
               | ThisDml => <[self := set_dml request t]> h
               | FreshDml _ => h
               end)
              ((tr ++ [EngineRun request]) ++ errs) /\
    requests errs = [].
Proof.
  intros E He Hn localDML request.
  rewrite (getResponse_whole _ _ _ _ _ _ _ E He Hn).
  apply finish_world.
Qed.



(** ** Branch isolation in the clone-on-write form *)

Lemma dml_where_rewritten env t d : dml_where (rewritten env t d) = dml_where d.
Proof. reflexivity. Qed.

(** A branch leaves the base builder as it was, and its request carries the
    nodes of the base followed by its own node and nothing else. *)
Lemma cloning_branch env w B t column operator val :
  heap w !! B = Some t ->
  engine t = true ->
  heap (world_of (branch_cloning env B column operator val w)) !! B = Some t /\
  map dml_where (requestsOf (branch_cloning env B column operator val) w)
  = [dml_where (dml t) ++ [Leaf column operator val (nextType t)]].
Proof.
  intros E He. destruct w as [h tr]. cbn [heap] in E.
  set (t1 := set_nextType AND (pushWhere (Leaf column operator val (nextType t)) t)).
  set (t2 := map_dml (fun d => set_data VNull (set_type select_ d)) t1).
  assert (Hrun : branch_cloning env B column operator val (mkWorld h tr)
                 = getResponse env (length (h ++ [t1])) ThisDml None
                     (mkWorld ((h ++ [t1]) ++ [t2]) tr)).
  { unfold branch_cloning.
    erewrite bind_Return
      by (unfold CloneOnWrite.where_; apply clone_step; exact E).
    cbn [heap trace]. fold t1. unfold CloneOnWrite.get.
    now rewrite (bind_clone_modify_at _ _ t1) by apply lookup_fresh. }
  unfold requestsOf. rewrite Hrun.
  destruct (getResponse_world env (length (h ++ [t1])) ThisDml None t2
              ((h ++ [t1]) ++ [t2]) tr (lookup_fresh _ _) He I)
    as (errs & -> & Hq).
  cbn [heap trace]. split.
  - rewrite lookup_other.
    + now apply lookup_kept, lookup_kept.
    + rewrite length_app. apply lookup_lt_Some in E. cbn. lia.
  - now rewrite requests_sent.
Qed.

(** The clone-on-write form meets C1: after a first branch has been derived
    and run, the base builder is unchanged, and the request of a second
    branch holds the base's nodes and the second condition only. *)
Lemma cloning_branches_are_isolated env w B t cx ox vx cy oy vy :
  heap w !! B = Some t ->
  engine t = true ->
  let w1 := world_of (branch_cloning env B cx ox vx w) in
  descriptorAt B w1 = Some (dml t) /\
  descriptorAt B (world_of (branch_cloning env B cy oy vy w1)) = Some (dml t) /\
  map dml_where (requestsOf (branch_cloning env B cy oy vy) w1)
  = [dml_where (dml t) ++ [Leaf cy oy vy (nextType t)]].
Proof.
  intros E He w1.
  destruct (cloning_branch env w B t cx ox vx E He) as [E1 _]. fold w1 in E1.
  destruct (cloning_branch env w1 B t cy oy vy E1 He) as [E2 Hr].
  unfold descriptorAt. now rewrite E1, E2.
Qed.

(** ** Terminal calls that end in one orchestrator call *)

Lemma requestsOf_via {A} env (m : M A) self arg ph t' h' w :
  world_of (m w) = world_of (getResponse env self arg ph (mkWorld h' (trace w))) ->
  h' !! self = Some t' ->
  engine t' = true ->
  noTrigger t' ph ->
  requestsOf m w
  = [rewritten env t' (match arg with ThisDml => dml t' | FreshDml d => d end)].
Proof.
  intros Hw E He Hn. unfold requestsOf. rewrite Hw.
  destruct (getResponse_world env self arg ph t' h' (trace w) E He Hn)
    as (errs & -> & Hq).
  cbn [trace]. now apply requests_sent.
Qed.

Section OneCall.

Context (env : Collaborators) (self : loc) (t : Table) (w : World).
Hypothesis at_self : heap w !! self = Some t.
Hypothesis has_engine : engine t = true.

Lemma inplace_get_requests :
  requestsOf (InPlace.get env self) w
  = [rewritten env (map_dml asSelect t) (asSelect (dml t))].
Proof.
  destruct w as [h tr]. cbn [heap] in at_self.
  apply (requestsOf_via env _ self ThisDml None (map_dml asSelect t)
           (<[self := map_dml asSelect t]> h));
    [|now apply (lookup_written _ _ t)|assumption|exact I].
  unfold InPlace.get. now rewrite (bind_modify_at _ _ t) by assumption.
Qed.

Lemma cloning_get_requests :
  requestsOf (CloneOnWrite.get env self) w
  = [rewritten env (map_dml asSelect t) (asSelect (dml t))].
Proof.
  destruct w as [h tr]. cbn [heap] in at_self.
  apply (requestsOf_via env _ (length h) ThisDml None (map_dml asSelect t)
           (h ++ [map_dml asSelect t]));
    [|apply lookup_fresh|assumption|exact I].
  unfold CloneOnWrite.get. now rewrite (bind_clone_modify_at _ _ t) by assumption.
Qed.

Lemma inplace_first_requests :
  requestsOf (InPlace.first env self) w
  = [rewritten env (map_dml asFirst t) (asFirst (dml t))].
Proof.
  destruct w as [h tr]. cbn [heap] in at_self.
  apply (requestsOf_via env _ self ThisDml None (map_dml asFirst t)
           (<[self := map_dml asFirst t]> h));
    [|now apply (lookup_written _ _ t)|assumption|exact I].
  unfold InPlace.first. rewrite (bind_modify_at _ _ t) by assumption.
  apply world_bind_quiet, firstOrNull_quiet.
Qed.

Lemma cloning_first_requests :
  requestsOf (CloneOnWrite.first env self) w
  = [rewritten env (map_dml asFirst t) (asFirst (dml t))].
Proof.
  destruct w as [h tr]. cbn [heap] in at_self.
  apply (requestsOf_via env _ (length h) ThisDml None (map_dml asFirst t)
           (h ++ [map_dml asFirst t]));
    [|apply lookup_fresh|assumption|exact I].
  unfold CloneOnWrite.first. rewrite (bind_clone_modify_at _ _ t) by assumption.
  apply world_bind_quiet, firstOrNull_quiet.
Qed.
End OneCall.

Section OneCallMore.

Context (env : Collaborators) (self : loc) (t : Table) (w : World).
Hypothesis at_self : heap w !! self = Some t.
Hypothesis has_engine : engine t = true.



Lemma cloning_aggregate_requests a column :
  let d := set_limit (Some 1) (set_data VNull (setAggregate a column (dml t))) in
  requestsOf (CloneOnWrite.aggregate env a self column) w
  = [rewritten env (set_dml d t) d].
Proof.
  intros d. destruct w as [h tr]. cbn [heap] in at_self.
  apply (requestsOf_via env _ (length h) ThisDml None (set_dml d t)
           (h ++ [set_dml d t]));
    [|apply lookup_fresh|assumption|exact I].
  unfold CloneOnWrite.aggregate.
  rewrite (bind_clone_modify_at _ _ t) by assumption.
  apply world_bind_quiet. intros result w'.
  now destruct result as [[|row rows]|].
Qed.
End OneCallMore.

(** ** Mutations without a registered trigger *)

Section Mutations.

Context (env : Collaborators) (self : loc) (t : Table) (w : World).
Hypothesis at_self : heap w !! self = Some t.
Hypothesis has_engine : engine t = true.





End Mutations.

Lemma getResponse_success env self arg ph t h tr :
  h !! self = Some t ->
  engine t = true ->
  noTrigger t ph ->
  let localDML := match arg with ThisDml => dml t | FreshDml d => d end in
  let request := rewritten env t localDML in
  status (run env tr request) = 200 ->
  neededFor env t localDML = [] ->
  getResponse env self arg ph (mkWorld h tr)
  = Return (resp_data (run env tr request))
      (mkWorld (match arg with
                | ThisDml => <[self := set_dml request t]> h
                | FreshDml _ => h
                end)
               (tr ++ [EngineRun request])).
Proof.
  intros E He Hn localDML request Hs Hc.
  rewrite (getResponse_whole _ _ _ _ _ _ _ E He Hn).
  fold localDML. fold request.
  rewrite (finish_success _ _ _ _ _ Hs), Hc. reflexivity.
Qed.



(** ** One request per orchestrator call *)




(** ** [first] *)

Lemma postProcess_empty env needed deps w :
  (forall n, computedFieldsOf env (Some []) n = Some []) ->
  postProcess env needed deps (Some []) w = Return (Some []) w.
Proof.
  intros Hc. unfold postProcess. destruct needed as [|cf needed]; [reflexivity|].
  now rewrite Hc.
Qed.

Lemma getResponse_empty env self t h tr :
  h !! self = Some t ->
  engine t = true ->
  (forall n, computedFieldsOf env (Some []) n = Some []) ->
  let request := rewritten env t (dml t) in
  status (run env tr request) = 200 ->
  resp_data (run env tr request) = Some [] ->
  getResponse env self ThisDml None (mkWorld h tr)
  = Return (Some [])
      (mkWorld (<[self := set_dml request t]> h) (tr ++ [EngineRun request])).
Proof.
  intros E He Hc request Hs Hd.
  rewrite (getResponse_whole env self ThisDml None t h tr E He I).
  fold request. rewrite (finish_success _ _ _ _ _ Hs), Hd.
  now apply postProcess_empty.
Qed.

(** C10. [first] sends one request whose [limit] is 1, whatever limit the
    builder held, and whose [data] is [null]; when the engine answers with
    success and an empty row set the call returns [null].  Both forms of the
    builder agree.  The builder is one bound to an engine, and the computed
    field processor is taken to map an empty row set to an empty row set. *)
Theorem first_sends_limit_one_and_yields_null
    (env : Collaborators) (w : World) (self : loc) (t : Table) :
  heap w !! self = Some t ->
  engine t = true ->
  exists request,
    limit request = Some 1 /\
    data request = VNull /\
    requestsOf (InPlace.first env self) w = [request] /\
    requestsOf (CloneOnWrite.first env self) w = [request] /\
    ((forall needed, computedFieldsOf env (Some []) needed = Some []) ->
     status (run env (trace w) request) = 200 ->
     resp_data (run env (trace w) request) = Some [] ->
     returns (InPlace.first env self) w = Some None /\
     returns (CloneOnWrite.first env self) w = Some None).
Proof.
  intros E He.
  set (asFirst := fun d : DML =>
         set_limit (Some 1) (set_data VNull (set_type select_ d))).
  exists (rewritten env (map_dml asFirst t) (asFirst (dml t))).
  split; [reflexivity|]. split; [reflexivity|].
  split; [now apply inplace_first_requests|].
  split; [now apply cloning_first_requests|].
  intros Hc Hs Hd. destruct w as [h tr]. cbn [heap trace] in *.
  unfold returns, InPlace.first, CloneOnWrite.first. split.
  - rewrite (bind_modify_at _ _ t) by assumption.
    erewrite bind_Return;
      [|apply (getResponse_empty env self (map_dml asFirst t));
        [eapply lookup_written, E|exact He|exact Hc|exact Hs|exact Hd]].
    reflexivity.
  - rewrite (bind_clone_modify_at _ _ t) by assumption.
    erewrite bind_Return;
      [|apply (getResponse_empty env (length h) (map_dml asFirst t));
        [apply lookup_fresh|exact He|exact Hc|exact Hs|exact Hd]].
    reflexivity.
Qed.

Lemma first_sends_limit_one_and_yields_null_witness :
  exists request,
    limit request = Some 1 /\
    data request = VNull /\
    requestsOf (InPlace.first quietEnv 0%nat) oneWhereWorld = [request] /\
    requestsOf (CloneOnWrite.first quietEnv 0%nat) oneWhereWorld = [request] /\
    ((forall needed, computedFieldsOf quietEnv (Some []) needed = Some []) ->
     status (run quietEnv (trace oneWhereWorld) request) = 200 ->
     resp_data (run quietEnv (trace oneWhereWorld) request) = Some [] ->
     returns (InPlace.first quietEnv 0%nat) oneWhereWorld = Some None /\
     returns (CloneOnWrite.first quietEnv 0%nat) oneWhereWorld = Some None).
Proof.
  apply (first_sends_limit_one_and_yields_null quietEnv oneWhereWorld 0%nat oneWhere);
    reflexivity.
Defined.

(** ** Columns without computed fields *)

Lemma rewriteStep_plain env cfs st field :
  isComputed cfs field = false -> rewriteStep env cfs st field = st.
Proof.
  unfold isComputed, rewriteStep. destruct st as [[cols needed] deps].
  now destruct (find _ cfs).
Qed.

Lemma rewriteFold_plain env cfs fields st :
  Forall (fun field => isComputed cfs field = false) fields ->
  fold_left (rewriteStep env cfs) fields st = st.
Proof.
  intros Hf. revert st. induction Hf as [|field fields Hc _ IH]; intros st.
  - reflexivity.
  - cbn. rewrite (rewriteStep_plain _ _ _ _ Hc). apply IH.
Qed.

Lemma rewriteColumns_plain env cfs cols :
  Forall (fun field => isComputed cfs field = false) cols ->
  rewriteColumns env cfs cols = (cols, [], []).
Proof.
  intros Hf. unfold rewriteColumns. destruct cfs; [reflexivity|].
  now apply rewriteFold_plain.
Qed.

(** ** The aggregate shortcuts *)

Lemma aggregate_expressions :
  aggExpr COUNT "*" = "COUNT(*) AS count" /\
  aggExpr SUM "age" = "SUM(age) AS sum" /\
  aggExpr AVG "age" = "AVG(age) AS avg" /\
  aggExpr MAX "age" = "MAX(age) AS max" /\
  aggExpr MIN "age" = "MIN(age) AS min".
Proof. repeat split. Qed.

(** C8, as the code has it.  In [src/lib/Database.ts] an aggregate shortcut is
    a chain step: it stores the aggregation and the one aggregate expression
    on the builder and leaves [limit] as it was.  In the second copy it is
    terminal: on a clone it stores the same two fields and [limit = 1], sends
    one request, and returns the number 0 when the engine answers with
    success and no row. *)
Theorem aggregate_shortcuts
    (env : Collaborators) (w : World) (self : loc) (t : Table)
    (a : AggType) (column : string) :
  heap w !! self = Some t ->
  engine t = true ->
  let agg := Some (mkAggregation a column (aggAlias a)) in
  let expr := aggExpr a column in
  (exists w' d,
     InPlace.aggregate a self column w = Return self w' /\
     descriptorAt self w' = Some d /\
     aggregation d = agg /\ columns d = [expr] /\ limit d = limit (dml t)) /\
  (exists request,
     requestsOf (CloneOnWrite.aggregate env a self column) w = [request] /\
     aggregation request = agg /\
     limit request = Some 1 /\
     (isComputed (computedFields t) expr = false -> columns request = [expr]) /\
     ((forall needed, computedFieldsOf env (Some []) needed = Some []) ->
      status (run env (trace w) request) = 200 ->
      resp_data (run env (trace w) request) = Some [] ->
      returns (CloneOnWrite.aggregate env a self column) w = Some (VNum 0))).
Proof.
  intros E He agg expr. split.
  - destruct w as [h tr]. cbn [heap] in E.
    eexists. eexists. split.
    + unfold InPlace.aggregate. apply (inplace_step _ _ t). exact E.
    + unfold descriptorAt. cbn [heap].
      rewrite (lookup_written _ _ _ _ E). now repeat split.
  - set (d := set_limit (Some 1) (set_data VNull (setAggregate a column (dml t)))).
    exists (rewritten env (set_dml d t) d).
    split; [now apply cloning_aggregate_requests|].
    split; [reflexivity|]. split; [reflexivity|]. split.
    + intros Hc. unfold rewritten. cbn [computedFields set_dml columns d
        set_limit set_data setAggregate set_columns].
      rewrite rewriteColumns_plain by (constructor; [exact Hc|constructor]).
      reflexivity.
    + intros Hc Hs Hd. destruct w as [h tr]. cbn [heap trace] in *.
      unfold returns, CloneOnWrite.aggregate.
      rewrite (bind_clone_modify_at _ _ t) by assumption.
      erewrite bind_Return;
        [|apply (getResponse_empty env (length h) (set_dml d t));
          [apply lookup_fresh|exact He|exact Hc|exact Hs|exact Hd]].
      reflexivity.
Qed.

Lemma aggregate_shortcuts_witness :
  (exists w' d,
     InPlace.count 0%nat "*" oneWhereWorld = Return 0%nat w' /\
     descriptorAt 0%nat w' = Some d /\
     aggregation d = Some (mkAggregation COUNT "*" "count") /\
     columns d = ["COUNT(*) AS count"] /\ limit d = None) /\
  (exists request,
     requestsOf (CloneOnWrite.count quietEnv 0%nat "*") oneWhereWorld = [request] /\
     aggregation request = Some (mkAggregation COUNT "*" "count") /\
     limit request = Some 1 /\
     (isComputed [] "COUNT(*) AS count" = false ->
      columns request = ["COUNT(*) AS count"]) /\
     ((forall needed, computedFieldsOf quietEnv (Some []) needed = Some []) ->
      status (run quietEnv [] request) = 200 ->
      resp_data (run quietEnv [] request) = Some [] ->
      returns (CloneOnWrite.count quietEnv 0%nat "*") oneWhereWorld = Some (VNum 0))).
Proof.
  apply (aggregate_shortcuts quietEnv oneWhereWorld 0%nat oneWhere COUNT "*");
    reflexivity.
Defined.

(** C8 as stated does not hold of [src/lib/Database.ts]: [count] leaves the
    limit the builder had, and what [count().first()] returns for an empty
    row set is [null], not 0. *)
Lemma inplace_count_keeps_limit :
  option_map limit
    (descriptorAt 0%nat (world_of (limitThenCount_inPlace 0%nat oneWhereWorld)))
  = Some (Some 5) /\
  returns (countThenFirst_inPlace quietEnv 0%nat) oneWhereWorld = Some None.
Proof. split; reflexivity. Qed.

(** ** Rewriting columns that name computed fields *)

Lemma differs_spec (y x : string) : Is_true (negb (String.eqb y x)) <-> y <> x.
Proof.
  destruct (String.eqb_spec y x) as [->|Hne]; cbn; split; intros H; try done.
Qed.

Lemma elem_of_uniq (x : string) (l : list string) : x ∈ uniq l <-> x ∈ l.
Proof.
  induction l as [|a l IH]; [reflexivity|].
  cbn [uniq]. rewrite !elem_of_cons, list_elem_of_filter, differs_spec, IH.
  destruct (decide (x = a)); tauto.
Qed.

Lemma NoDup_uniq (l : list string) : NoDup (uniq l).
Proof.
  induction l as [|a l IH]; [constructor|].
  cbn [uniq]. constructor.
  - rewrite list_elem_of_filter, differs_spec. tauto.
  - now apply NoDup_filter.
Qed.

Lemma isComputed_find cfs field :
  isComputed cfs field = true <->
  exists cf, find (fun cf => String.eqb (cf_column cf) field) cfs = Some cf.
Proof.
  unfold isComputed. destruct (find _ cfs) as [cf|]; cbn; split.
  - eauto.
  - reflexivity.
  - discriminate.
  - now intros [cf Hcf].
Qed.

Lemma find_elem_of cfs field cf :
  find (fun cf => String.eqb (cf_column cf) field) cfs = Some cf -> cf ∈ cfs.
Proof. intros H. apply find_some in H as [H _]. now apply list_elem_of_In. Qed.

(** Dependencies accumulate in field order. *)
Lemma rewriteFold_deps env cfs fields cols needed deps :
  snd (fold_left (rewriteStep env cfs) fields (cols, needed, deps))
  = deps ++ fieldDeps env cfs fields.
Proof.
  revert cols needed deps.
  induction fields as [|f fs IH]; intros cols needed deps.
  - cbn. now rewrite app_nil_r.
  - cbn [fold_left]. unfold rewriteStep at 2, fieldDeps, depsOfField. cbn [map concat].
    destruct (find _ cfs) as [cf|].
    + rewrite IH. unfold fieldDeps, depsOfField. now rewrite app_assoc.
    + rewrite IH. reflexivity.
Qed.

(** The computed fields found, in field order: none when no field is
    computed. *)
Lemma rewriteFold_needed_nonempty env cfs fields cols needed deps :
  Exists (fun f => isComputed cfs f = true) fields ->
  snd (fst (fold_left (rewriteStep env cfs) fields (cols, needed, deps))) <> [].
Proof.
  assert (Hgrow : forall fs c n d,
             n <> [] ->
             snd (fst (fold_left (rewriteStep env cfs) fs (c, n, d))) <> []).
  { induction fs as [|f fs IH]; intros c n d Hn; [exact Hn|].
    cbn [fold_left]. unfold rewriteStep at 2.
    destruct (find _ cfs) as [cf|]; apply IH; [|exact Hn].
    now destruct n. }
  intros Hex. revert cols needed deps.
  induction Hex as [f fs Hf|f fs _ IH]; intros cols needed deps.
  - cbn [fold_left]. unfold rewriteStep at 2.
    apply isComputed_find in Hf as [cf ->]. apply Hgrow. now destruct needed.
  - cbn [fold_left]. unfold rewriteStep at 2.
    destruct (find _ cfs) as [cf|]; apply IH.
Qed.

(** Which columns the request holds. *)
Lemma rewriteFold_columns env cfs fields cols needed deps x :
  realDependencies env cfs ->
  x ∈ fst (fst (fold_left (rewriteStep env cfs) fields (cols, needed, deps))) <->
  (x ∈ cols /\ ~ (x ∈ fields /\ isComputed cfs x = true)) \/
  x ∈ fieldDeps env cfs fields.
Proof.
  intros Hreal. revert cols needed deps.
  induction fields as [|f fs IH]; intros cols needed deps.
  - cbn. rewrite elem_of_nil. split; [intros H; left; split; [exact H|]|]; tauto.
  - cbn [fold_left]. unfold rewriteStep at 2, fieldDeps, depsOfField.
    cbn [map concat].
    destruct (find _ cfs) as [cf|] eqn:Ef.
    + rewrite IH. fold (depsOfField env cfs). fold (fieldDeps env cfs fs).
      rewrite list_elem_of_filter, differs_spec, elem_of_uniq, !elem_of_app.
      rewrite elem_of_cons.
      assert (Hf : isComputed cfs f = true) by (apply isComputed_find; eauto).
      assert (Hd : x ∈ extractDependencies env (instruction cf) ->
                   isComputed cfs x = false)
        by (apply Hreal; eapply find_elem_of, Ef).
      split.
      * intros [[[Hne [Hc|Hx]] Hn]|Hr]; [left|right; now left|right; now right].
        split; [exact Hc|]. intros [[->|Hfs] Hcx]; [now apply Hne|].
        apply Hn. now split.
      * intros [[Hc Hn]|[Hx|Hr]]; [left|left|now right].
        -- split; [split; [|now left]|].
           ++ intros ->. apply Hn. split; [now left|exact Hf].
           ++ intros [Hfs Hcx]. apply Hn. split; [now right|exact Hcx].
        -- specialize (Hd Hx). split; [split; [|now right]|].
           ++ intros ->. congruence.
           ++ intros [_ Hcx]. congruence.
    + rewrite IH. cbn [app]. fold (depsOfField env cfs). fold (fieldDeps env cfs fs).
      assert (Hf : isComputed cfs f = false) by (unfold isComputed; now rewrite Ef).
      rewrite elem_of_cons. split.
      * intros [[Hc Hn]|Hr]; [left|now right].
        split; [exact Hc|]. intros [[->|Hfs] Hcx]; [congruence|].
        apply Hn. now split.
      * intros [[Hc Hn]|Hr]; [left|now right].
        split; [exact Hc|]. intros [Hfs Hcx]. apply Hn. split; [now right|exact Hcx].
Qed.

(** Once a computed field has been met the columns hold no duplicate. *)
Lemma rewriteFold_NoDup env cfs fields cols needed deps :
  NoDup cols \/ Exists (fun f => isComputed cfs f = true) fields ->
  NoDup (fst (fst (fold_left (rewriteStep env cfs) fields (cols, needed, deps)))).
Proof.
  revert cols needed deps.
  induction fields as [|f fs IH]; intros cols needed deps Hc.
  - destruct Hc as [Hc|Hc]; [exact Hc|inversion Hc].
  - cbn [fold_left]. unfold rewriteStep at 2.
    destruct (find _ cfs) as [cf|] eqn:Ef.
    + apply IH. left. apply NoDup_filter, NoDup_uniq.
    + apply IH. destruct Hc as [Hc|Hc]; [now left|right].
      inversion Hc as [? ? Hf|]; subst; [|assumption].
      unfold isComputed in Hf. now rewrite Ef in Hf.
Qed.

(** ** Stripping the dependency columns *)

Lemma elem_of_deleteProps (kv : string * value) keys (o : DatabaseRecord) :
  kv ∈ deleteProps keys o <-> kv ∈ o /\ fst kv ∉ keys.
Proof.
  unfold deleteProps. revert o.
  induction keys as [|k ks IH]; intros o.
  - cbn. rewrite elem_of_nil. tauto.
  - cbn [fold_left]. rewrite IH. unfold deleteProp.
    rewrite list_elem_of_filter, differs_spec, elem_of_cons. tauto.
Qed.

Lemma keysOf_deleteProps k keys (o : DatabaseRecord) :
  k ∈ keysOf (deleteProps keys o) <-> k ∈ keysOf o /\ k ∉ keys.
Proof.
  unfold keysOf. rewrite !list_elem_of_fmap. split.
  - intros (kv & -> & Hkv). apply elem_of_deleteProps in Hkv as [Ho Hn].
    split; [now exists kv|exact Hn].
  - intros [(kv & -> & Hkv) Hn]. exists kv. split; [reflexivity|].
    now apply elem_of_deleteProps.
Qed.

Lemma getProp_deleteProp k k0 (o : DatabaseRecord) :
  k <> k0 -> getProp k (deleteProp k0 o) = getProp k o.
Proof.
  intros Hne. unfold deleteProp, DatabaseRecord in *.
  induction o as [|[k1 v1] o IH]; [reflexivity|].
  rewrite filter_cons. cbn [fst getProp].
  destruct (String.eqb_spec k1 k0) as [->|H10].
  - rewrite decide_False by (cbn; tauto).
    destruct (String.eqb_spec k0 k) as [->|_]; [contradiction|]. exact IH.
  - rewrite decide_True by exact I.
    cbn [getProp]. now rewrite IH.
Qed.

Lemma getProp_deleteProps k keys (o : DatabaseRecord) :
  k ∉ keys -> getProp k (deleteProps keys o) = getProp k o.
Proof.
  unfold deleteProps. revert o.
  induction keys as [|k0 ks IH]; intros o Hn; [reflexivity|].
  cbn [fold_left]. apply not_elem_of_cons in Hn as [Hne Hn].
  rewrite IH by exact Hn. now apply getProp_deleteProp.
Qed.

Lemma postProcess_computed env needed deps response_data rows w :
  needed <> [] ->
  computedFieldsOf env response_data needed = Some rows ->
  postProcess env needed deps response_data w
  = Return (Some (map (deleteProps deps) rows)) w.
Proof.
  intros Hn Hc. unfold postProcess. destruct needed; [contradiction|].
  now rewrite Hc.
Qed.

Lemma requestsOf_after {A B} (m : M A) (k : A -> M B) w a w1 :
  m w = Return a w1 ->
  trace w1 = trace w ->
  requestsOf (bind m k) w = requestsOf (k a) w1.
Proof.
  intros Hm Ht. unfold requestsOf. rewrite (bind_Return _ _ _ _ _ Hm).
  now rewrite Ht.
Qed.

Lemma returns_after {A B} (m : M A) (k : A -> M B) w a w1 :
  m w = Return a w1 -> returns (bind m k) w = returns (k a) w1.
Proof. intros Hm. unfold returns. now rewrite (bind_Return _ _ _ _ _ Hm). Qed.

(** What [get] returns once the engine has answered with success. *)
Lemma inplace_get_success env self t h tr :
  h !! self = Some t ->
  engine t = true ->
  let t' := map_dml (fun d => set_data VNull (set_type select_ d)) t in
  let response := run env tr (rewritten env t' (dml t')) in
  status response = 200 ->
  returns (InPlace.get env self) (mkWorld h tr)
  = returns (postProcess env (neededFor env t' (dml t')) (depsFor env t' (dml t'))
                         (resp_data response))
            (mkWorld (<[self := set_dml (rewritten env t' (dml t')) t']>
                        (<[self := t']> h))
                     (tr ++ [EngineRun (rewritten env t' (dml t'))])).
Proof.
  intros E He t' response Hs. unfold returns, InPlace.get.
  rewrite (bind_modify_at _ _ t) by assumption.
  change (map_dml (fun d => set_data VNull (set_type select_ d)) t) with t'.
  rewrite (getResponse_whole env self ThisDml None t' (<[self := t']> h) tr
             (lookup_written _ _ _ _ E) He I).
  now rewrite (finish_success _ _ _ _ _ Hs).
Qed.

Lemma cloning_get_success env self t h tr :
  h !! self = Some t ->
  engine t = true ->
  let t' := map_dml (fun d => set_data VNull (set_type select_ d)) t in
  let response := run env tr (rewritten env t' (dml t')) in
  status response = 200 ->
  returns (CloneOnWrite.get env self) (mkWorld h tr)
  = returns (postProcess env (neededFor env t' (dml t')) (depsFor env t' (dml t'))
                         (resp_data response))
            (mkWorld (<[length h := set_dml (rewritten env t' (dml t')) t']>
                        (h ++ [t']))
                     (tr ++ [EngineRun (rewritten env t' (dml t'))])).
Proof.
  intros E He t' response Hs. unfold returns, CloneOnWrite.get.
  rewrite (bind_clone_modify_at _ _ t) by assumption.
  change (map_dml (fun d => set_data VNull (set_type select_ d)) t) with t'.
  rewrite (getResponse_whole env (length h) ThisDml None t' (h ++ [t']) tr
             (lookup_fresh _ _) He I).
  now rewrite (finish_success _ _ _ _ _ Hs).
Qed.

(** ** [select] followed by [get] *)

Lemma rewriteColumns_computed env cfs cols :
  Exists (fun f => isComputed cfs f = true) cols ->
  rewriteColumns env cfs cols = fold_left (rewriteStep env cfs) cols (cols, [], []).
Proof.
  intros Hex. unfold rewriteColumns. destruct cfs; [|reflexivity].
  apply Exists_exists in Hex as (f & _ & Hf). discriminate.
Qed.

(** X26.  [select(fields).get()] sends one request.  Its columns are the
    selected ones ([fields], or ["*"] for an empty [fields]) when none names
    a computed field.  Otherwise they hold, without duplicates, the selected
    columns that are not computed and the dependencies of those that are,
    and on success every row the computed field processor returns loses
    every dependency column, whether the caller selected it or not, and
    keeps the value of every column that is not a dependency.  Dependencies
    are taken to be real columns. *)
Theorem select_get_rewrites_computed_columns
    (env : Collaborators) (w : World) (self : loc) (t : Table) (fields : list string) :
  heap w !! self = Some t ->
  engine t = true ->
  realDependencies env (computedFields t) ->
  let cfs := computedFields t in
  let C := selected fields in
  let deps := fieldDeps env cfs C in
  let needed := snd (fst (rewriteColumns env cfs C)) in
  exists request,
    requestsOf (selectGet_inPlace env self fields) w = [request] /\
    requestsOf (selectGet_cloning env self fields) w = [request] /\
    (Forall (fun f => isComputed cfs f = false) C -> columns request = C) /\
    (Exists (fun f => isComputed cfs f = true) C ->
     NoDup (columns request) /\
     (forall x,
        x ∈ columns request <-> (x ∈ C /\ isComputed cfs x = false) \/ x ∈ deps) /\
     (status (run env (trace w) request) = 200 ->
      forall rows,
        computedFieldsOf env (resp_data (run env (trace w) request)) needed
        = Some rows ->
        returns (selectGet_inPlace env self fields) w
        = Some (Some (map (deleteProps deps) rows)) /\
        returns (selectGet_cloning env self fields) w
        = Some (Some (map (deleteProps deps) rows)) /\
        forall row k,
          row ∈ rows ->
          (k ∈ deps -> k ∉ keysOf (deleteProps deps row)) /\
          (k ∉ deps -> getProp k (deleteProps deps row) = getProp k row))).
Proof.
  intros E He Hreal cfs C deps needed.
  destruct w as [h tr]. cbn [heap trace] in *.
  set (t1 := map_dml (fun d => set_columns C (set_type select_ d)) t).
  set (t2 := map_dml (fun d => set_data VNull (set_type select_ d)) t1).
  assert (Hsel : InPlace.select self fields (mkWorld h tr)
                 = Return self (mkWorld (<[self := t1]> h) tr))
    by (unfold InPlace.select;
        now rewrite (inplace_step self _ t (mkWorld h tr) E)).
  assert (Hclo : CloneOnWrite.select self fields (mkWorld h tr)
                 = Return (length h) (mkWorld (h ++ [t1]) tr))
    by (unfold CloneOnWrite.select;
        now rewrite (clone_step self _ t (mkWorld h tr) E)).
  assert (E1 : <[self := t1]> h !! self = Some t1) by (eapply lookup_written, E).
  exists (rewritten env t2 (dml t2)).
  split.
  { unfold selectGet_inPlace. rewrite (requestsOf_after _ _ _ _ _ Hsel eq_refl).
    now apply (inplace_get_requests env self t1). }
  split.
  { unfold selectGet_cloning. rewrite (requestsOf_after _ _ _ _ _ Hclo eq_refl).
    apply (cloning_get_requests env (length h) t1); [apply lookup_fresh|exact He]. }
  change (columns (rewritten env t2 (dml t2)))
    with (fst (fst (rewriteColumns env cfs C))).
  split.
  { intros Hf. now rewrite rewriteColumns_plain. }
  intros Hex. rewrite (rewriteColumns_computed _ _ _ Hex).
  split; [apply rewriteFold_NoDup; now right|].
  split.
  { intros x. rewrite (rewriteFold_columns env cfs C C [] [] x Hreal).
    fold deps. split.
    - intros [[Hc Hn]|Hd]; [left|now right]. split; [exact Hc|].
      destruct (isComputed cfs x); [exfalso; now apply Hn|reflexivity].
    - intros [[Hc Hn]|Hd]; [left|now right]. split; [exact Hc|].
      intros [_ Hx]. congruence. }
  intros Hs rows Hrows.
  assert (Hneeded : needed <> []).
  { unfold needed. rewrite (rewriteColumns_computed _ _ _ Hex).
    now apply rewriteFold_needed_nonempty. }
  assert (Hdeps : depsFor env t2 (dml t2) = deps).
  { unfold depsFor. change (computedFields t2) with cfs.
    change (columns (dml t2)) with C.
    rewrite (rewriteColumns_computed _ _ _ Hex). apply rewriteFold_deps. }
  split.
  { unfold selectGet_inPlace. rewrite (returns_after _ _ _ _ _ Hsel).
    rewrite (inplace_get_success env self t1 _ tr E1 He Hs). fold t2.
    rewrite Hdeps. unfold returns.
    now rewrite (postProcess_computed env needed deps _ rows _ Hneeded Hrows). }
  split.
  { unfold selectGet_cloning. rewrite (returns_after _ _ _ _ _ Hclo).
    rewrite (cloning_get_success env (length h) t1 _ tr (lookup_fresh _ _) He Hs).
    fold t2. rewrite Hdeps. unfold returns.
    now rewrite (postProcess_computed env needed deps _ rows _ Hneeded Hrows). }
  intros row k _. split.
  - intros Hk Habs. apply keysOf_deleteProps in Habs. tauto.
  - apply getProp_deleteProps.
Qed.

Lemma shop_dependencies_real : realDependencies shopEnv [total].
Proof.
  intros cf x _ Hx. cbn in Hx.
  apply elem_of_cons in Hx as [->|Hx]; [reflexivity|].
  apply elem_of_cons in Hx as [->|Hx]; [reflexivity|].
  now apply elem_of_nil in Hx.
Qed.

Lemma select_get_rewrites_computed_columns_witness :
  exists request,
    requestsOf (selectGet_inPlace shopEnv 0%nat ["name"; "total"]) itemsWorld
    = [request] /\
    requestsOf (selectGet_cloning shopEnv 0%nat ["name"; "total"]) itemsWorld
    = [request] /\
    NoDup (columns request) /\
    (forall x,
       x ∈ columns request <->
       (x ∈ ["name"; "total"] /\ isComputed [total] x = false) \/
       x ∈ ["price"; "qty"]).
Proof.
  destruct (select_get_rewrites_computed_columns shopEnv itemsWorld 0%nat itemsTable
              ["name"; "total"] eq_refl eq_refl shop_dependencies_real)
    as (request & Hi & Hc & _ & Hcomputed).
  exists request. split; [exact Hi|]. split; [exact Hc|].
  destruct Hcomputed as (Hn & Hx & _).
  - apply Exists_cons_tl, Exists_cons_hd. reflexivity.
  - split; [exact Hn|exact Hx].
Defined.

(** C4 on both forms.  [total] is computed from [price] and [qty], and the
    caller selects [price] and [total].  The request asks the engine for
    [price] and [qty]; the engine answers with the row [{price: 2, qty: 3}],
    to which the processor adds [total: 6]; the row that comes back holds
    [total] alone.  [price], which the caller selected, has been deleted
    with the dependencies. *)
Theorem select_get_deletes_a_selected_dependency :
  map columns (requestsOf (selectGet_inPlace shopEnv 0%nat ["price"; "total"]) itemsWorld)
  = [["price"; "qty"]] /\
  map columns (requestsOf (selectGet_cloning shopEnv 0%nat ["price"; "total"]) itemsWorld)
  = [["price"; "qty"]] /\
  returns (selectGet_inPlace shopEnv 0%nat ["price"; "total"]) itemsWorld
  = Some (Some [[("total", VNum 6)]]) /\
  returns (selectGet_cloning shopEnv 0%nat ["price"; "total"]) itemsWorld
  = Some (Some [[("total", VNum 6)]]).
Proof. repeat split. Qed.

(** ** Engine failures *)

(** C2 on both forms.  The engine answers 500 with a message.  [get] returns
    the absent [data] of the response instead of throwing.  [insert] of two
    rows on a table with a [beforeAdd] trigger returns its payload: for each
    row the interceptor is discarded and then committed, and the loop goes on
    to the second row. *)
Theorem engine_failure_returns_normally :
  returns (InPlace.get failingEnv 0%nat) oneWhereWorld = Some None /\
  returns (CloneOnWrite.get failingEnv 0%nat) oneWhereWorld = Some None /\
  kindsOf (InPlace.get failingEnv 0%nat) oneWhereWorld = [Sent; Printed] /\
  returns (InPlace.insert failingEnv 0%nat (VArr [alice; bob])) hookedInsertWorld
  = Some (VArr [alice; bob]) /\
  returns (CloneOnWrite.insert failingEnv 0%nat (VArr [alice; bob])) hookedInsertWorld
  = Some (VArr [alice; bob]) /\
  kindsOf (InPlace.insert failingEnv 0%nat (VArr [alice; bob])) hookedInsertWorld
  = [Hook; Sent; Discarded; Printed; Committed;
     Hook; Sent; Discarded; Printed; Committed] /\
  kindsOf (CloneOnWrite.insert failingEnv 0%nat (VArr [alice; bob])) hookedInsertWorld
  = [Hook; Sent; Discarded; Printed; Committed;
     Hook; Sent; Discarded; Printed; Committed].
Proof. repeat split. Qed.

(** ** A failed request, in general *)

Lemma finish_failure env response needed deps m h tr :
  status response <> 200 ->
  message response = Some m ->
  finish env response needed deps (mkWorld h tr)
  = postProcess env needed deps (resp_data response)
      (mkWorld h (tr ++ [ErrorPrinted (status response) m])).
Proof.
  intros Hs Hm. unfold finish, bind, returnFormattedError.
  apply Z.eqb_neq in Hs. rewrite Hs, Hm. reflexivity.
Qed.

(** Whatever the engine and the builder, when the answer to [get] has a
    status other than 200 and carries a message, and no computed field is
    among the columns, [get] returns the [data] of that answer: nothing is
    thrown. *)
Lemma get_returns_on_engine_failure env w self t m :
  heap w !! self = Some t ->
  engine t = true ->
  let t' := map_dml asSelect t in
  let response := run env (trace w) (rewritten env t' (dml t')) in
  status response <> 200 ->
  message response = Some m ->
  neededFor env t' (dml t') = [] ->
  returns (InPlace.get env self) w = Some (resp_data response) /\
  returns (CloneOnWrite.get env self) w = Some (resp_data response).
Proof.
  intros E He t' response Hs Hm Hn. destruct w as [h tr]. cbn [heap trace] in *.
  unfold returns, InPlace.get, CloneOnWrite.get.
  rewrite (bind_modify_at _ _ t) by assumption.
  rewrite (bind_clone_modify_at _ _ t) by assumption.
  change (map_dml (fun d => set_data VNull (set_type select_ d)) t) with t'.
  rewrite (getResponse_whole env self ThisDml None t' (<[self := t']> h) tr
             (lookup_written _ _ _ _ E) He I).
  rewrite (getResponse_whole env (length h) ThisDml None t' (h ++ [t']) tr
             (lookup_fresh _ _) He I).
  fold response.
  rewrite !(finish_failure _ _ _ _ m) by assumption.
  rewrite Hn. now split.
Qed.

(** ** [update] *)

(** C3 on both forms.  The table has a [beforeUpdate] trigger and the builder
    one WHERE node.  [update({name: "Alice"})] returns its payload and no
    request reaches the engine: the row loop runs up to the [length] of the
    payload, which an object does not have. *)
Theorem update_with_trigger_sends_nothing :
  dml_where (dml (withTriggers [beforeUpdate] oneWhere)) = [Leaf "id" "=" (VNum 1) AND] /\
  returns (InPlace.update quietEnv 0%nat alice) hookedUpdateWorld = Some alice /\
  requestsOf (InPlace.update quietEnv 0%nat alice) hookedUpdateWorld = [] /\
  returns (CloneOnWrite.update quietEnv 0%nat alice) hookedUpdateWorld = Some alice /\
  requestsOf (CloneOnWrite.update quietEnv 0%nat alice) hookedUpdateWorld = [].
Proof. repeat split. Qed.

(** ** [update] without a WHERE node, and without a trigger *)

(** [update] on a builder with no WHERE node throws before anything is sent,
    in both forms. *)
Lemma update_without_where_rejects env w self t data :
  heap w !! self = Some t ->
  negb (typeofObject data) || isArray data = false ->
  dml_where (dml t) = [] ->
  throws (InPlace.update env self data) w = Some (Error updateNeedsWhere) /\
  requestsOf (InPlace.update env self data) w = [] /\
  throws (CloneOnWrite.update env self data) w = Some (Error updateNeedsWhere) /\
  requestsOf (CloneOnWrite.update env self data) w = [].
Proof.
  intros E Hv Hw. destruct w as [h tr]. cbn [heap] in E.
  unfold throws, requestsOf, InPlace.update, CloneOnWrite.update.
  rewrite (bind_clone_at _ t) by assumption.
  rewrite Hv.
  rewrite (bind_deref_at _ t) by assumption.
  rewrite (bind_deref_at _ t) by apply lookup_fresh.
  rewrite Hw. cbn. rewrite drop_all. now repeat split.
Qed.

(** ** [update] with a registered trigger *)

Lemma dispatch_object_payload env t localDML p props :
  hasTrigger t p ->
  data localDML = VObj props ->
  getProp "length" props = VUndefined ->
  dispatch env t localDML (Some p) = ret (Some []).
Proof.
  unfold hasTrigger, dispatch, trigger_get. intros Ht Hd Hl.
  rewrite Ht, Hd. cbn [payloadLength]. rewrite Hl.
  destruct (triggers t) as [|tr trs]; [discriminate Ht|reflexivity].
Qed.

(** For every builder with a WHERE node and a registered Update trigger, and
    every payload object without a [length] property, [update] sends nothing
    to the engine; it returns the payload when the computed field processor
    maps no rows to no rows. *)
Lemma update_with_trigger_never_reaches_engine env w self t props :
  heap w !! self = Some t ->
  dml_where (dml t) <> [] ->
  hasTrigger t Update ->
  getProp "length" props = VUndefined ->
  requestsOf (InPlace.update env self (VObj props)) w = [] /\
  requestsOf (CloneOnWrite.update env self (VObj props)) w = [] /\
  ((forall needed, computedFieldsOf env (Some []) needed = Some []) ->
   returns (InPlace.update env self (VObj props)) w = Some (VObj props) /\
   returns (CloneOnWrite.update env self (VObj props)) w = Some (VObj props)).
Proof.
  intros E Hw Ht Hl. destruct w as [h tr]. cbn [heap] in E.
  set (t1 := map_dml (fun d => set_data (VObj props) (set_type update_ d)) t).
  assert (Hcall : forall l h1,
             h1 !! l = Some t1 ->
             getResponse env l ThisDml (Some Update) (mkWorld h1 tr)
             = postProcess env (neededFor env t1 (dml t1)) (depsFor env t1 (dml t1))
                 (Some [])
                 (mkWorld (<[l := set_dml (rewritten env t1 (dml t1)) t1]> h1) tr)).
  { intros l h1 E1. unfold getResponse.
    rewrite (bind_deref_at _ t1) by assumption.
    unfold rewritten, neededFor, depsFor.
    destruct (rewriteColumns env (computedFields t1) (columns (dml t1)))
      as [[cols needed] deps]. cbn [fst snd].
    unfold bind at 1. cbn [assign heap trace].
    rewrite (dispatch_object_payload env t1 (set_columns cols (dml t1)) Update
               props Ht eq_refl Hl).
    reflexivity. }
  assert (Hquiet : forall needed deps w',
             world_of (postProcess env needed deps (Some []) w') = w').
  { intros needed deps w'. unfold postProcess.
    destruct needed; [reflexivity|].
    now destruct (computedFieldsOf env (Some []) (c :: needed)). }
  assert (Hin : InPlace.update env self (VObj props) (mkWorld h tr)
                = (getResponse env self ThisDml (Some Update);; ret (VObj props))
                    (mkWorld (<[self := t1]> h) tr)).
  { unfold InPlace.update. cbn [typeofObject isArray negb orb].
    rewrite (bind_deref_at _ t) by assumption.
    rewrite (match_nonempty _ _ _ Hw).
    now rewrite (bind_modify_at _ _ t) by assumption. }
  assert (Hcl : CloneOnWrite.update env self (VObj props) (mkWorld h tr)
                = (getResponse env (length h) ThisDml (Some Update);; ret (VObj props))
                    (mkWorld (h ++ [t1]) tr)).
  { unfold CloneOnWrite.update.
    rewrite (bind_clone_at _ t) by assumption.
    cbn [typeofObject isArray negb orb].
    rewrite (bind_deref_at _ t) by apply lookup_fresh.
    rewrite (match_nonempty _ _ _ Hw).
    rewrite (bind_modify_at _ _ t) by apply lookup_fresh.
    now rewrite write_fresh. }
  unfold requestsOf, returns. rewrite Hin, Hcl.
  rewrite !world_bind_quiet by reflexivity.
  rewrite (Hcall self _ (lookup_written _ _ _ _ E)).
  rewrite (Hcall (length h) _ (lookup_fresh _ _)).
  rewrite !Hquiet. cbn [trace]. rewrite drop_all.
  split; [reflexivity|]. split; [reflexivity|].
  intros Hc. unfold bind.
  rewrite (Hcall self _ (lookup_written _ _ _ _ E)).
  rewrite (Hcall (length h) _ (lookup_fresh _ _)).
  rewrite !postProcess_empty by exact Hc. now split.
Qed.

(** ** Chains of steps in the two forms *)

Lemma step_inPlace_at up s self t h tr :
  h !! self = Some t ->
  step_inPlace up s self (mkWorld h tr)
  = match stepTable up s t with
    | inr t' => Return self (mkWorld (<[self := t']> h) tr)
    | inl e => Throw e (mkWorld h tr)
    end.
Proof.
  intros E.
  assert (Hstep : forall f, (modify self f;; ret self) (mkWorld h tr)
                            = Return self (mkWorld (<[self := f t]> h) tr))
    by (intros f; apply (inplace_step self f t (mkWorld h tr) E)).
  assert (Hskip : (ret tt;; ret self) (mkWorld h tr)
                  = Return self (mkWorld (<[self := t]> h) tr))
    by (cbn; now rewrite list_insert_id).
  destruct s; cbn [step_inPlace stepTable];
    try (unfold InPlace.select, InPlace.where_, InPlace.orWhere, InPlace.or,
           InPlace.and, InPlace.whereNull, InPlace.whereNotNull, InPlace.groupBy_,
           InPlace.distinct_, InPlace.limit_, InPlace.page; now rewrite Hstep).
  - unfold InPlace.whereBetween.
    destruct (negb (isUndefined value1) && negb (isUndefined value2));
      [now rewrite Hstep|exact Hskip].
  - unfold InPlace.whereIn.
    destruct (nonEmptyArray values); [now rewrite Hstep|exact Hskip].
  - destruct ty; unfold InPlace.join, InPlace.leftJoin, InPlace.rightJoin;
      now rewrite Hstep.
  - unfold InPlace.orderBy_.
    destruct (validDirection (up direction)); [now rewrite Hstep|reflexivity].
Qed.

Lemma step_cloning_at up s self t h tr :
  h !! self = Some t ->
  step_cloning up s self (mkWorld h tr)
  = match stepTable up s t with
    | inr t' => Return (length h) (mkWorld (h ++ [t']) tr)
    | inl e => Throw e (mkWorld (h ++ [t]) tr)
    end.
Proof.
  intros E.
  assert (Hstep : forall f,
             (let! clone := CloneOnWrite.clone self in modify clone f;; ret clone)
               (mkWorld h tr)
             = Return (length h) (mkWorld (h ++ [f t]) tr))
    by (intros f; apply (clone_step self f t (mkWorld h tr) E)).
  assert (Hskip : (let! clone := CloneOnWrite.clone self in ret tt;; ret clone)
                    (mkWorld h tr)
                  = Return (length h) (mkWorld (h ++ [t]) tr))
    by now rewrite (bind_clone_at _ t).
  destruct s; cbn [step_cloning stepTable];
    try (unfold CloneOnWrite.select, CloneOnWrite.where_, CloneOnWrite.orWhere,
           CloneOnWrite.or, CloneOnWrite.and, CloneOnWrite.whereNull,
           CloneOnWrite.whereNotNull, CloneOnWrite.groupBy_, CloneOnWrite.distinct_,
           CloneOnWrite.limit_, CloneOnWrite.page; now rewrite Hstep).
  - unfold CloneOnWrite.whereBetween.
    destruct (negb (isUndefined value1) && negb (isUndefined value2));
      [now rewrite Hstep|exact Hskip].
  - unfold CloneOnWrite.whereIn.
    destruct (nonEmptyArray values); [now rewrite Hstep|exact Hskip].
  - destruct ty; unfold CloneOnWrite.join, CloneOnWrite.leftJoin,
      CloneOnWrite.rightJoin; now rewrite Hstep.
  - unfold CloneOnWrite.orderBy_. rewrite (bind_clone_at _ t) by assumption.
    destruct (validDirection (up direction)); [|reflexivity].
    now rewrite (bind_modify_at _ _ t) by apply lookup_fresh; rewrite write_fresh.
Qed.

Lemma chain_inPlace_at up steps self t h tr :
  h !! self = Some t ->
  chain (step_inPlace up) steps self (mkWorld h tr)
  = let w' := mkWorld (<[self := fst (chainTable up steps t)]> h) tr in
    match snd (chainTable up steps t) with
    | None => Return self w'
    | Some e => Throw e w'
    end.
Proof.
  revert t h. induction steps as [|s rest IH]; intros t h E.
  - cbn. now rewrite list_insert_id.
  - cbn [chain chainTable]. unfold bind.
    rewrite (step_inPlace_at up s self t h tr E).
    destruct (stepTable up s t) as [e|t'].
    + cbn. now rewrite list_insert_id.
    + rewrite (IH t' (<[self := t']> h)) by (eapply lookup_written, E).
      now rewrite list_insert_insert_eq.
Qed.

Lemma chain_cloning_at up steps self t h tr :
  h !! self = Some t ->
  exists ext,
    match snd (chainTable up steps t) with
    | None =>
        exists l,
          chain (step_cloning up) steps self (mkWorld h tr)
          = Return l (mkWorld (h ++ ext) tr) /\
          (h ++ ext) !! l = Some (fst (chainTable up steps t))
    | Some e =>
        chain (step_cloning up) steps self (mkWorld h tr)
        = Throw e (mkWorld (h ++ ext) tr)
    end.
Proof.
  revert self t h. induction steps as [|s rest IH]; intros self t h E.
  - exists []. cbn. exists self. rewrite app_nil_r. now split.
  - cbn [chain chainTable]. unfold bind.
    rewrite (step_cloning_at up s self t h tr E).
    destruct (stepTable up s t) as [e|t'].
    + exists [t]. reflexivity.
    + destruct (IH (length h) t' (h ++ [t']) (lookup_fresh _ _)) as [ext Hext].
      exists (t' :: ext).
      replace (h ++ t' :: ext) with ((h ++ [t']) ++ ext)
        by now rewrite <- app_assoc.
      exact Hext.
Qed.

(** X1.  The two forms of the builder compute the same descriptor.  For every
    chain of steps called on a builder, either both forms throw the same
    error, or both return: [src/lib/Database.ts] returns the builder it was
    called on, the second copy returns the builder its last step made (the
    receiver itself when the chain is empty), and the two hold the same
    fields. *)
Theorem chain_forms_agree
    (toUpperCase : string -> string) (steps : list Step)
    (self : loc) (t : Table) (w : World) :
  heap w !! self = Some t ->
  match chain (step_inPlace toUpperCase) steps self w,
        chain (step_cloning toUpperCase) steps self w with
  | Return l1 w1, Return l2 w2 =>
      l1 = self /\ is_Some (heap w1 !! self) /\ heap w1 !! self = heap w2 !! l2
  | Throw e1 _, Throw e2 _ => e1 = e2
  | _, _ => False
  end.
Proof.
  intros E. destruct w as [h tr]. cbn [heap] in E.
  rewrite (chain_inPlace_at toUpperCase steps self t h tr E).
  destruct (chain_cloning_at toUpperCase steps self t h tr E) as [ext Hext].
  cbn zeta. destruct (snd (chainTable toUpperCase steps t)) as [e|].
  - now rewrite Hext.
  - destruct Hext as (l & -> & Hl). cbn [heap].
    rewrite (lookup_written _ _ _ _ E), Hl. repeat split. now eexists.
Qed.

(** X2.  Clone-on-write chains leave the store as they found it: whatever the
    steps, and whether the chain returns or throws, every builder that
    existed keeps its fields, and nothing is added to the trace. *)
Theorem cloning_chain_leaves_builders
    (toUpperCase : string -> string) (steps : list Step)
    (self : loc) (t : Table) (w : World) :
  heap w !! self = Some t ->
  let w' := world_of (chain (step_cloning toUpperCase) steps self w) in
  (forall l x, heap w !! l = Some x -> heap w' !! l = Some x) /\
  trace w' = trace w.
Proof.
  intros E w'. destruct w as [h tr]. cbn [heap] in E.
  destruct (chain_cloning_at toUpperCase steps self t h tr E) as [ext Hext].
  assert (Hw : w' = mkWorld (h ++ ext) tr).
  { unfold w'. destruct (snd (chainTable toUpperCase steps t)).
    - now rewrite Hext.
    - destruct Hext as (l & -> & _). reflexivity. }
  rewrite Hw. split; [|reflexivity].
  intros l x Hl. now apply lookup_app_l_Some.
Qed.

(** X3.  Chains of [src/lib/Database.ts] work on the object they are called
    on: the chain creates no builder and adds nothing to the trace, whether
    it returns or throws; when it returns, it returns the builder it was
    called on, and that builder holds the fields the steps computed one
    after the other.  Nothing is said of the other builders: a sub-builder
    kept from a [whereGroup] callback shares its WHERE array with the group
    node of its parent. *)
Theorem inplace_chain_works_on_this
    (toUpperCase : string -> string) (steps : list Step)
    (self : loc) (t : Table) (w : World) :
  heap w !! self = Some t ->
  let w' := world_of (chain (step_inPlace toUpperCase) steps self w) in
  length (heap w') = length (heap w) /\
  trace w' = trace w /\
  (forall l, returns (chain (step_inPlace toUpperCase) steps self) w = Some l ->
             l = self /\
             snd (chainTable toUpperCase steps t) = None /\
             heap w' !! self = Some (fst (chainTable toUpperCase steps t))).
Proof.
  intros E w'. destruct w as [h tr]. cbn [heap] in E.
  unfold w', returns. rewrite (chain_inPlace_at toUpperCase steps self t h tr E).
  cbn zeta. destruct (snd (chainTable toUpperCase steps t)); cbn [world_of heap trace].
  - rewrite length_insert. repeat split; discriminate.
  - rewrite length_insert. repeat split; [congruence|].
    now apply (lookup_written _ _ t).
Qed.

Lemma chainTable_returns up steps t :
  wellDirected up steps -> snd (chainTable up steps t) = None.
Proof.
  intros Hd. revert t. induction Hd as [|s rest Hs _ IH]; intros t; [reflexivity|].
  cbn [chainTable]. destruct s; cbn [stepTable]; try apply IH.
  destruct Hs as [dir ->]. apply IH.
Qed.

Lemma chain_returns up steps self t w :
  heap w !! self = Some t ->
  wellDirected up steps ->
  tableAfter (chain (step_inPlace up) steps self) w
  = Some (fst (chainTable up steps t)) /\
  tableAfter (chain (step_cloning up) steps self) w
  = Some (fst (chainTable up steps t)).
Proof.
  intros E Hd. destruct w as [h tr]. cbn [heap] in E. unfold tableAfter.
  rewrite (chain_inPlace_at up steps self t h tr E).
  destruct (chain_cloning_at up steps self t h tr E) as [ext Hext].
  rewrite (chainTable_returns up steps t Hd) in *. cbn zeta.
  destruct Hext as (l & -> & Hl). cbn [heap].
  now rewrite (lookup_written _ _ _ _ E).
Qed.

Lemma stepTable_where up s t t' :
  stepTable up s t = inr t' ->
  exists added,
    dml_where (dml t') = dml_where (dml t) ++ added /\
    length added = if appendsNode s then 1%nat else 0%nat.
Proof.
  destruct s; cbn [stepTable appendsNode]; intros H;
    try (injection H as <-; eexists; split; [reflexivity|reflexivity]);
    try (injection H as <-; exists []; split; [now rewrite app_nil_r|reflexivity]).
  - injection H as <-.
    destruct (negb (isUndefined value1) && negb (isUndefined value2)).
    + eexists; split; reflexivity.
    + exists []; split; [now rewrite app_nil_r|reflexivity].
  - injection H as <-. destruct (nonEmptyArray values).
    + eexists; split; reflexivity.
    + exists []; split; [now rewrite app_nil_r|reflexivity].
  - destruct (validDirection (up direction)); [|discriminate].
    injection H as <-. exists []; split; [now rewrite app_nil_r|reflexivity].
  - injection H as <-. exists []. split; [|reflexivity].
    rewrite app_nil_r. cbn. now destruct (limitSet (limit (dml t))).
Qed.

Lemma chainTable_where up steps t :
  snd (chainTable up steps t) = None ->
  exists added,
    dml_where (dml (fst (chainTable up steps t))) = dml_where (dml t) ++ added /\
    length added = countNodes steps.
Proof.
  revert t. induction steps as [|s rest IH]; intros t Hr.
  - exists []. split; [now rewrite app_nil_r|reflexivity].
  - cbn [chainTable countNodes] in *.
    destruct (stepTable up s t) as [e|t'] eqn:Es; [discriminate|].
    destruct (stepTable_where up s t t' Es) as (a1 & Ha1 & Hl1).
    destruct (IH t' Hr) as (a2 & Ha2 & Hl2).
    exists (a1 ++ a2). split.
    + now rewrite Ha2, Ha1, app_assoc.
    + rewrite length_app. lia.
Qed.

(** X4.  The WHERE sequence only grows at its end.  For every chain of steps
    whose [orderBy] directions are accepted, both forms return a builder
    whose WHERE sequence is the one of the starting builder followed by as
    many nodes as the chain has [where], [orWhere], [whereNull],
    [whereNotNull] steps and [whereBetween], [whereIn] steps that are not
    skipped. *)
Theorem chain_where_grows_by_its_nodes
    (toUpperCase : string -> string) (steps : list Step)
    (self : loc) (t : Table) (w : World) :
  heap w !! self = Some t ->
  wellDirected toUpperCase steps ->
  exists t' added,
    tableAfter (chain (step_inPlace toUpperCase) steps self) w = Some t' /\
    tableAfter (chain (step_cloning toUpperCase) steps self) w = Some t' /\
    dml_where (dml t') = dml_where (dml t) ++ added /\
    length added = countNodes steps.
Proof.
  intros E Hd.
  destruct (chain_returns toUpperCase steps self t w E Hd) as [Hi Hc].
  destruct (chainTable_where toUpperCase steps t
              (chainTable_returns toUpperCase steps t Hd)) as (added & Ha & Hl).
  exists (fst (chainTable toUpperCase steps t)), added. now repeat split.
Qed.

Lemma stepTable_lists up s t t' :
  stepTable up s t = inr t' ->
  joins (dml t') = joins (dml t) ++ option_list (joinOf s) /\
  groupBy (dml t') = groupBy (dml t) ++ option_list (groupOf s) /\
  orderBy (dml t') = orderBy (dml t) ++ option_list (orderOf up s).
Proof.
  destruct s; cbn [stepTable joinOf groupOf orderOf option_list]; intros H;
    try (injection H as <-; cbn; now rewrite ?app_nil_r).
  - injection H as <-.
    destruct (negb (isUndefined value1) && negb (isUndefined value2));
      cbn; now rewrite ?app_nil_r.
  - injection H as <-. destruct (nonEmptyArray values); cbn; now rewrite ?app_nil_r.
  - destruct (validDirection (up direction)); [|discriminate].
    injection H as <-. cbn. now rewrite ?app_nil_r.
  - injection H as <-. cbn. destruct (limitSet (limit (dml t)));
      cbn; now rewrite ?app_nil_r.
Qed.

Lemma chainTable_lists up steps t :
  snd (chainTable up steps t) = None ->
  let t' := fst (chainTable up steps t) in
  joins (dml t') = joins (dml t) ++ omap joinOf steps /\
  groupBy (dml t') = groupBy (dml t) ++ omap groupOf steps /\
  orderBy (dml t') = orderBy (dml t) ++ omap (orderOf up) steps.
Proof.
  revert t. induction steps as [|s rest IH]; intros t Hr.
  - cbn. now rewrite !app_nil_r.
  - cbn [chainTable] in *.
    destruct (stepTable up s t) as [e|t1] eqn:Es; [discriminate|].
    destruct (stepTable_lists up s t t1 Es) as (Hj & Hg & Ho).
    destruct (IH t1 Hr) as (Hj' & Hg' & Ho'). cbn zeta.
    rewrite Hj', Hg', Ho', Hj, Hg, Ho, <- !app_assoc. cbn [omap list_omap].
    now destruct (joinOf s), (groupOf s), (orderOf up s).
Qed.

(** X5.  [joins], [groupBy] and [orderBy] collect their entries in call order,
    whatever other steps come in between and without removing duplicates:
    after a chain whose directions are accepted, each of the three lists is
    the list of the starting builder followed by the entries of the chain's
    join, [groupBy] and [orderBy] steps, in both forms. *)
Theorem chain_lists_keep_call_order
    (toUpperCase : string -> string) (steps : list Step)
    (self : loc) (t : Table) (w : World) :
  heap w !! self = Some t ->
  wellDirected toUpperCase steps ->
  exists t',
    tableAfter (chain (step_inPlace toUpperCase) steps self) w = Some t' /\
    tableAfter (chain (step_cloning toUpperCase) steps self) w = Some t' /\
    joins (dml t') = joins (dml t) ++ omap joinOf steps /\
    groupBy (dml t') = groupBy (dml t) ++ omap groupOf steps /\
    orderBy (dml t') = orderBy (dml t) ++ omap (orderOf toUpperCase) steps.
Proof.
  intros E Hd.
  destruct (chain_returns toUpperCase steps self t w E Hd) as [Hi Hc].
  destruct (chainTable_lists toUpperCase steps t
              (chainTable_returns toUpperCase steps t Hd)) as (Hj & Hg & Ho).
  exists (fst (chainTable toUpperCase steps t)). now repeat split.
Qed.

Lemma whereAfter_tableAfter m w :
  whereAfter m w = option_map (fun t => dml_where (dml t)) (tableAfter m w).
Proof. unfold whereAfter, tableAfter. now destruct (m w). Qed.

Lemma wellDirected_without_orderBy up steps :
  Forall (fun s => match s with SOrderBy _ _ => False | _ => True end) steps ->
  wellDirected up steps.
Proof.
  intros H. unfold wellDirected. eapply Forall_impl; [exact H|].
  intros s Hs. now destruct s.
Qed.

(** X6.  The connective set by [or()] waits for the next step that uses it.
    [orWhere] stores OR on its own node and leaves the pending connective, so
    in [or().orWhere(a).where(b).where(c)] the node of [b] is stored with OR
    and only the node of [c] with AND; a [whereBetween] that is skipped
    leaves it too, so the [where] after it is stored with OR.  Both forms. *)
Theorem pending_connective_waits
    (toUpperCase : string -> string) (self : loc) (t : Table) (w : World)
    (ca oa cb ob cc oc cz : string) (va vb vc hi : value) :
  heap w !! self = Some t ->
  let ws := dml_where (dml t) in
  let first :=
    [SOr; SOrWhere ca oa va; SWhere cb ob vb; SWhere cc oc vc] in
  let second := [SOr; SWhereBetween cz VUndefined hi; SWhere cb ob vb] in
  whereAfter (chain (step_inPlace toUpperCase) first self) w
  = Some (ws ++ [Leaf ca oa va OR; Leaf cb ob vb OR; Leaf cc oc vc AND]) /\
  whereAfter (chain (step_cloning toUpperCase) first self) w
  = Some (ws ++ [Leaf ca oa va OR; Leaf cb ob vb OR; Leaf cc oc vc AND]) /\
  whereAfter (chain (step_inPlace toUpperCase) second self) w
  = Some (ws ++ [Leaf cb ob vb OR]) /\
  whereAfter (chain (step_cloning toUpperCase) second self) w
  = Some (ws ++ [Leaf cb ob vb OR]).
Proof.
  intros E ws first second.
  assert (H1 : wellDirected toUpperCase first)
    by (apply wellDirected_without_orderBy; repeat constructor).
  assert (H2 : wellDirected toUpperCase second)
    by (apply wellDirected_without_orderBy; repeat constructor).
  destruct (chain_returns toUpperCase first self t w E H1) as [Hi1 Hc1].
  destruct (chain_returns toUpperCase second self t w E H2) as [Hi2 Hc2].
  rewrite !whereAfter_tableAfter, Hi1, Hc1, Hi2, Hc2. cbn.
  rewrite <- !app_assoc. now repeat split.
Qed.

Lemma nearestDouble_exact x : exact x -> nearestDouble x = x.
Proof.
  unfold exact, nearestDouble. intros H. apply Z.ltb_lt in H. now rewrite H.
Qed.

(** Beyond the exact range the product is the nearest double:
    [limit(9007199254740991).page(4)] gives an offset that ends in 972, where
    the integers give 973. *)
Lemma page_beyond_the_exact_range :
  times (minus 4 1) 9007199254740991 = 27021597764222972%Z /\
  (3 * 9007199254740991 = 27021597764222973)%Z.
Proof. split; reflexivity. Qed.

(** X7.  [page] sets the offset from the limit the builder holds.  After
    [limit(n).page(p)] the offset is [(p - 1) * n], as long as [p - 1] and
    the product are below [2^53] in magnitude, where the doubles of the code
    are exact; [limit(0)] counts as no limit and leaves the offset as it
    was, and [page(p)] on a builder without limit leaves the offset as it
    was.  Both forms. *)
Theorem page_follows_the_limit
    (toUpperCase : string -> string) (self : loc) (t : Table) (w : World)
    (n p : Z) :
  heap w !! self = Some t ->
  exact (p - 1) ->
  exact ((p - 1) * n) ->
  (exists t1,
     tableAfter (chain (step_inPlace toUpperCase) [SLimit n; SPage p] self) w
     = Some t1 /\
     tableAfter (chain (step_cloning toUpperCase) [SLimit n; SPage p] self) w
     = Some t1 /\
     limit (dml t1) = Some n /\
     offset (dml t1) = if Z.eqb n 0 then offset (dml t) else Some ((p - 1) * n)%Z) /\
  (limit (dml t) = None ->
   exists t2,
     tableAfter (chain (step_inPlace toUpperCase) [SPage p] self) w = Some t2 /\
     tableAfter (chain (step_cloning toUpperCase) [SPage p] self) w = Some t2 /\
     limit (dml t2) = None /\
     offset (dml t2) = offset (dml t)).
Proof.
  intros E Hp Hpn.
  assert (H1 : wellDirected toUpperCase [SLimit n; SPage p])
    by (apply wellDirected_without_orderBy; repeat constructor).
  assert (H2 : wellDirected toUpperCase [SPage p])
    by (apply wellDirected_without_orderBy; repeat constructor).
  destruct (chain_returns toUpperCase _ self t w E H1) as [Hi1 Hc1].
  destruct (chain_returns toUpperCase _ self t w E H2) as [Hi2 Hc2].
  split.
  - eexists. split; [exact Hi1|]. split; [exact Hc1|]. cbn.
    destruct (Z.eqb n 0); cbn; [now split|].
    unfold times, minus.
    now rewrite (nearestDouble_exact _ Hp), (nearestDouble_exact _ Hpn).
  - intros Hl. eexists. split; [exact Hi2|]. split; [exact Hc2|]. cbn.
    rewrite Hl. cbn. now split.
Qed.

(** X8.  In [src/lib/Database.ts] an aggregate shortcut and [select] write the
    same field.  [select(fields)] followed by an aggregate leaves the
    aggregate expression as the only column, the selected columns are gone;
    an aggregate followed by [select(fields)] leaves the selected columns
    (or ["*"]) without the aggregate expression, while the [aggregation]
    field stays set. *)
Theorem inplace_aggregate_and_select_overwrite
    (a : AggType) (self : loc) (t : Table) (w : World)
    (fields : list string) (column : string) :
  heap w !! self = Some t ->
  (exists t1,
     tableAfter (selectThenAggregate a self fields column) w = Some t1 /\
     columns (dml t1) = [aggExpr a column] /\
     aggregation (dml t1) = Some (mkAggregation a column (aggAlias a))) /\
  (exists t2,
     tableAfter (aggregateThenSelect a self fields column) w = Some t2 /\
     columns (dml t2) = selected fields /\
     aggregation (dml t2) = Some (mkAggregation a column (aggAlias a))).
Proof.
  intros E. destruct w as [h tr]. cbn [heap] in E.
  unfold tableAfter, selectThenAggregate, aggregateThenSelect,
    InPlace.select, InPlace.aggregate.
  split.
  - erewrite bind_Return by (apply inplace_step; exact E).
    erewrite inplace_step by (cbn [heap]; eapply lookup_written, E).
    cbn [heap]. rewrite list_insert_insert_eq, (lookup_written _ _ _ _ E).
    eexists. split; [reflexivity|]. now split.
  - erewrite bind_Return by (apply inplace_step; exact E).
    erewrite inplace_step by (cbn [heap]; eapply lookup_written, E).
    cbn [heap]. rewrite list_insert_insert_eq, (lookup_written _ _ _ _ E).
    eexists. split; [reflexivity|]. now split.
Qed.

(** X9.  [orderBy] with a direction whose upper case is neither ASC nor DESC
    throws the error naming the direction as it was given.  In
    [src/lib/Database.ts] the store is left as it was; in the second copy the
    builder it was called on keeps its fields. *)
Theorem orderBy_rejects_other_directions
    (toUpperCase : string -> string) (self : loc) (t : Table) (w : World)
    (column direction : string) :
  heap w !! self = Some t ->
  validDirection (toUpperCase direction) = None ->
  InPlace.orderBy_ toUpperCase self column direction w
  = Throw (Error (invalidDirection direction)) w /\
  throws (CloneOnWrite.orderBy_ toUpperCase self column direction) w
  = Some (Error (invalidDirection direction)) /\
  heap (world_of (CloneOnWrite.orderBy_ toUpperCase self column direction w)) !! self
  = Some t.
Proof.
  intros E Hd. destruct w as [h tr]. cbn [heap] in E.
  unfold throws, InPlace.orderBy_, CloneOnWrite.orderBy_.
  rewrite (bind_clone_at _ t) by assumption. rewrite Hd.
  repeat split. cbn. now apply lookup_kept.
Qed.

(** ** The orchestrator and the store *)

Lemma keepsStore_ret {A} (a : A) : keepsStore (ret a).
Proof. now intros w. Qed.

Lemma keepsStore_throw {A} (e : error) : keepsStore (@throw A e).
Proof. now intros w. Qed.

Lemma keepsStore_emit e : keepsStore (emit e).
Proof. now intros w. Qed.

Lemma keepsStore_bind {A B} (m : M A) (k : A -> M B) :
  keepsStore m -> (forall a, keepsStore (k a)) -> keepsStore (bind m k).
Proof.
  intros Hm Hk w. unfold bind. specialize (Hm w).
  destruct (m w) as [a w1|e w1]; cbn in *; [|exact Hm].
  now rewrite Hk.
Qed.

Lemma keepsStore_trigger_execute env trs key row :
  keepsStore (trigger_execute env trs key row).
Proof.
  unfold trigger_execute. destruct (trigger_get trs key); [|apply keepsStore_ret].
  destruct (handlerOk env t row); [|apply keepsStore_throw].
  apply keepsStore_bind; [apply keepsStore_emit|intros; apply keepsStore_ret].
Qed.

Lemma keepsStore_commit i : keepsStore (interceptor_commit i).
Proof. destruct i; [apply keepsStore_emit|apply keepsStore_throw]. Qed.

Lemma keepsStore_discard i : keepsStore (interceptor_discard i).
Proof. destruct i; [apply keepsStore_emit|apply keepsStore_throw]. Qed.

Lemma keepsStore_returnFormattedError code msg :
  keepsStore (returnFormattedError code msg).
Proof. destruct msg; [apply keepsStore_emit|apply keepsStore_throw]. Qed.

Lemma keepsStore_engine_run env t request : keepsStore (engine_run env t request).
Proof.
  unfold engine_run. destruct (engine t); [|apply keepsStore_throw].
  intros w. reflexivity.
Qed.

Lemma keepsStore_rowStep env t localDML ph beffore after arrayResult row :
  keepsStore (rowStep env t localDML ph beffore after arrayResult row).
Proof.
  unfold rowStep. apply keepsStore_bind.
  - destruct beffore; [|apply keepsStore_ret].
    apply keepsStore_bind; [apply keepsStore_trigger_execute|intros i].
    apply keepsStore_bind; [apply keepsStore_engine_run|intros r].
    apply keepsStore_bind.
    + destruct (negb (Z.eqb (status r) 200)); [|apply keepsStore_ret].
      apply keepsStore_bind;
        [apply keepsStore_discard|intros; apply keepsStore_returnFormattedError].
    + intros _. apply keepsStore_bind;
        [apply keepsStore_commit|intros; apply keepsStore_ret].
  - intros ar. destruct after; [|apply keepsStore_ret].
    apply keepsStore_bind; [apply keepsStore_engine_run|intros r].
    apply keepsStore_bind.
    + destruct (negb (Z.eqb (status r) 200)); [|apply keepsStore_ret].
      apply keepsStore_returnFormattedError.
    + intros _. apply keepsStore_bind; [apply keepsStore_trigger_execute|intros i].
      apply keepsStore_bind; [apply keepsStore_commit|intros; apply keepsStore_ret].
Qed.

Lemma keepsStore_rowLoop env t localDML ph beffore after arrayResult indices :
  keepsStore (rowLoop env t localDML ph beffore after arrayResult indices).
Proof.
  revert arrayResult. induction indices as [|i rest IH]; intros arrayResult.
  - apply keepsStore_ret.
  - cbn [rowLoop]. apply keepsStore_bind; [apply keepsStore_rowStep|exact IH].
Qed.

Lemma keepsStore_dispatchWhole env t localDML : keepsStore (dispatchWhole env t localDML).
Proof.
  unfold dispatchWhole.
  apply keepsStore_bind; [apply keepsStore_engine_run|intros r].
  apply keepsStore_bind; [|intros; apply keepsStore_ret].
  destruct (negb (Z.eqb (status r) 200));
    [apply keepsStore_returnFormattedError|apply keepsStore_ret].
Qed.

Lemma keepsStore_dispatch env t localDML ph : keepsStore (dispatch env t localDML ph).
Proof.
  unfold dispatch. destruct ph as [p|]; [|apply keepsStore_dispatchWhole].
  destruct (_ && _); [|apply keepsStore_dispatchWhole].
  destruct (payloadLength (data localDML));
    [apply keepsStore_rowLoop|apply keepsStore_throw].
Qed.

Lemma keepsStore_postProcess env needed deps arrayResult :
  keepsStore (postProcess env needed deps arrayResult).
Proof.
  unfold postProcess. destruct needed; [apply keepsStore_ret|].
  destruct (computedFieldsOf env arrayResult (c :: needed));
    [apply keepsStore_ret|apply keepsStore_throw].
Qed.

(** Whatever the phase, the triggers and the answers, and however the call
    ends, the orchestrator changes one thing in the store: the descriptor it
    was given, when that is the builder's own, takes the rewritten columns. *)
Lemma getResponse_store env self arg ph t h tr :
  h !! self = Some t ->
  heap (world_of (getResponse env self arg ph (mkWorld h tr)))
  = match arg with
    | ThisDml => <[self := set_dml (rewritten env t (dml t)) t]> h
    | FreshDml _ => h
    end.
Proof.
  intros E. unfold getResponse.
  rewrite (bind_deref_at _ t) by assumption.
  unfold rewritten.
  destruct arg as [|d].
  - destruct (rewriteColumns env (computedFields t) (columns (dml t)))
      as [[cols needed] deps]. cbn [fst snd].
    unfold bind at 1. cbn [assign heap trace].
    rewrite (keepsStore_bind _ _ (keepsStore_dispatch env t _ ph)
               (keepsStore_postProcess env needed deps)).
    reflexivity.
  - destruct (rewriteColumns env (computedFields t) (columns d))
      as [[cols needed] deps].
    unfold bind at 1. cbn [ret].
    rewrite (keepsStore_bind _ _ (keepsStore_dispatch env t _ ph)
               (keepsStore_postProcess env needed deps)).
    reflexivity.
Qed.

(** ** Terminal calls of the second copy and the store *)

Lemma writesAbove_ret n {A} (a : A) : writesAbove n (ret a).
Proof. intros w Hn. now split. Qed.

Lemma writesAbove_throw n {A} (e : error) : writesAbove n (@throw A e).
Proof. intros w Hn. now split. Qed.

Lemma writesAbove_bind n {A B} (m : M A) (k : A -> M B) :
  writesAbove n m -> (forall a, writesAbove n (k a)) -> writesAbove n (bind m k).
Proof.
  intros Hm Hk w Hn. unfold bind. destruct (Hm w Hn) as [Hlen Hlook].
  destruct (m w) as [a w1|e w1]; cbn [world_of] in *; [|now split].
  destruct (Hk a w1 Hlen) as [Hlen' Hlook']. split; [exact Hlen'|].
  intros l Hl. now rewrite Hlook', Hlook.
Qed.

Lemma writesAbove_deref n l : writesAbove n (deref l).
Proof. intros w Hn. unfold deref. now destruct (heap w !! l). Qed.

Lemma writesAbove_modify n l f : (n <= l)%nat -> writesAbove n (modify l f).
Proof.
  intros Hl w Hn. unfold modify, bind, deref, assign.
  destruct (heap w !! l); cbn; [|now split].
  rewrite length_insert. split; [exact Hn|].
  intros l' Hl'. apply list_lookup_insert_ne. lia.
Qed.

Lemma writesAbove_clone n l : writesAbove n (CloneOnWrite.clone l).
Proof.
  intros w Hn. unfold CloneOnWrite.clone, bind, deref, alloc.
  destruct (heap w !! l); cbn; [|now split].
  rewrite length_app. split; [lia|].
  intros l' Hl'. apply lookup_app_l. lia.
Qed.

Lemma writesAbove_getResponse n env l arg ph :
  (n <= l)%nat -> writesAbove n (getResponse env l arg ph).
Proof.
  intros Hl [h tr] Hn. cbn [heap] in *.
  destruct (h !! l) as [t|] eqn:E.
  - rewrite (getResponse_store env l arg ph t h tr E).
    destruct arg; [|now split].
    rewrite length_insert. split; [exact Hn|].
    intros l' Hl'. apply list_lookup_insert_ne. lia.
  - unfold getResponse, bind, deref. cbn [heap]. rewrite E. now split.
Qed.

(** After the clone has been made, every write goes to the clone or to
    builders made later. *)
Lemma writesAbove_on_clone {A} (k : loc -> M A) self t h tr :
  h !! self = Some t ->
  writesAbove (length h) (k (length h)) ->
  forall l x,
    h !! l = Some x ->
    heap (world_of ((let! clone := CloneOnWrite.clone self in k clone) (mkWorld h tr)))
    !! l = Some x.
Proof.
  intros E Hk l x Hl. rewrite (bind_clone_at _ t) by assumption.
  destruct (Hk (mkWorld (h ++ [t]) tr)) as [_ Hlook].
  - cbn. rewrite length_app. lia.
  - rewrite Hlook by (now apply lookup_lt_Some in Hl).
    cbn. now apply lookup_kept.
Qed.

Lemma writesAbove_cloning_where n q column operator val :
  (n <= q)%nat -> writesAbove n (CloneOnWrite.where_ q column operator val).
Proof.
  intros Hq w Hn. unfold CloneOnWrite.where_.
  destruct (heap w !! q) as [t|] eqn:E.
  - destruct w as [h tr]. cbn [heap] in *.
    rewrite (bind_clone_modify_at _ _ t) by assumption. cbn.
    rewrite length_app. split; [lia|].
    intros l Hl. apply lookup_app_l. lia.
  - unfold CloneOnWrite.clone, bind, deref. rewrite E. now split.
Qed.

(** X10.  Terminal calls of the clone-on-write copy never touch the builders
    that exist.  Whatever the engine answers, whichever triggers and computed
    fields are registered, and whether the call returns or throws, [get],
    [first], [find], the aggregates, [insert], [update] and [delete] leave
    every builder of the store with the fields it had. *)
Theorem cloning_terminal_calls_leave_builders
    (env : Collaborators) (self : loc) (t : Table) (w : World) (l : loc) (x : Table) :
  heap w !! self = Some t ->
  heap w !! l = Some x ->
  heap (world_of (CloneOnWrite.get env self w)) !! l = Some x /\
  heap (world_of (CloneOnWrite.first env self w)) !! l = Some x /\
  (forall val column,
     heap (world_of (CloneOnWrite.find_ env self val column w)) !! l = Some x) /\
  (forall a column,
     heap (world_of (CloneOnWrite.aggregate env a self column w)) !! l = Some x) /\
  (forall data,
     heap (world_of (CloneOnWrite.insert env self data w)) !! l = Some x) /\
  (forall data,
     heap (world_of (CloneOnWrite.update env self data w)) !! l = Some x) /\
  heap (world_of (CloneOnWrite.delete env self w)) !! l = Some x.
Proof.
  intros E Hl. destruct w as [h tr]. cbn [heap] in *.
  assert (Hm : forall f, writesAbove (length h) (modify (length h) f))
    by (intros; now apply writesAbove_modify).
  assert (Hg : forall ph, writesAbove (length h)
                            (getResponse env (length h) ThisDml ph))
    by (intros; now apply writesAbove_getResponse).
  assert (Hfirst : forall r, writesAbove (length h) (firstOrNull r))
    by (intros [rows|]; [apply writesAbove_ret|apply writesAbove_throw]).
  repeat split.
  - apply (writesAbove_on_clone _ self t); [exact E| |exact Hl].
    apply writesAbove_bind; [apply Hm|intros; apply Hg].
  - apply (writesAbove_on_clone _ self t); [exact E| |exact Hl].
    apply writesAbove_bind; [apply Hm|intros].
    apply writesAbove_bind; [apply Hg|intros; apply Hfirst].
  - intros val column.
    apply (writesAbove_on_clone _ self t); [exact E| |exact Hl].
    apply writesAbove_bind; [apply Hm|intros].
    apply writesAbove_bind; [now apply writesAbove_cloning_where|intros].
    apply writesAbove_bind; [apply Hm|intros].
    apply writesAbove_bind; [apply Hg|intros; apply Hfirst].
  - intros a column.
    apply (writesAbove_on_clone _ self t); [exact E| |exact Hl].
    apply writesAbove_bind; [apply Hm|intros].
    apply writesAbove_bind; [apply Hg|intros].
    apply writesAbove_bind; [apply Hfirst|intros [row|]; apply writesAbove_ret].
  - intros data.
    apply (writesAbove_on_clone _ self t); [exact E| |exact Hl].
    destruct data; try apply writesAbove_throw.
    destruct (forallb validObject items); [|apply writesAbove_throw].
    apply writesAbove_bind; [apply Hm|intros].
    apply writesAbove_bind; [apply Hg|intros; apply writesAbove_ret].
  - intros data.
    apply (writesAbove_on_clone _ self t); [exact E| |exact Hl].
    destruct (negb (typeofObject data) || isArray data); [apply writesAbove_throw|].
    apply writesAbove_bind; [apply writesAbove_deref|intros c].
    destruct (dml_where (dml c)); [apply writesAbove_throw|].
    apply writesAbove_bind; [apply Hm|intros].
    apply writesAbove_bind; [apply Hg|intros; apply writesAbove_ret].
  - apply (writesAbove_on_clone _ self t); [exact E| |exact Hl].
    apply writesAbove_bind; [apply writesAbove_deref|intros c].
    destruct (dml_where (dml c)); [apply writesAbove_throw|].
    apply writesAbove_bind; [apply Hm|intros; apply Hg].
Qed.

(** ** A builder of [src/lib/Database.ts] after a terminal call *)

Lemma fieldDeps_real env cfs fields x :
  realDependencies env cfs ->
  x ∈ fieldDeps env cfs fields ->
  isComputed cfs x = false.
Proof.
  intros Hreal Hx. unfold fieldDeps in Hx.
  apply list_elem_of_In, in_concat in Hx as (ds & Hds & Hx).
  apply in_map_iff in Hds as (f & <- & _).
  unfold depsOfField in Hx.
  destruct (find _ cfs) as [cf|] eqn:Ef; [|contradiction].
  apply (Hreal cf); [eapply find_elem_of, Ef|now apply list_elem_of_In].
Qed.

Lemma rewritten_columns_real env cfs cols :
  realDependencies env cfs ->
  Forall (fun f => isComputed cfs f = false) (fst (fst (rewriteColumns env cfs cols))).
Proof.
  intros Hreal.
  destruct (Forall_Exists_dec (fun f => isComputed cfs f = false)
              (fun f => isComputed cfs f = true)
              (fun f => match isComputed cfs f as b
                          return {b = false} + {b = true} with
                        | true => right eq_refl
                        | false => left eq_refl
                        end) cols) as [Hall|Hex].
  - now rewrite rewriteColumns_plain.
  - apply Forall_forall. intros x Hx.
    rewrite (rewriteColumns_computed _ _ _ Hex) in Hx.
    apply (rewriteFold_columns env cfs cols cols [] [] x Hreal) in Hx
      as [[Hc Hn]|Hd].
    + destruct (isComputed cfs x); [exfalso; now apply Hn|reflexivity].
    + now apply (fieldDeps_real env cfs cols).
Qed.

(** X11.  In [src/lib/Database.ts] the rewrite of the columns stays in the
    builder.  After a first [get], however it ended, the builder's columns
    are those of the request, with the computed fields replaced by their
    dependencies.  A second [get] on the same builder therefore sends the
    same request, finds no computed field, and on success returns the
    engine's rows as they came: the computed values are no longer produced.
    Dependencies are taken to be real columns. *)
Theorem inplace_second_get_skips_computed_fields
    (env : Collaborators) (self : loc) (t : Table) (w : World) :
  heap w !! self = Some t ->
  engine t = true ->
  realDependencies env (computedFields t) ->
  let w1 := world_of (InPlace.get env self w) in
  exists request,
    requestsOf (InPlace.get env self) w = [request] /\
    descriptorAt self w1 = Some request /\
    requestsOf (InPlace.get env self) w1 = [request] /\
    (status (run env (trace w1) request) = 200 ->
     returns (InPlace.get env self) w1
     = Some (resp_data (run env (trace w1) request))).
Proof.
  intros E He Hreal w1.
  set (t' := map_dml asSelect t).
  set (request := rewritten env t' (dml t')).
  set (t1 := set_dml request t').
  assert (E1 : heap w1 !! self = Some t1).
  { unfold w1. destruct w as [h tr]. cbn [heap] in E. unfold InPlace.get.
    rewrite (bind_modify_at _ _ t) by assumption.
    erewrite getResponse_store by (eapply lookup_written, E).
    eapply lookup_written, lookup_written, E. }
  assert (Hplain : rewriteColumns env (computedFields t) (columns request)
                   = (columns request, [], [])).
  { apply rewriteColumns_plain. apply (rewritten_columns_real env _ _ Hreal). }
  assert (Hsame : rewritten env (map_dml asSelect t1) (asSelect (dml t1)) = request).
  { unfold rewritten. cbn [computedFields map_dml set_dml t1 t' columns dml asSelect
      set_data set_type]. 
    change (columns (dml t1)) with (columns request) in *.
    cbn [columns] in Hplain |- *.
    unfold request, rewritten in Hplain |- *.
    cbn [computedFields map_dml set_dml t' columns dml asSelect set_data set_type
           set_columns] in Hplain |- *.
    rewrite Hplain. reflexivity. }
  exists request. split; [now apply (inplace_get_requests env self t w)|].
  split; [unfold descriptorAt; now rewrite E1|].
  split.
  - rewrite (inplace_get_requests env self t1 w1 E1 He). now rewrite Hsame.
  - intros Hs. destruct w1 as [h1 tr1]. cbn [heap trace] in *.
    rewrite (inplace_get_success env self t1 h1 tr1 E1 He).
    + change (map_dml (fun d => set_data VNull (set_type select_ d)) t1)
        with (map_dml asSelect t1).
      change (dml (map_dml asSelect t1)) with (asSelect (dml t1)).
      rewrite Hsame. unfold neededFor.
      cbn [computedFields map_dml set_dml t1 t' columns dml asSelect set_data
             set_type].
      change (columns (dml t1)) with (columns request).
      unfold request, rewritten in Hplain |- *.
      cbn [computedFields map_dml set_dml t' columns dml asSelect set_data set_type
             set_columns] in Hplain |- *.
      rewrite Hplain. reflexivity.
    + change (map_dml (fun d => set_data VNull (set_type select_ d)) t1)
        with (map_dml asSelect t1).
      change (dml (map_dml asSelect t1)) with (asSelect (dml t1)).
      now rewrite Hsame.
Qed.

(** ** The per-row loop of the orchestrator *)

Lemma sends_ret {A} (a : A) (P : A -> Prop) : P a -> sends (ret a) [] P.
Proof. intros HP h tr. exists a, []. now rewrite app_nil_r. Qed.

Lemma sends_emit e : sends (emit e) (requests [e]) (fun _ => True).
Proof. intros h tr. now exists tt, [e]. Qed.

Lemma sends_bind {A B} (m : M A) (k : A -> M B) r1 r2 (P : A -> Prop) (Q : B -> Prop) :
  sends m r1 P -> (forall a, P a -> sends (k a) r2 Q) -> sends (bind m k) (r1 ++ r2) Q.
Proof.
  intros Hm Hk h tr. destruct (Hm h tr) as (a & evs1 & E1 & R1 & Pa).
  destruct (Hk a Pa h (tr ++ evs1)) as (b & evs2 & E2 & R2 & Qb).
  exists b, (evs1 ++ evs2). unfold bind.
  rewrite E1, E2, app_assoc, requests_app, R1, R2. auto.
Qed.

Lemma sends_weaken {A} (m : M A) r (P Q : A -> Prop) :
  sends m r P -> (forall a, P a -> Q a) -> sends m r Q.
Proof.
  intros Hm HPQ h tr. destruct (Hm h tr) as (a & evs & E & R & Pa).
  exists a, evs. auto.
Qed.

Lemma stops_throw {A} e : stops (@throw A e) [] e.
Proof. intros h tr. exists []. now rewrite app_nil_r. Qed.

Lemma stops_bind_l {A B} (m : M A) (k : A -> M B) r e :
  stops m r e -> stops (bind m k) r e.
Proof.
  intros Hm h tr. destruct (Hm h tr) as (evs & E & R).
  exists evs. unfold bind. now rewrite E.
Qed.

Lemma stops_bind_r {A B} (m : M A) (k : A -> M B) r1 r2 (P : A -> Prop) e :
  sends m r1 P -> (forall a, P a -> stops (k a) r2 e) -> stops (bind m k) (r1 ++ r2) e.
Proof.
  intros Hm Hk h tr. destruct (Hm h tr) as (a & evs1 & E1 & R1 & Pa).
  destruct (Hk a Pa h (tr ++ evs1)) as (evs2 & E2 & R2).
  exists (evs1 ++ evs2). unfold bind.
  rewrite E1, E2, app_assoc, requests_app, R1, R2. auto.
Qed.

Lemma leaves_ret {A} (a : A) (P : A -> Prop) : P a -> leaves (ret a) [] P.
Proof. intros HP h tr. exists a. now rewrite app_nil_r. Qed.

Lemma leaves_emit e : leaves (emit e) [e] (fun _ => True).
Proof. intros h tr. now exists tt. Qed.

Lemma leaves_bind {A B} (m : M A) (k : A -> M B) e1 e2 (P : A -> Prop) (Q : B -> Prop) :
  leaves m e1 P -> (forall a, P a -> leaves (k a) e2 Q) -> leaves (bind m k) (e1 ++ e2) Q.
Proof.
  intros Hm Hk h tr. destruct (Hm h tr) as (a & E1 & Pa).
  destruct (Hk a Pa h (tr ++ e1)) as (b & E2 & Qb).
  exists b. unfold bind. rewrite E1, E2, app_assoc. auto.
Qed.

Section Rows.

Context (env : Collaborators) (t : Table).
Hypothesis has_engine : engine t = true.

Lemma sends_engine_run request :
  (forall tr d, answered (run env tr d)) ->
  sends (engine_run env t request) [request] answered.
Proof.
  intros Ha h tr. unfold engine_run. rewrite has_engine.
  exists (run env tr request), [EngineRun request]. repeat split. apply Ha.
Qed.

Lemma leaves_engine_run request :
  (forall tr d, status (run env tr d) = 200) ->
  leaves (engine_run env t request) [EngineRun request] (fun r => status r = 200).
Proof.
  intros Ha h tr. unfold engine_run. rewrite has_engine.
  exists (run env tr request). split; [reflexivity|apply Ha].
Qed.

Lemma sends_trigger_execute key tm row :
  trigger_get (triggers t) key = Some tm ->
  handlerOk env tm row = true ->
  sends (trigger_execute env (triggers t) key row) [] (fun i => i = Some key).
Proof.
  intros Hg Hok h tr. unfold trigger_execute. rewrite Hg, Hok.
  now exists (Some key), [TriggerRun key row].
Qed.

Lemma leaves_trigger_execute key tm row :
  trigger_get (triggers t) key = Some tm ->
  handlerOk env tm row = true ->
  leaves (trigger_execute env (triggers t) key row) [TriggerRun key row]
         (fun i => i = Some key).
Proof.
  intros Hg Hok h tr. unfold trigger_execute. rewrite Hg, Hok.
  now exists (Some key).
Qed.

Lemma stops_trigger_execute key tm row :
  trigger_get (triggers t) key = Some tm ->
  handlerOk env tm row = false ->
  stops (trigger_execute env (triggers t) key row) [] (HandlerError key).
Proof.
  intros Hg Hok. unfold trigger_execute. rewrite Hg, Hok. apply stops_throw.
Qed.

Lemma sends_report r :
  answered r ->
  sends (if negb (Z.eqb (status r) 200)
         then returnFormattedError (status r) (message r)
         else ret tt) [] (fun _ => True).
Proof.
  intros Ha. destruct (Z.eqb_spec (status r) 200) as [Hs|Hs]; cbn [negb].
  - now apply sends_ret.
  - destruct Ha as [Hs'|[m Hm]]; [contradiction|]. rewrite Hm.
    apply (sends_emit (ErrorPrinted (status r) m)).
Qed.

Lemma sends_discard_report r key :
  answered r ->
  sends (if negb (Z.eqb (status r) 200)
         then interceptor_discard (Some key);;
              returnFormattedError (status r) (message r)
         else ret tt) [] (fun _ => True).
Proof.
  intros Ha. destruct (Z.eqb_spec (status r) 200) as [Hs|Hs]; cbn [negb].
  - now apply sends_ret.
  - destruct Ha as [Hs'|[m Hm]]; [contradiction|]. rewrite Hm.
    apply (sends_bind _ _ [] [] (fun _ => True)).
    + apply (sends_emit (Discard key)).
    + intros _ _. apply (sends_emit (ErrorPrinted (status r) m)).
Qed.
Lemma sends_rowStep localDML ph acc row :
  (forall tr d, answered (run env tr d)) ->
  (forall tm, handlerOk env tm row = true) ->
  sends (rowStep env t localDML ph
                 (trigger_get (triggers t) ("before" +:+ phaseName ph))
                 (trigger_get (triggers t) ("after" +:+ phaseName ph)) acc row)
        (replicate (hooks t ph) (set_data (VArr [row]) localDML)) (fun _ => True).
Proof.
  intros Ha Hok. unfold rowStep, hooks.
  set (request := set_data (VArr [row]) localDML).
  rewrite replicate_add.
  apply (sends_bind _ _ _ _ (fun _ => True)).
  - destruct (trigger_get (triggers t) ("before" +:+ phaseName ph)) as [tb|] eqn:Eb;
      cbn [truthy]; [|now apply sends_ret].
    change (replicate 1 request) with ([] ++ [request] ++ [] ++ [] ++ @nil DML).
    apply (sends_bind _ _ _ _ (fun i => i = Some ("before" +:+ phaseName ph)));
      [now apply (sends_trigger_execute _ tb)|].
    intros i ->. apply (sends_bind _ _ _ _ answered); [now apply sends_engine_run|].
    intros r Hr. apply (sends_bind _ _ _ _ (fun _ => True));
      [now apply sends_discard_report|].
    intros _ _. apply (sends_bind _ _ _ _ (fun _ => True));
      [apply (sends_emit (Commit _))|].
    intros _ _. now apply sends_ret.
  - intros ar _.
    destruct (trigger_get (triggers t) ("after" +:+ phaseName ph)) as [ta|] eqn:Ea;
      cbn [truthy]; [|now apply sends_ret].
    change (replicate 1 request) with ([request] ++ [] ++ [] ++ [] ++ @nil DML).
    apply (sends_bind _ _ _ _ answered); [now apply sends_engine_run|].
    intros r Hr. apply (sends_bind _ _ _ _ (fun _ => True)); [now apply sends_report|].
    intros _ _.
    apply (sends_bind _ _ _ _ (fun i => i = Some ("after" +:+ phaseName ph)));
      [now apply (sends_trigger_execute _ ta)|].
    intros i ->. apply (sends_bind _ _ _ _ (fun _ => True));
      [apply (sends_emit (Commit _))|].
    intros _ _. now apply sends_ret.
Qed.

Lemma sends_rowLoop localDML ph indices :
  (forall tr d, answered (run env tr d)) ->
  (forall tm i, i ∈ indices -> handlerOk env tm (payloadAt (data localDML) i) = true) ->
  forall acc,
    sends (rowLoop env t localDML ph
                   (trigger_get (triggers t) ("before" +:+ phaseName ph))
                   (trigger_get (triggers t) ("after" +:+ phaseName ph)) acc indices)
          (rowRequests (hooks t ph) localDML (map (payloadAt (data localDML)) indices))
          (fun _ => True).
Proof.
  intros Ha. induction indices as [|i rest IH]; intros Hok acc.
  - now apply sends_ret.
  - cbn [rowLoop map rowRequests flat_map].
    apply (sends_bind _ _ _ _ (fun _ => True)).
    + apply sends_rowStep; [exact Ha|]. intros tm. apply Hok. left.
    + intros acc' _. apply IH. intros tm j Hj. apply Hok. now right.
Qed.
Lemma leaves_rowStep localDML ph acc row :
  (forall tr d, status (run env tr d) = 200) ->
  (forall tm, handlerOk env tm row = true) ->
  leaves (rowStep env t localDML ph
                  (trigger_get (triggers t) ("before" +:+ phaseName ph))
                  (trigger_get (triggers t) ("after" +:+ phaseName ph)) acc row)
         (rowEvents t ph localDML row) (fun _ => True).
Proof.
  intros Ha Hok. unfold rowStep, rowEvents.
  set (request := set_data (VArr [row]) localDML).
  apply (leaves_bind _ _ _ _ (fun _ => True)).
  - destruct (trigger_get (triggers t) ("before" +:+ phaseName ph)) as [tb|] eqn:Eb;
      cbn [truthy]; [|now apply leaves_ret].
    apply (leaves_bind _ _ [_] [_; _] (fun i => i = Some ("before" +:+ phaseName ph)));
      [now apply (leaves_trigger_execute _ tb)|].
    intros i ->.
    apply (leaves_bind _ _ [_] [_] (fun r => status r = 200));
      [now apply leaves_engine_run|].
    intros r Hr. rewrite Hr. cbn [Z.eqb Pos.eqb negb].
    apply (leaves_bind _ _ [] [_] (fun _ => True)); [now apply leaves_ret|].
    intros _ _. apply (leaves_bind _ _ [_] [] (fun _ => True));
      [apply (leaves_emit (Commit _))|].
    intros _ _. now apply leaves_ret.
  - intros ar _.
    destruct (trigger_get (triggers t) ("after" +:+ phaseName ph)) as [ta|] eqn:Ea;
      cbn [truthy]; [|now apply leaves_ret].
    apply (leaves_bind _ _ [_] [_; _] (fun r => status r = 200));
      [now apply leaves_engine_run|].
    intros r Hr. rewrite Hr. cbn [Z.eqb Pos.eqb negb].
    apply (leaves_bind _ _ [] [_; _] (fun _ => True)); [now apply leaves_ret|].
    intros _ _.
    apply (leaves_bind _ _ [_] [_] (fun i => i = Some ("after" +:+ phaseName ph)));
      [now apply (leaves_trigger_execute _ ta)|].
    intros i ->. apply (leaves_bind _ _ [_] [] (fun _ => True));
      [apply (leaves_emit (Commit _))|].
    intros _ _. now apply leaves_ret.
Qed.

Lemma leaves_rowLoop localDML ph indices :
  (forall tr d, status (run env tr d) = 200) ->
  (forall tm i, i ∈ indices -> handlerOk env tm (payloadAt (data localDML) i) = true) ->
  forall acc,
    leaves (rowLoop env t localDML ph
                    (trigger_get (triggers t) ("before" +:+ phaseName ph))
                    (trigger_get (triggers t) ("after" +:+ phaseName ph)) acc indices)
           (flat_map (rowEvents t ph localDML) (map (payloadAt (data localDML)) indices))
           (fun _ => True).
Proof.
  intros Ha. induction indices as [|i rest IH]; intros Hok acc.
  - now apply leaves_ret.
  - cbn [rowLoop map flat_map].
    apply (leaves_bind _ _ _ _ (fun _ => True)).
    + apply leaves_rowStep; [exact Ha|]. intros tm. apply Hok. left.
    + intros acc' _. apply IH. intros tm j Hj. apply Hok. now right.
Qed.

(** A handler that throws: the [before] hook stops the row before it is
    sent, the [after] hook after it has been sent. *)
Lemma stops_rowStep_before localDML ph acc row tb after :
  trigger_get (triggers t) ("before" +:+ phaseName ph) = Some tb ->
  handlerOk env tb row = false ->
  stops (rowStep env t localDML ph (Some tb) after acc row)
        [] (HandlerError ("before" +:+ phaseName ph)).
Proof.
  intros Eb Hok. unfold rowStep.
  apply stops_bind_l, stops_bind_l. now apply (stops_trigger_execute _ tb).
Qed.

Lemma stops_rowStep_after localDML ph acc row ta :
  (forall tr d, answered (run env tr d)) ->
  trigger_get (triggers t) ("after" +:+ phaseName ph) = Some ta ->
  handlerOk env ta row = false ->
  stops (rowStep env t localDML ph None (Some ta) acc row)
        [set_data (VArr [row]) localDML] (HandlerError ("after" +:+ phaseName ph)).
Proof.
  intros Ha Ea Hok. unfold rowStep.
  change [set_data (VArr [row]) localDML]
    with ([] ++ [set_data (VArr [row]) localDML] ++ [] ++ @nil DML).
  apply (stops_bind_r _ _ _ _ (fun _ => True)); [now apply sends_ret|].
  intros ar _. apply (stops_bind_r _ _ _ _ answered); [now apply sends_engine_run|].
  intros r Hr. apply (stops_bind_r _ _ _ _ (fun _ => True)); [now apply sends_report|].
  intros _ _. apply stops_bind_l. now apply (stops_trigger_execute _ ta).
Qed.

Lemma stops_rowLoop localDML ph before rest r e :
  (forall tr d, answered (run env tr d)) ->
  (forall tm i, i ∈ before -> handlerOk env tm (payloadAt (data localDML) i) = true) ->
  (forall acc,
     stops (rowLoop env t localDML ph
                    (trigger_get (triggers t) ("before" +:+ phaseName ph))
                    (trigger_get (triggers t) ("after" +:+ phaseName ph)) acc rest)
           r e) ->
  forall acc,
    stops (rowLoop env t localDML ph
                   (trigger_get (triggers t) ("before" +:+ phaseName ph))
                   (trigger_get (triggers t) ("after" +:+ phaseName ph)) acc
                   (before ++ rest))
          (rowRequests (hooks t ph) localDML (map (payloadAt (data localDML)) before)
           ++ r) e.
Proof.
  intros Ha Hok Hrest. induction before as [|i more IH]; intros acc.
  - apply Hrest.
  - cbn [app rowLoop map rowRequests flat_map]. rewrite <- app_assoc.
    apply (stops_bind_r _ _ _ _ (fun _ => True)).
    + apply sends_rowStep; [exact Ha|]. intros tm. apply Hok. left.
    + intros acc' _. apply IH. intros tm j Hj. apply Hok. now right.
Qed.
End Rows.

(** The rows of an array payload, read by index. *)
Lemma payload_rows_from (pre items post : list value) :
  map (payloadAt (VArr (pre ++ items ++ post))) (seq (length pre) (length items))
  = items.
Proof.
  revert pre. induction items as [|x xs IH]; intros pre; [reflexivity|].
  cbn [length seq map payloadAt app]. f_equal.
  - now rewrite nth_middle.
  - specialize (IH (pre ++ [x])). rewrite length_app in IH. cbn [length] in IH.
    replace (length pre + 1)%nat with (S (length pre)) in IH by lia.
    rewrite <- app_assoc in IH. exact IH.
Qed.

Lemma payload_rows (items : list value) :
  map (payloadAt (VArr items)) (seq 0 (length items)) = items.
Proof.
  pose proof (payload_rows_from [] items []) as H.
  now rewrite app_nil_r in H.
Qed.

Lemma payload_prefix (pre post : list value) :
  map (payloadAt (VArr (pre ++ post))) (seq 0 (length pre)) = pre.
Proof. apply (payload_rows_from [] pre post). Qed.

Lemma hooks_dispatch env t localDML p :
  (0 < hooks t p)%nat ->
  dispatch env t localDML (Some p)
  = match payloadLength (data localDML) with
    | None => throw (TypeError "Cannot read properties of null (reading 'length')")
    | Some n =>
        rowLoop env t localDML p
                (trigger_get (triggers t) ("before" +:+ phaseName p))
                (trigger_get (triggers t) ("after" +:+ phaseName p)) (Some []) (seq 0 n)
    end.
Proof.
  intros Hh. unfold dispatch, hooks, trigger_get in *.
  destruct (triggers t) as [|tm trs]; [cbn in Hh; lia|].
  cbn [length Nat.ltb Nat.leb andb].
  destruct (find _ (tm :: trs)), (find _ (tm :: trs)); cbn in *; try reflexivity; lia.
Qed.

(** One orchestrator call, whatever the phase: the store takes the rewritten
    columns when the descriptor is the builder's own, and the rest is the
    dispatch followed by the post-processing. *)
Lemma getResponse_dispatch env self arg ph t h tr :
  h !! self = Some t ->
  let localDML := match arg with ThisDml => dml t | FreshDml d => d end in
  getResponse env self arg ph (mkWorld h tr)
  = (let! arrayResult := dispatch env t (rewritten env t localDML) ph in
     postProcess env (neededFor env t localDML) (depsFor env t localDML) arrayResult)
      (mkWorld (match arg with
                | ThisDml => <[self := set_dml (rewritten env t (dml t)) t]> h
                | FreshDml _ => h
                end) tr).
Proof.
  intros E localDML. unfold getResponse.
  rewrite (bind_deref_at _ t) by assumption.
  unfold rewritten, neededFor, depsFor.
  destruct arg as [|d]; subst localDML; cbn beta iota.
  - now destruct (rewriteColumns env (computedFields t) (columns (dml t)))
      as [[cols needed] deps].
  - now destruct (rewriteColumns env (computedFields t) (columns d))
      as [[cols needed] deps].
Qed.

(** A call of the orchestrator's dispatch, the post-processing and the
    value the terminal method returns. *)
Lemma call_sends {A} env (D : M (option (list DatabaseRecord))) needed deps (a : A)
    reqs P h tr :
  sends D reqs P ->
  exists evs,
    world_of (bind (bind D (postProcess env needed deps)) (fun _ => ret a)
                   (mkWorld h tr))
    = mkWorld h (tr ++ evs) /\
    requests evs = reqs /\
    (needed = [] ->
     bind (bind D (postProcess env needed deps)) (fun _ => ret a) (mkWorld h tr)
     = Return a (mkWorld h (tr ++ evs))).
Proof.
  intros HD. destruct (HD h tr) as (ar & evs & E & R & _).
  exists evs. unfold bind. rewrite E. unfold postProcess.
  destruct needed as [|cf needed]; [now repeat split|].
  destruct (computedFieldsOf env ar (cf :: needed)); now repeat split.
Qed.

Lemma call_leaves {A} env (D : M (option (list DatabaseRecord))) needed deps (a : A)
    evs P h tr :
  leaves D evs P ->
  world_of (bind (bind D (postProcess env needed deps)) (fun _ => ret a)
                 (mkWorld h tr))
  = mkWorld h (tr ++ evs).
Proof.
  intros HD. destruct (HD h tr) as (ar & E & _).
  unfold bind. rewrite E. unfold postProcess.
  destruct needed as [|cf needed]; [reflexivity|].
  now destruct (computedFieldsOf env ar (cf :: needed)).
Qed.

Lemma call_stops {A B C} (D : M A) (k : A -> M B) (k' : B -> M C) reqs e h tr :
  stops D reqs e ->
  exists evs,
    bind (bind D k) k' (mkWorld h tr) = Throw e (mkWorld h (tr ++ evs)) /\
    requests evs = reqs.
Proof.
  intros HD. destruct (HD h tr) as (evs & E & R).
  exists evs. unfold bind. now rewrite E.
Qed.

Lemma eventsOf_at {A} (m : M A) h tr h' evs :
  world_of (m (mkWorld h tr)) = mkWorld h' (tr ++ evs) ->
  eventsOf m (mkWorld h tr) = evs.
Proof.
  intros E. unfold eventsOf. rewrite E. cbn [trace]. apply drop_app_length.
Qed.

Lemma requestsOf_at {A} (m : M A) h tr h' evs :
  world_of (m (mkWorld h tr)) = mkWorld h' (tr ++ evs) ->
  requestsOf m (mkWorld h tr) = requests evs.
Proof.
  intros E. unfold requestsOf. rewrite E. cbn [trace]. now rewrite drop_app_length.
Qed.

Lemma bind_at {A B} (m m' : M A) (k : A -> M B) w w' :
  m w = m' w' -> bind m k w = bind m' k w'.
Proof. intros E. unfold bind. now rewrite E. Qed.

(** [insert] with a valid payload, in either form: the descriptor takes the
    type and the payload, and the orchestrator is called on it under the
    phase [Add]. *)
Lemma insertOf_runs form env self t h tr items :
  h !! self = Some t ->
  forallb validObject items = true ->
  let t' := map_dml (asInsert (VArr items)) t in
  exists h',
    insertOf form env self (VArr items) (mkWorld h tr)
    = bind (bind (dispatch env t' (rewritten env t' (dml t')) (Some Add))
                 (postProcess env (neededFor env t' (dml t')) (depsFor env t' (dml t'))))
           (fun _ => ret (VArr items)) (mkWorld h' tr).
Proof.
  intros E Hv t'. destruct form; cbn [insertOf].
  - exists (<[self := set_dml (rewritten env t' (dml t')) t']> (<[self := t']> h)).
    unfold InPlace.insert. rewrite Hv.
    rewrite (bind_modify_at _ _ t) by assumption.
    apply bind_at.
    apply (getResponse_dispatch env self ThisDml (Some Add) t').
    now apply (lookup_written _ _ t).
  - exists (<[length h := set_dml (rewritten env t' (dml t')) t']> (h ++ [t'])).
    unfold CloneOnWrite.insert. rewrite (bind_clone_at _ t) by assumption.
    rewrite Hv. rewrite (bind_modify_at _ _ t) by apply lookup_fresh.
    rewrite write_fresh. apply bind_at.
    apply (getResponse_dispatch env (length h) ThisDml (Some Add) t').
    apply lookup_fresh.
Qed.

Lemma row_in_payload (items : list value) i :
  i ∈ seq 0 (length items) -> payloadAt (VArr items) i ∈ items.
Proof.
  intros Hi. apply elem_of_seq in Hi. apply list_elem_of_In, nth_In. lia.
Qed.

(** X12.  [insert] with a hook registered for the phase [Add], in either
    form of the builder: every row of the payload is sent to the engine on
    its own, in payload order, once for the [beforeAdd] hook and once for the
    [afterAdd] hook, so a row is sent twice when both are registered.  The
    handlers are taken to return; the engine may answer 200 or a failure
    with a message.  When no requested column is computed the call returns
    the payload. *)
Theorem insert_sends_each_row_once_per_hook
    (form : Form) (env : Collaborators) (self : loc) (t : Table) (w : World)
    (items : list value) :
  heap w !! self = Some t ->
  engine t = true ->
  forallb validObject items = true ->
  (0 < hooks t Add)%nat ->
  (forall tr d, answered (run env tr d)) ->
  (forall tm row, row ∈ items -> handlerOk env tm row = true) ->
  let request := rewritten env t (asInsert (VArr items) (dml t)) in
  requestsOf (insertOf form env self (VArr items)) w
  = rowRequests (hooks t Add) request items /\
  (neededFor env t (asInsert (VArr items) (dml t)) = [] ->
   returns (insertOf form env self (VArr items)) w = Some (VArr items)).
Proof.
  intros E He Hv Hh Ha Hok request. destruct w as [h tr]. cbn [heap] in E.
  destruct (insertOf_runs form env self t h tr items E Hv) as (h' & Hrun).
  set (t' := map_dml (asInsert (VArr items)) t) in *.
  assert (HD : sends (dispatch env t' (rewritten env t' (dml t')) (Some Add))
                     (rowRequests (hooks t Add) request items) (fun _ => True)).
  { rewrite (hooks_dispatch env t' _ Add) by exact Hh.
    change (data (rewritten env t' (dml t'))) with (VArr items).
    cbn [payloadLength].
    pose proof (sends_rowLoop env t' He (rewritten env t' (dml t')) Add
                  (seq 0 (length items)) Ha) as HL.
    change (data (rewritten env t' (dml t'))) with (VArr items) in HL.
    rewrite payload_rows in HL. apply HL.
    intros tm i Hi. apply Hok. now apply row_in_payload. }
  destruct (call_sends env _ (neededFor env t' (dml t')) (depsFor env t' (dml t'))
              (VArr items) _ _ h' tr HD) as (evs & Hw & Hr & Hret).
  split.
  - rewrite (requestsOf_at _ h tr h' evs); [exact Hr|]. now rewrite Hrun.
  - intros Hn. unfold returns. rewrite Hrun, (Hret Hn). reflexivity.
Qed.

(** X13.  The order of events around a hooked [insert], in either form,
    when the handlers return and the engine answers 200: for every row, in
    payload order, the [beforeAdd] handler runs, then the row is sent and the
    interceptor committed; for the [afterAdd] hook the row is sent first,
    then the handler runs and its interceptor is committed.  Nothing is
    discarded and no error is printed. *)
Theorem insert_hooks_run_around_the_request
    (form : Form) (env : Collaborators) (self : loc) (t : Table) (w : World)
    (items : list value) :
  heap w !! self = Some t ->
  engine t = true ->
  forallb validObject items = true ->
  (0 < hooks t Add)%nat ->
  (forall tr d, status (run env tr d) = 200) ->
  (forall tm row, row ∈ items -> handlerOk env tm row = true) ->
  eventsOf (insertOf form env self (VArr items)) w
  = flat_map (rowEvents t Add (rewritten env t (asInsert (VArr items) (dml t)))) items.
Proof.
  intros E He Hv Hh Ha Hok. destruct w as [h tr]. cbn [heap] in E.
  destruct (insertOf_runs form env self t h tr items E Hv) as (h' & Hrun).
  set (t' := map_dml (asInsert (VArr items)) t) in *.
  apply (eventsOf_at _ h tr h'). rewrite Hrun.
  apply (call_leaves env _ _ _ _ _ (fun _ => True)).
  rewrite (hooks_dispatch env t' _ Add) by exact Hh.
  change (data (rewritten env t' (dml t'))) with (VArr items).
  cbn [payloadLength].
  pose proof (leaves_rowLoop env t' He (rewritten env t' (dml t')) Add
                (seq 0 (length items)) Ha) as HL.
  change (data (rewritten env t' (dml t'))) with (VArr items) in HL.
  rewrite payload_rows in HL. apply HL.
  intros tm i Hi. apply Hok. now apply row_in_payload.
Qed.

Lemma prefix_in_payload (pre post : list value) i :
  i ∈ seq 0 (length pre) -> payloadAt (VArr (pre ++ post)) i ∈ pre.
Proof.
  intros Hi. apply elem_of_seq in Hi. cbn [payloadAt].
  rewrite app_nth1 by lia. apply list_elem_of_In, nth_In. lia.
Qed.

(** A hooked [insert] whose loop stops at the row [row]: the rows before it
    have been sent, and what the stopped row sent is added. *)
Lemma insert_stops form env self t h tr pre row post r e :
  h !! self = Some t ->
  engine t = true ->
  forallb validObject (pre ++ row :: post) = true ->
  (0 < hooks t Add)%nat ->
  (forall tr d, answered (run env tr d)) ->
  (forall tm r, r ∈ pre -> handlerOk env tm r = true) ->
  let items := pre ++ row :: post in
  let t' := map_dml (asInsert (VArr items)) t in
  let request := rewritten env t (asInsert (VArr items) (dml t)) in
  (forall acc,
     stops (rowStep env t' request Add
                    (trigger_get (triggers t) "beforeAdd")
                    (trigger_get (triggers t) "afterAdd") acc row) r e) ->
  throws (insertOf form env self (VArr items)) (mkWorld h tr) = Some e /\
  requestsOf (insertOf form env self (VArr items)) (mkWorld h tr)
  = rowRequests (hooks t Add) request pre ++ r.
Proof.
  intros E He Hv Hh Ha Hok items t' request Hrow.
  destruct (insertOf_runs form env self t h tr items E Hv) as (h' & Hrun).
  fold t' in Hrun.
  assert (HD : stops (dispatch env t' (rewritten env t' (dml t')) (Some Add))
                     (rowRequests (hooks t Add) request pre ++ r) e).
  { rewrite (hooks_dispatch env t' _ Add) by exact Hh.
    change (data (rewritten env t' (dml t'))) with (VArr items).
    cbn [payloadLength].
    replace (seq 0 (length items))
      with (seq 0 (length pre) ++ length pre :: seq (S (length pre)) (length post))
      by (unfold items; now rewrite length_app, seq_app).
    pose proof (stops_rowLoop env t' He (rewritten env t' (dml t')) Add
                  (seq 0 (length pre))
                  (length pre :: seq (S (length pre)) (length post)) r e Ha) as HL.
    change (data (rewritten env t' (dml t'))) with (VArr (pre ++ row :: post)) in HL.
    rewrite payload_prefix in HL. apply HL.
    - intros tm i Hi. apply Hok. now apply prefix_in_payload.
    - intros acc. cbn [rowLoop]. apply stops_bind_l.
      change (data (rewritten env t' (dml t'))) with (VArr (pre ++ row :: post)).
      cbn [payloadAt]. rewrite nth_middle. apply Hrow. }
  destruct (call_stops _ (postProcess env (neededFor env t' (dml t'))
                                      (depsFor env t' (dml t')))
              (fun _ => ret (VArr items)) _ _ h' tr HD) as (evs & Hw & Hr).
  split.
  - unfold throws. now rewrite Hrun, Hw.
  - rewrite (requestsOf_at _ h tr h' evs); [exact Hr|]. now rewrite Hrun, Hw.
Qed.

(** X14.  A [beforeAdd] handler that throws on a row stops [insert] before
    that row is sent, in either form of the builder: the call rejects with
    the handler's failure, the rows before it have been sent (once per
    registered hook) and stay sent, and neither the failing row nor any
    later row reaches the engine. *)
Theorem failing_before_handler_stops_insert
    (form : Form) (env : Collaborators) (self : loc) (t : Table) (w : World)
    (pre : list value) (row : value) (post : list value) (tb : TriggerMeta) :
  heap w !! self = Some t ->
  engine t = true ->
  forallb validObject (pre ++ row :: post) = true ->
  (forall tr d, answered (run env tr d)) ->
  (forall tm r, r ∈ pre -> handlerOk env tm r = true) ->
  trigger_get (triggers t) "beforeAdd" = Some tb ->
  handlerOk env tb row = false ->
  let items := pre ++ row :: post in
  let request := rewritten env t (asInsert (VArr items) (dml t)) in
  throws (insertOf form env self (VArr items)) w = Some (HandlerError "beforeAdd") /\
  requestsOf (insertOf form env self (VArr items)) w
  = rowRequests (hooks t Add) request pre.
Proof.
  intros E He Hv Ha Hok Eb Hfail items request. destruct w as [h tr].
  cbn [heap] in E.
  assert (Hh : (0 < hooks t Add)%nat).
  { unfold hooks. change ("before" +:+ phaseName Add) with "beforeAdd".
    rewrite Eb. cbn [truthy]. lia. }
  destruct (insert_stops form env self t h tr pre row post []
              (HandlerError "beforeAdd") E He Hv Hh Ha Hok) as [Ht Hr].
  - intros acc. rewrite Eb.
    now apply (stops_rowStep_before env (map_dml (asInsert (VArr items)) t)
                 _ Add acc row tb).
  - split; [exact Ht|]. etransitivity; [exact Hr|apply app_nil_r].
Qed.

(** X15.  With no [beforeAdd] hook, an [afterAdd] handler that throws on a
    row stops [insert] after that row has been sent: the call rejects with
    the handler's failure, the engine has received the rows before it and the
    row itself, and no later row. *)
Theorem failing_after_handler_stops_insert
    (form : Form) (env : Collaborators) (self : loc) (t : Table) (w : World)
    (pre : list value) (row : value) (post : list value) (ta : TriggerMeta) :
  heap w !! self = Some t ->
  engine t = true ->
  forallb validObject (pre ++ row :: post) = true ->
  (forall tr d, answered (run env tr d)) ->
  (forall tm r, r ∈ pre -> handlerOk env tm r = true) ->
  trigger_get (triggers t) "beforeAdd" = None ->
  trigger_get (triggers t) "afterAdd" = Some ta ->
  handlerOk env ta row = false ->
  let items := pre ++ row :: post in
  let request := rewritten env t (asInsert (VArr items) (dml t)) in
  throws (insertOf form env self (VArr items)) w = Some (HandlerError "afterAdd") /\
  requestsOf (insertOf form env self (VArr items)) w
  = rowRequests 1 request (pre ++ [row]).
Proof.
  intros E He Hv Ha Hok Eb Ea Hfail items request. destruct w as [h tr].
  cbn [heap] in E.
  assert (Hh : hooks t Add = 1%nat).
  { unfold hooks. change ("before" +:+ phaseName Add) with "beforeAdd".
    change ("after" +:+ phaseName Add) with "afterAdd".
    now rewrite Eb, Ea. }
  destruct (insert_stops form env self t h tr pre row post
              [set_data (VArr [row]) request]
              (HandlerError "afterAdd") E He Hv ltac:(lia) Ha Hok) as [Ht Hr].
  - intros acc. rewrite Eb, Ea.
    now apply (stops_rowStep_after env (map_dml (asInsert (VArr items)) t)
                 He _ Add acc row ta Ha).
  - split; [exact Ht|]. etransitivity; [exact Hr|]. rewrite Hh.
    unfold rowRequests. rewrite flat_map_app. reflexivity.
Qed.

(** ** Guards of the writing calls *)

(** X16.  [delete] on a builder with a [beforeDelete] or [afterDelete] hook
    never reaches the engine.  In [src/lib/Database.ts] the orchestrator is
    given the select descriptor, whose payload is [null]; in the second copy
    it is given the clone's descriptor, whose payload is [null] unless the
    builder was handed one.  The per-row loop reads [length] of that payload,
    so the call rejects with a [TypeError] and nothing has been sent. *)
Theorem hooked_delete_sends_nothing
    (form : Form) (env : Collaborators) (self : loc) (t : Table) (w : World) :
  heap w !! self = Some t ->
  dml_where (dml t) <> [] ->
  (0 < hooks t Delete)%nat ->
  (form = Cloning -> data (dml t) = VNull) ->
  throws (deleteOf form env self) w
  = Some (TypeError "Cannot read properties of null (reading 'length')") /\
  requestsOf (deleteOf form env self) w = [].
Proof.
  intros E Hw Hh Hnull. destruct w as [h tr]. cbn [heap] in E.
  set (t1 := map_dml (set_type delete_) t).
  assert (Hh1 : (0 < hooks t1 Delete)%nat) by exact Hh.
  unfold throws, requestsOf. destruct form; cbn [deleteOf].
  - unfold InPlace.delete.
    rewrite (bind_deref_at _ t) by assumption.
    rewrite (match_nonempty _ _ _ Hw).
    rewrite (bind_modify_at _ _ t) by assumption. fold t1.
    assert (E1 : <[self := t1]> h !! self = Some t1) by (eapply lookup_written, E).
    rewrite (bind_deref_at _ t1) by exact E1.
    erewrite bind_at by (apply (getResponse_dispatch env self (FreshDml _)
                                  (Some Delete) t1), E1).
    rewrite (hooks_dispatch env t1 _ Delete Hh1).
    cbn [trace world_of]. rewrite drop_all. now split.
  - unfold CloneOnWrite.delete.
    rewrite (bind_clone_at _ t) by assumption.
    rewrite (bind_deref_at _ t) by apply lookup_fresh.
    rewrite (match_nonempty _ _ _ Hw).
    rewrite (bind_modify_at _ _ t) by apply lookup_fresh. fold t1.
    rewrite write_fresh.
    rewrite (getResponse_dispatch env (length h) ThisDml (Some Delete) t1)
      by apply lookup_fresh.
    rewrite (hooks_dispatch env t1 _ Delete Hh1).
    change (data (rewritten env t1 (dml t1))) with (data (dml t)).
    rewrite (Hnull eq_refl).
    cbn [trace world_of]. rewrite drop_all. now split.
Qed.

(** X17.  [update] and [delete] on a builder without a WHERE node are
    refused, in either form of the builder: the call rejects with the
    message of its guard, no request reaches the engine, and every builder
    of the store keeps its fields. *)
Theorem writes_without_where_are_refused
    (form : Form) (env : Collaborators) (self : loc) (t : Table) (w : World)
    (data : value) :
  heap w !! self = Some t ->
  dml_where (dml t) = [] ->
  negb (typeofObject data) || isArray data = false ->
  (throws (updateOf form env self data) w = Some (Error updateNeedsWhere) /\
   requestsOf (updateOf form env self data) w = [] /\
   forall l x, heap w !! l = Some x ->
               heap (world_of (updateOf form env self data w)) !! l = Some x) /\
  (throws (deleteOf form env self) w = Some (Error deleteNeedsWhere) /\
   requestsOf (deleteOf form env self) w = [] /\
   forall l x, heap w !! l = Some x ->
               heap (world_of (deleteOf form env self w)) !! l = Some x).
Proof.
  intros E Hw Hv. destruct w as [h tr]. cbn [heap] in E.
  unfold throws, requestsOf.
  destruct form; cbn [updateOf deleteOf];
    unfold InPlace.update, InPlace.delete, CloneOnWrite.update, CloneOnWrite.delete.
  - rewrite Hv. rewrite !(bind_deref_at _ t) by assumption. rewrite Hw.
    cbn [throw world_of trace heap]. rewrite drop_all. now repeat split.
  - rewrite !(bind_clone_at _ t) by assumption. rewrite Hv.
    rewrite !(bind_deref_at _ t) by apply lookup_fresh. rewrite Hw.
    cbn [throw world_of trace heap]. rewrite drop_all.
    repeat split; intros l x Hl; now apply lookup_kept.
Qed.

(** X18.  [insert] checks its payload before anything else, in either form
    of the builder: a payload that is not an array, or an array with an
    element that is not an object, makes the call reject with the message of
    the failed check; no request reaches the engine and every builder keeps
    its fields. *)
Theorem insert_rejects_invalid_payload
    (form : Form) (env : Collaborators) (self : loc) (t : Table) (w : World)
    (data : value) :
  heap w !! self = Some t ->
  (forall items, data = VArr items -> forallb validObject items = false) ->
  throws (insertOf form env self data) w
  = Some (Error (if isArray data then insertNeedsObjects else insertNeedsArray)) /\
  requestsOf (insertOf form env self data) w = [] /\
  forall l x, heap w !! l = Some x ->
              heap (world_of (insertOf form env self data w)) !! l = Some x.
Proof.
  intros E Hbad. destruct w as [h tr]. cbn [heap] in E.
  unfold throws, requestsOf.
  destruct form; cbn [insertOf]; unfold InPlace.insert, CloneOnWrite.insert.
  - destruct data as [| | | | |items|]; try rewrite (Hbad items eq_refl);
      cbn [throw world_of trace heap isArray]; rewrite drop_all; now repeat split.
  - rewrite (bind_clone_at _ t) by assumption.
    destruct data as [| | | | |items|]; try rewrite (Hbad items eq_refl);
      cbn [throw world_of trace heap isArray]; rewrite drop_all;
      repeat split; intros l x Hl; now apply lookup_kept.
Qed.

(** ** [find], [first] and the aggregates *)

(** X19.  [find(value, column)] of [src/lib/Database.ts] sends one select
    request with limit 1 whose WHERE sequence is the builder's followed by
    the leaf [column = value], connected by the pending connective; and the
    builder keeps what was sent as its descriptor, so the condition and the
    limit stay in it for the calls that follow. *)
Theorem inplace_find_keeps_its_condition
    (env : Collaborators) (self : loc) (t : Table) (w : World)
    (val : value) (column : string) :
  heap w !! self = Some t ->
  engine t = true ->
  exists request,
    requestsOf (InPlace.find_ env self val column) w = [request] /\
    dml_where request = dml_where (dml t) ++ [Leaf column "=" val (nextType t)] /\
    limit request = Some 1 /\
    type request = select_ /\
    descriptorAt self (world_of (InPlace.find_ env self val column w)) = Some request.
Proof.
  intros E He. destruct w as [h tr]. cbn [heap] in E.
  set (t1 := map_dml asSelect t).
  set (t2 := set_nextType AND (pushWhere (Leaf column "=" val (nextType t1)) t1)).
  set (t3 := map_dml (set_limit (Some 1)) t2).
  set (h3 := <[self := t3]> (<[self := t2]> (<[self := t1]> h))).
  assert (E3 : h3 !! self = Some t3)
    by (eapply lookup_written, lookup_written, lookup_written, E).
  assert (Hrun : InPlace.find_ env self val column (mkWorld h tr)
                 = bind (getResponse env self ThisDml None)
                        (fun result =>
                           ret (match result with
                                | Some rows => head rows
                                | None => None
                                end))
                        (mkWorld h3 tr)).
  { unfold InPlace.find_, InPlace.where_.
    rewrite (bind_modify_at _ _ t) by assumption.
    unfold bind at 1. unfold bind at 1.
    erewrite modify_at by (cbn [heap]; eapply lookup_written, E).
    cbn [ret heap trace].
    erewrite bind_modify_at by (eapply lookup_written, lookup_written, E).
    reflexivity. }
  exists (rewritten env t3 (dml t3)). split; [|repeat split].
  - apply (requestsOf_via env _ self ThisDml None t3 h3);
      [|exact E3|exact He|exact I].
    rewrite Hrun. now apply world_bind_quiet.
  - unfold descriptorAt. rewrite Hrun.
    rewrite world_bind_quiet by reflexivity.
    rewrite (getResponse_store env self ThisDml None t3 h3 tr E3).
    now rewrite (lookup_written _ _ _ _ E3).
Qed.

(** X20.  [find(value, column)] of the second copy sends the same request
    whatever the value and the column: [clone.where(column, '=', value)]
    returns a further clone, which is dropped, so the request carries the
    builder's WHERE sequence as it was, with limit 1. *)
Theorem cloning_find_drops_its_condition
    (env : Collaborators) (self : loc) (t : Table) (w : World) :
  heap w !! self = Some t ->
  engine t = true ->
  exists request,
    (forall val column,
       requestsOf (CloneOnWrite.find_ env self val column) w = [request]) /\
    dml_where request = dml_where (dml t) /\
    limit request = Some 1 /\
    type request = select_.
Proof.
  intros E He. destruct w as [h tr]. cbn [heap] in E.
  set (t1 := map_dml asSelect t).
  set (t3 := map_dml (set_limit (Some 1)) t1).
  exists (rewritten env t3 (dml t3)). split; [|now repeat split].
  intros val column.
  eapply (requestsOf_via env _ (length h) ThisDml None t3 _ (mkWorld h tr));
    [|apply lookup_second|exact He|exact I].
  unfold CloneOnWrite.find_.
  rewrite (bind_clone_modify_at _ _ t) by assumption.
  unfold CloneOnWrite.where_.
  unfold bind at 1.
  erewrite bind_clone_modify_at by apply lookup_fresh.
  cbn [ret].
  erewrite bind_modify_at by apply lookup_second.
  rewrite write_second.
  apply world_bind_quiet, firstOrNull_quiet.
Qed.

(** X21.  The terminal aggregates of the second copy return the property of
    the first row that is named by the function: [count] the property
    [count], [sum] the property [sum], and so on, and [undefined] when the
    row has no such property.  The aggregate expression is assumed not to be
    the name of a computed field. *)
Theorem cloning_aggregate_returns_the_alias_property
    (env : Collaborators) (a : AggType) (self : loc) (t : Table) (w : World)
    (column : string) (row : DatabaseRecord) (rows : list DatabaseRecord) :
  heap w !! self = Some t ->
  engine t = true ->
  isComputed (computedFields t) (aggExpr a column) = false ->
  let request := set_limit (Some 1) (set_data VNull (setAggregate a column (dml t))) in
  status (run env (trace w) request) = 200 ->
  resp_data (run env (trace w) request) = Some (row :: rows) ->
  requestsOf (CloneOnWrite.aggregate env a self column) w = [request] /\
  returns (CloneOnWrite.aggregate env a self column) w
  = Some (getProp (aggAlias a) row).
Proof.
  intros E He Hc request Hs Hd. destruct w as [h tr]. cbn [heap trace] in *.
  set (t' := set_dml request t).
  assert (Hplain : rewriteColumns env (computedFields t) [aggExpr a column]
                   = ([aggExpr a column], [], []))
    by (apply rewriteColumns_plain; now constructor).
  assert (Hreq : rewritten env t' (dml t') = request)
    by (unfold rewritten; cbn [computedFields t' set_dml dml columns request
                                 set_limit set_data setAggregate set_columns];
        now rewrite Hplain).
  assert (Hneeded : neededFor env t' (dml t') = [])
    by (unfold neededFor; cbn [computedFields t' set_dml dml columns request
                                 set_limit set_data setAggregate set_columns];
        now rewrite Hplain).
  split.
  - rewrite (cloning_aggregate_requests env self t (mkWorld h tr) E He a column).
    exact (f_equal (fun x => [x]) Hreq).
  - unfold returns, CloneOnWrite.aggregate.
    rewrite (bind_clone_modify_at _ _ t) by assumption.
    change (map_dml _ t) with t'.
    assert (Hs' : status (run env tr (rewritten env t' (dml t'))) = 200)
      by (now rewrite Hreq).
    rewrite (bind_Return _ _ _ _ _
               (getResponse_success env (length h) ThisDml None t' (h ++ [t']) tr
                  (lookup_fresh _ _) He I Hs' Hneeded)).
    rewrite Hreq, Hd. reflexivity.
Qed.

(** X22.  [first()] of [src/lib/Database.ts] leaves its limit in the
    builder: whatever limit the builder had, a [get()] on the same builder
    after a [first()] sends a request with limit 1. *)
Theorem inplace_first_leaves_limit_one
    (env : Collaborators) (self : loc) (t : Table) (w : World) :
  heap w !! self = Some t ->
  engine t = true ->
  exists request,
    requestsOf (InPlace.get env self) (world_of (InPlace.first env self w))
    = [request] /\
    limit request = Some 1 /\
    dml_where request = dml_where (dml t).
Proof.
  intros E He. set (w1 := world_of (InPlace.first env self w)).
  set (t' := map_dml asFirst t).
  set (t1 := set_dml (rewritten env t' (dml t')) t').
  assert (E1 : heap w1 !! self = Some t1).
  { unfold w1. destruct w as [h tr]. cbn [heap] in E. unfold InPlace.first.
    rewrite (bind_modify_at _ _ t) by assumption.
    rewrite world_bind_quiet by apply firstOrNull_quiet.
    erewrite getResponse_store by (eapply lookup_written, E).
    eapply lookup_written, lookup_written, E. }
  exists (rewritten env (map_dml asSelect t1) (asSelect (dml t1))).
  split; [|now split].
  now apply inplace_get_requests.
Qed.

(** ** Database handles *)

Lemma inplace_setup_name reg calls db :
  db_name (DatabaseInPlace.setup reg calls db) = db_name db.
Proof.
  revert db. induction calls as [|c calls IH]; intros db; [reflexivity|].
  cbn [DatabaseInPlace.setup fold_left].
  change (fold_left (DatabaseInPlace.call reg) calls ?d)
    with (DatabaseInPlace.setup reg calls d).
  rewrite IH. now destruct c.
Qed.

Lemma inplace_call_name reg db c :
  db_name (DatabaseInPlace.call reg db c) = db_name db.
Proof. now destruct c. Qed.

(** What has been loaded stays loaded. *)
Lemma inplace_setup_keeps_computes reg calls db :
  db_computedFields db = getComputedFields reg (db_name db) ->
  db_computedFields (DatabaseInPlace.setup reg calls db)
  = getComputedFields reg (db_name db).
Proof.
  revert db. induction calls as [|c calls IH]; intros db Hdb; [exact Hdb|].
  cbn [DatabaseInPlace.setup fold_left].
  change (fold_left (DatabaseInPlace.call reg) calls ?d)
    with (DatabaseInPlace.setup reg calls d).
  rewrite IH; rewrite inplace_call_name; [reflexivity|].
  destruct c; [reflexivity|exact Hdb].
Qed.

Lemma inplace_setup_keeps_triggers reg calls db :
  db_triggers db = getTriggers reg (db_name db) ->
  db_triggers (DatabaseInPlace.setup reg calls db) = getTriggers reg (db_name db).
Proof.
  revert db. induction calls as [|c calls IH]; intros db Hdb; [exact Hdb|].
  cbn [DatabaseInPlace.setup fold_left].
  change (fold_left (DatabaseInPlace.call reg) calls ?d)
    with (DatabaseInPlace.setup reg calls d).
  rewrite IH; rewrite inplace_call_name; [reflexivity|].
  destruct c; [exact Hdb|reflexivity].
Qed.

Lemma inplace_setup_computes reg calls db :
  UseComputes ∈ calls ->
  db_computedFields (DatabaseInPlace.setup reg calls db)
  = getComputedFields reg (db_name db).
Proof.
  revert db. induction calls as [|c calls IH]; intros db Hin.
  - now apply elem_of_nil in Hin.
  - cbn [DatabaseInPlace.setup fold_left].
    change (fold_left (DatabaseInPlace.call reg) calls ?d)
      with (DatabaseInPlace.setup reg calls d).
    apply elem_of_cons in Hin as [<-|Hin].
    + now rewrite inplace_setup_keeps_computes.
    + rewrite IH by exact Hin. now rewrite inplace_call_name.
Qed.

Lemma inplace_setup_triggers reg calls db :
  UseTriggers ∈ calls ->
  db_triggers (DatabaseInPlace.setup reg calls db) = getTriggers reg (db_name db).
Proof.
  revert db. induction calls as [|c calls IH]; intros db Hin.
  - now apply elem_of_nil in Hin.
  - cbn [DatabaseInPlace.setup fold_left].
    change (fold_left (DatabaseInPlace.call reg) calls ?d)
      with (DatabaseInPlace.setup reg calls d).
    apply elem_of_cons in Hin as [<-|Hin].
    + now rewrite inplace_setup_keeps_triggers.
    + rewrite IH by exact Hin. now rewrite inplace_call_name.
Qed.

(** X23.  The handle of [src/lib/Database.ts] accumulates: after any
    sequence of loading calls in which [useComputes] and [useTriggers] both
    occur, in whatever order and however often, every builder made by
    [table] carries the computed fields and the triggers of the registry
    (which is taken to answer the same for one name throughout), and starts
    as a select of all columns with no condition. *)
Theorem inplace_database_accumulates
    (reg : Registry) (calls : list Setup) (db : Database) (tableName : string)
    (w : World) :
  UseComputes ∈ calls ->
  UseTriggers ∈ calls ->
  exists t,
    tableAfter (table_ (DatabaseInPlace.setup reg calls db) tableName) w = Some t /\
    computedFields t = getComputedFields reg (db_name db) /\
    triggers t = getTriggers reg (db_name db) /\
    database (dml t) = Name (db_name db) /\
    table (dml t) = Name tableName /\
    columns (dml t) = ["*"] /\
    dml_where (dml t) = [].
Proof.
  intros Hc Ht. eexists. split.
  - unfold tableAfter, table_, newTable, alloc. cbn [heap]. apply lookup_fresh.
  - cbn [computedFields triggers dml database table columns dml_where].
    rewrite inplace_setup_computes, inplace_setup_triggers, inplace_setup_name
      by assumption.
    now repeat split.
Qed.

Lemma cloning_setup_name reg calls db :
  db_name (DatabaseCloning.setup reg calls db) = db_name db.
Proof.
  revert db. induction calls as [|c calls IH]; intros db; [reflexivity|].
  cbn [DatabaseCloning.setup fold_left].
  change (fold_left (DatabaseCloning.call reg) calls ?d)
    with (DatabaseCloning.setup reg calls d).
  rewrite IH. now destruct c.
Qed.

(** X24.  In the second copy a handle never holds both: whatever sequence
    of [useComputes] and [useTriggers] calls leads from [new Database(name)]
    to a handle, each on the handle the one before returned, the handle has
    no computed field or no trigger, and so has every builder [table] makes
    from it.  After at least one call the handle holds what the last call
    loaded and nothing else. *)
Theorem cloning_database_keeps_the_last_only
    (reg : Registry) (calls : list Setup) (name tableName : string) (w : World) :
  let db := DatabaseCloning.setup reg calls (newDatabase name) in
  db = match last calls with
       | None => newDatabase name
       | Some UseComputes => mkDatabase name (getComputedFields reg name) []
       | Some UseTriggers => mkDatabase name [] (getTriggers reg name)
       end /\
  exists t,
    tableAfter (table_ db tableName) w = Some t /\
    (computedFields t = [] \/ triggers t = []).
Proof.
  intros db.
  assert (Hdb : db = match last calls with
                     | None => newDatabase name
                     | Some UseComputes => mkDatabase name (getComputedFields reg name) []
                     | Some UseTriggers => mkDatabase name [] (getTriggers reg name)
                     end).
  { unfold db. destruct calls as [|c calls _] using rev_ind; [reflexivity|].
    rewrite last_snoc. unfold DatabaseCloning.setup. rewrite fold_left_app.
    cbn [fold_left].
    change (fold_left (DatabaseCloning.call reg) calls (newDatabase name))
      with (DatabaseCloning.setup reg calls (newDatabase name)).
    destruct c; cbn [DatabaseCloning.call];
      unfold DatabaseCloning.useComputes, DatabaseCloning.useTriggers;
      now rewrite cloning_setup_name. }
  split; [exact Hdb|].
  eexists. split.
  - unfold tableAfter, table_, newTable, alloc. cbn [heap]. apply lookup_fresh.
  - cbn [computedFields triggers]. rewrite Hdb.
    destruct (last calls) as [[|]|]; cbn; auto.
Qed.

(** ** [whereGroup] with a callback that runs a chain *)

(** X25.  [whereGroup] with a callback that chains steps on the sub-builder
    it is given.  In [src/lib/Database.ts] the group appended to the WHERE
    sequence holds the nodes the chain appended, as many as the chain has
    steps that append one.  In the second copy the group is empty whatever
    the chain, since every step of the callback works on a clone of the
    sub-builder.  In both the group takes the pending connective. *)
Theorem whereGroup_runs_a_chain_callback
    (toUpperCase : string -> string) (steps : list Step)
    (self : loc) (t : Table) (w : World) :
  heap w !! self = Some t ->
  wellDirected toUpperCase steps ->
  let nodes := dml_where (dml (fst (chainTable toUpperCase steps (groupQueryOf t)))) in
  length nodes = countNodes steps /\
  whereAfter (InPlace.whereGroup self (chainCallback (step_inPlace toUpperCase) steps)) w
  = Some (dml_where (dml t) ++ [Group (nextType t) nodes]) /\
  whereAfter (CloneOnWrite.whereGroup self
                (chainCallback (step_cloning toUpperCase) steps)) w
  = Some (dml_where (dml t) ++ [Group (nextType t) []]).
Proof.
  intros E Hd nodes. destruct w as [h tr]. cbn [heap] in E.
  split; [|split].
  - destruct (chainTable_where toUpperCase steps (groupQueryOf t)
                (chainTable_returns toUpperCase steps _ Hd)) as (added & Ha & Hl).
    unfold nodes. now rewrite Ha.
  - apply (inplace_whereGroup_captures self _ t t
             (fst (chainTable toUpperCase steps (groupQueryOf t)))
             h (h ++ [fst (chainTable toUpperCase steps (groupQueryOf t))]) tr tr E).
    + unfold chainCallback.
      change (mkTable false AND _ [] []) with (groupQueryOf t).
      unfold bind.
      rewrite (chain_inPlace_at toUpperCase steps (length h) (groupQueryOf t)
                 (h ++ [groupQueryOf t]) tr (lookup_fresh _ _)).
      rewrite (chainTable_returns toUpperCase steps _ Hd). cbn zeta.
      now rewrite write_fresh.
    + now apply lookup_kept.
    + apply lookup_fresh.
  - set (sub := mkTable (engine t) AND
                  (mkDML select_ (database (dml t)) (table (dml t)) ["*"] false
                         [] [] [] [] None None VNull None) [] []).
    destruct (chain_cloning_at toUpperCase steps (length (h ++ [t])) sub
                ((h ++ [t]) ++ [sub]) tr (lookup_fresh _ _)) as [ext Hext].
    rewrite (chainTable_returns toUpperCase steps _ Hd) in Hext.
    destruct Hext as (l & Hrun & _).
    unfold whereAfter.
    rewrite (cloning_whereGroup_at self _ t t sub h (((h ++ [t]) ++ [sub]) ++ ext)
               tr tr E).
    + cbn [heap]. erewrite lookup_written; [reflexivity|].
      apply lookup_app_l_Some, lookup_kept, lookup_fresh.
    + unfold chainCallback. fold sub. unfold bind. now rewrite Hrun.
    + apply lookup_app_l_Some, lookup_fresh.
    + apply lookup_app_l_Some, lookup_kept, lookup_fresh.
Qed.

(** ** The properties on concrete builders *)

Lemma exampleChain_wellDirected : wellDirected upperAscii exampleChain.
Proof.
  repeat (apply Forall_cons; split; [first [exact I | now eexists]|]).
  apply Forall_nil_2.
Qed.

Lemma olderOrJane_wellDirected : wellDirected upperAscii olderOrJane.
Proof.
  repeat (apply Forall_cons; split; [exact I|]). apply Forall_nil_2.
Qed.

Lemma chain_forms_agree_witness :
  match chain (step_inPlace upperAscii) exampleChain 0%nat oneWhereWorld,
        chain (step_cloning upperAscii) exampleChain 0%nat oneWhereWorld with
  | Return l1 w1, Return l2 w2 =>
      l1 = 0%nat /\ is_Some (heap w1 !! 0%nat) /\ heap w1 !! 0%nat = heap w2 !! l2
  | Throw e1 _, Throw e2 _ => e1 = e2
  | _, _ => False
  end.
Proof.
  exact (chain_forms_agree upperAscii exampleChain 0%nat oneWhere oneWhereWorld
           eq_refl).
Defined.

Lemma cloning_chain_leaves_builders_witness :
  (forall l x,
     heap oneWhereWorld !! l = Some x ->
     heap (world_of (chain (step_cloning upperAscii) exampleChain 0%nat oneWhereWorld))
     !! l = Some x) /\
  trace (world_of (chain (step_cloning upperAscii) exampleChain 0%nat oneWhereWorld))
  = trace oneWhereWorld.
Proof.
  exact (cloning_chain_leaves_builders upperAscii exampleChain 0%nat oneWhere
           oneWhereWorld eq_refl).
Defined.

Lemma inplace_chain_works_on_this_witness :
  length (heap (world_of (chain (step_inPlace upperAscii) exampleChain 0%nat
                            oneWhereWorld)))
  = 1%nat /\
  returns (chain (step_inPlace upperAscii) exampleChain 0%nat) oneWhereWorld
  = Some 0%nat.
Proof.
  destruct (inplace_chain_works_on_this upperAscii exampleChain 0%nat oneWhere
              oneWhereWorld eq_refl) as (Hlen & _ & _).
  split; [exact Hlen|reflexivity].
Defined.

Lemma chain_where_grows_by_its_nodes_witness :
  exists t' added,
    tableAfter (chain (step_inPlace upperAscii) exampleChain 0%nat) oneWhereWorld
    = Some t' /\
    tableAfter (chain (step_cloning upperAscii) exampleChain 0%nat) oneWhereWorld
    = Some t' /\
    dml_where (dml t') = [Leaf "id" "=" (VNum 1) AND] ++ added /\
    length added = 2%nat.
Proof.
  exact (chain_where_grows_by_its_nodes upperAscii exampleChain 0%nat oneWhere
           oneWhereWorld eq_refl exampleChain_wellDirected).
Defined.

Lemma chain_lists_keep_call_order_witness :
  exists t',
    tableAfter (chain (step_inPlace upperAscii) exampleChain 0%nat) oneWhereWorld
    = Some t' /\
    tableAfter (chain (step_cloning upperAscii) exampleChain 0%nat) oneWhereWorld
    = Some t' /\
    joins (dml t') = [mkJoin INNER "orders" "users.id" "=" "orders.user_id"] /\
    groupBy (dml t') = ["city"] /\
    orderBy (dml t') = [("name", DESC)].
Proof.
  exact (chain_lists_keep_call_order upperAscii exampleChain 0%nat oneWhere
           oneWhereWorld eq_refl exampleChain_wellDirected).
Defined.

Lemma pending_connective_waits_witness :
  whereAfter (chain (step_inPlace upperAscii)
                [SOr; SOrWhere "a" "=" (VNum 1); SWhere "b" "=" (VNum 2);
                 SWhere "c" "=" (VNum 3)] 0%nat) oneWhereWorld
  = Some [Leaf "id" "=" (VNum 1) AND; Leaf "a" "=" (VNum 1) OR;
          Leaf "b" "=" (VNum 2) OR; Leaf "c" "=" (VNum 3) AND] /\
  whereAfter (chain (step_cloning upperAscii)
                [SOr; SWhereBetween "z" VUndefined (VNum 9); SWhere "b" "=" (VNum 2)]
                0%nat) oneWhereWorld
  = Some [Leaf "id" "=" (VNum 1) AND; Leaf "b" "=" (VNum 2) OR].
Proof.
  destruct (pending_connective_waits upperAscii 0%nat oneWhere oneWhereWorld
              "a" "=" "b" "=" "c" "=" "z" (VNum 1) (VNum 2) (VNum 3) (VNum 9)
              eq_refl) as (H1 & _ & _ & H4).
  split; [exact H1|exact H4].
Defined.

Lemma page_follows_the_limit_witness :
  exists t1,
    tableAfter (chain (step_inPlace upperAscii) [SLimit 10; SPage 3] 0%nat)
               oneWhereWorld = Some t1 /\
    tableAfter (chain (step_cloning upperAscii) [SLimit 10; SPage 3] 0%nat)
               oneWhereWorld = Some t1 /\
    limit (dml t1) = Some 10 /\
    offset (dml t1) = Some 20.
Proof.
  exact (proj1 (page_follows_the_limit upperAscii 0%nat oneWhere oneWhereWorld 10 3
                  eq_refl eq_refl eq_refl)).
Defined.

Lemma inplace_aggregate_and_select_overwrite_witness :
  (exists t1,
     tableAfter (selectThenAggregate COUNT 0%nat ["id"; "name"] "*") oneWhereWorld
     = Some t1 /\
     columns (dml t1) = ["COUNT(*) AS count"] /\
     aggregation (dml t1) = Some (mkAggregation COUNT "*" "count")) /\
  (exists t2,
     tableAfter (aggregateThenSelect COUNT 0%nat ["id"; "name"] "*") oneWhereWorld
     = Some t2 /\
     columns (dml t2) = ["id"; "name"] /\
     aggregation (dml t2) = Some (mkAggregation COUNT "*" "count")).
Proof.
  exact (inplace_aggregate_and_select_overwrite COUNT 0%nat oneWhere oneWhereWorld
           ["id"; "name"] "*" eq_refl).
Defined.

Lemma orderBy_rejects_other_directions_witness :
  InPlace.orderBy_ upperAscii 0%nat "name" "up" oneWhereWorld
  = Throw (Error "Invalid direction: up. Use 'ASC' or 'DESC'.") oneWhereWorld /\
  throws (CloneOnWrite.orderBy_ upperAscii 0%nat "name" "up") oneWhereWorld
  = Some (Error "Invalid direction: up. Use 'ASC' or 'DESC'.") /\
  heap (world_of (CloneOnWrite.orderBy_ upperAscii 0%nat "name" "up" oneWhereWorld))
  !! 0%nat = Some oneWhere.
Proof.
  exact (orderBy_rejects_other_directions upperAscii 0%nat oneWhere oneWhereWorld
           "name" "up" eq_refl eq_refl).
Defined.

Lemma cloning_terminal_calls_leave_builders_witness :
  heap (world_of (CloneOnWrite.get failingEnv 0%nat oneWhereWorld)) !! 0%nat
  = Some oneWhere /\
  heap (world_of (CloneOnWrite.insert failingEnv 0%nat (VArr [alice]) oneWhereWorld))
  !! 0%nat = Some oneWhere /\
  heap (world_of (CloneOnWrite.delete failingEnv 0%nat oneWhereWorld)) !! 0%nat
  = Some oneWhere.
Proof.
  destruct (cloning_terminal_calls_leave_builders failingEnv 0%nat oneWhere
              oneWhereWorld 0%nat oneWhere eq_refl eq_refl)
    as (Hget & _ & _ & _ & Hins & _ & Hdel).
  split; [exact Hget|]. split; [apply Hins|exact Hdel].
Defined.

Lemma inplace_second_get_skips_computed_fields_witness :
  exists request,
    requestsOf (InPlace.get shopEnv 0%nat) totalsWorld = [request] /\
    columns request = ["name"; "price"; "qty"] /\
    requestsOf (InPlace.get shopEnv 0%nat)
               (world_of (InPlace.get shopEnv 0%nat totalsWorld)) = [request] /\
    returns (InPlace.get shopEnv 0%nat) totalsWorld
    = Some (Some [[("total", VNum 6)]]) /\
    returns (InPlace.get shopEnv 0%nat)
            (world_of (InPlace.get shopEnv 0%nat totalsWorld))
    = Some (Some [[("price", VNum 2); ("qty", VNum 3)]]).
Proof.
  destruct (inplace_second_get_skips_computed_fields shopEnv 0%nat totalsTable
              totalsWorld eq_refl eq_refl shop_dependencies_real)
    as (request & H1 & _ & H2 & H3).
  exists request. split; [exact H1|].
  split; [now injection H1 as <-|].
  split; [exact H2|]. split; [reflexivity|]. now apply H3.
Defined.

Lemma insert_sends_each_row_once_per_hook_witness :
  map data (requestsOf (insertOf Mutating failingEnv 0%nat (VArr [alice; bob]))
              hookedBothWorld)
  = [VArr [alice]; VArr [alice]; VArr [bob]; VArr [bob]] /\
  returns (insertOf Mutating failingEnv 0%nat (VArr [alice; bob])) hookedBothWorld
  = Some (VArr [alice; bob]).
Proof.
  destruct (insert_sends_each_row_once_per_hook Mutating failingEnv 0%nat
              (withTriggers [beforeAdd; afterAdd] usersTable) hookedBothWorld
              [alice; bob] eq_refl eq_refl eq_refl) as [Hreq Hret].
  - vm_compute. lia.
  - intros tr d. right. now eexists.
  - reflexivity.
  - split; [now rewrite Hreq|now apply Hret].
Defined.

Lemma insert_hooks_run_around_the_request_witness :
  kindsOf (insertOf Cloning quietEnv 0%nat (VArr [alice; bob])) hookedBothWorld
  = [Hook; Sent; Committed; Sent; Hook; Committed;
     Hook; Sent; Committed; Sent; Hook; Committed].
Proof.
  unfold kindsOf.
  change (drop (length (trace hookedBothWorld))
            (trace (world_of (insertOf Cloning quietEnv 0%nat (VArr [alice; bob])
                                hookedBothWorld))))
    with (eventsOf (insertOf Cloning quietEnv 0%nat (VArr [alice; bob]))
            hookedBothWorld).
  rewrite (insert_hooks_run_around_the_request Cloning quietEnv 0%nat
             (withTriggers [beforeAdd; afterAdd] usersTable) hookedBothWorld
             [alice; bob] eq_refl eq_refl eq_refl).
  - reflexivity.
  - vm_compute. lia.
  - reflexivity.
  - reflexivity.
Defined.

Lemma failing_before_handler_stops_insert_witness :
  throws (insertOf Mutating pickyEnv 0%nat (VArr [alice; bob; alice]))
         hookedInsertWorld
  = Some (HandlerError "beforeAdd") /\
  map data (requestsOf (insertOf Mutating pickyEnv 0%nat (VArr [alice; bob; alice]))
              hookedInsertWorld)
  = [VArr [alice]].
Proof.
  destruct (failing_before_handler_stops_insert Mutating pickyEnv 0%nat
              (withTriggers [beforeAdd] usersTable) hookedInsertWorld
              [alice] bob [alice] beforeAdd eq_refl eq_refl eq_refl)
    as [Hthrow Hreq].
  - intros tr d. now left.
  - intros tm r Hr. apply list_elem_of_singleton in Hr. now subst r.
  - reflexivity.
  - reflexivity.
  - split; [exact Hthrow|exact (f_equal (map data) Hreq)].
Defined.

Lemma failing_after_handler_stops_insert_witness :
  throws (insertOf Cloning pickyEnv 0%nat (VArr [alice; bob; alice]))
         hookedAfterWorld
  = Some (HandlerError "afterAdd") /\
  map data (requestsOf (insertOf Cloning pickyEnv 0%nat (VArr [alice; bob; alice]))
              hookedAfterWorld)
  = [VArr [alice]; VArr [bob]].
Proof.
  destruct (failing_after_handler_stops_insert Cloning pickyEnv 0%nat
              (withTriggers [afterAdd] usersTable) hookedAfterWorld
              [alice] bob [alice] afterAdd eq_refl eq_refl eq_refl)
    as [Hthrow Hreq].
  - intros tr d. now left.
  - intros tm r Hr. apply list_elem_of_singleton in Hr. now subst r.
  - reflexivity.
  - reflexivity.
  - reflexivity.
  - split; [exact Hthrow|exact (f_equal (map data) Hreq)].
Defined.

Lemma hooked_delete_sends_nothing_witness :
  throws (deleteOf Mutating quietEnv 0%nat) hookedDeleteWorld
  = Some (TypeError "Cannot read properties of null (reading 'length')") /\
  requestsOf (deleteOf Mutating quietEnv 0%nat) hookedDeleteWorld = [].
Proof.
  apply (hooked_delete_sends_nothing Mutating quietEnv 0%nat
           (withTriggers [beforeDelete] oneWhere) hookedDeleteWorld eq_refl).
  - discriminate.
  - vm_compute. lia.
  - discriminate.
Defined.

Lemma writes_without_where_are_refused_witness :
  throws (updateOf Mutating quietEnv 0%nat alice) usersWorld
  = Some (Error updateNeedsWhere) /\
  throws (deleteOf Mutating quietEnv 0%nat) usersWorld
  = Some (Error deleteNeedsWhere) /\
  requestsOf (deleteOf Mutating quietEnv 0%nat) usersWorld = [].
Proof.
  destruct (writes_without_where_are_refused Mutating quietEnv 0%nat usersTable
              usersWorld alice eq_refl eq_refl eq_refl)
    as ((Hu & _ & _) & (Hd & Hr & _)).
  split; [exact Hu|]. split; [exact Hd|exact Hr].
Defined.

Lemma insert_rejects_invalid_payload_witness :
  throws (insertOf Cloning quietEnv 0%nat (VArr [alice; VNum 3])) usersWorld
  = Some (Error insertNeedsObjects) /\
  requestsOf (insertOf Cloning quietEnv 0%nat (VArr [alice; VNum 3])) usersWorld = [].
Proof.
  destruct (insert_rejects_invalid_payload Cloning quietEnv 0%nat usersTable
              usersWorld (VArr [alice; VNum 3]) eq_refl) as (Ht & Hr & _).
  - intros items Hitems. injection Hitems as <-. reflexivity.
  - split; [exact Ht|exact Hr].
Defined.

Lemma inplace_find_keeps_its_condition_witness :
  exists request,
    requestsOf (InPlace.find_ quietEnv 0%nat (VNum 7) "id") oneWhereWorld = [request] /\
    dml_where request = [Leaf "id" "=" (VNum 1) AND; Leaf "id" "=" (VNum 7) AND] /\
    limit request = Some 1 /\
    type request = select_ /\
    descriptorAt 0%nat (world_of (InPlace.find_ quietEnv 0%nat (VNum 7) "id"
                                    oneWhereWorld))
    = Some request.
Proof.
  exact (inplace_find_keeps_its_condition quietEnv 0%nat oneWhere oneWhereWorld
           (VNum 7) "id" eq_refl eq_refl).
Defined.

Lemma cloning_find_drops_its_condition_witness :
  exists request,
    (forall val column,
       requestsOf (CloneOnWrite.find_ quietEnv 0%nat val column) oneWhereWorld
       = [request]) /\
    dml_where request = [Leaf "id" "=" (VNum 1) AND] /\
    limit request = Some 1 /\
    type request = select_.
Proof.
  exact (cloning_find_drops_its_condition quietEnv 0%nat oneWhere oneWhereWorld
           eq_refl eq_refl).
Defined.

Lemma cloning_aggregate_returns_the_alias_property_witness :
  returns (CloneOnWrite.count countEnv 0%nat "*") oneWhereWorld = Some (VNum 3) /\
  returns (CloneOnWrite.sum countEnv 0%nat "age") oneWhereWorld = Some VUndefined.
Proof.
  split.
  - exact (proj2 (cloning_aggregate_returns_the_alias_property countEnv COUNT 0%nat
                    oneWhere oneWhereWorld "*" [("count", VNum 3)] []
                    eq_refl eq_refl eq_refl eq_refl eq_refl)).
  - exact (proj2 (cloning_aggregate_returns_the_alias_property countEnv SUM 0%nat
                    oneWhere oneWhereWorld "age" [("count", VNum 3)] []
                    eq_refl eq_refl eq_refl eq_refl eq_refl)).
Defined.

Lemma inplace_first_leaves_limit_one_witness :
  exists request,
    requestsOf (InPlace.get quietEnv 0%nat)
               (world_of (InPlace.first quietEnv 0%nat oneWhereWorld))
    = [request] /\
    limit request = Some 1 /\
    dml_where request = [Leaf "id" "=" (VNum 1) AND].
Proof.
  exact (inplace_first_leaves_limit_one quietEnv 0%nat oneWhere oneWhereWorld
           eq_refl eq_refl).
Defined.

Lemma inplace_database_accumulates_witness :
  exists t,
    tableAfter (table_ (DatabaseInPlace.setup shopRegistry
                          [UseTriggers; UseComputes; UseTriggers]
                          (newDatabase "shop")) "users") usersWorld
    = Some t /\
    computedFields t = [total] /\
    triggers t = [beforeAdd] /\
    database (dml t) = Name "shop" /\
    table (dml t) = Name "users" /\
    columns (dml t) = ["*"] /\
    dml_where (dml t) = [].
Proof.
  apply (inplace_database_accumulates shopRegistry
           [UseTriggers; UseComputes; UseTriggers] (newDatabase "shop") "users"
           usersWorld).
  - apply list_elem_of_further, list_elem_of_here.
  - apply list_elem_of_here.
Defined.

Lemma whereGroup_runs_a_chain_callback_witness :
  whereAfter (InPlace.whereGroup 0%nat (chainCallback (step_inPlace upperAscii)
                                          olderOrJane)) oneWhereWorld
  = Some [Leaf "id" "=" (VNum 1) AND;
          Group AND [Leaf "age" ">" (VNum 25) AND; Leaf "name" "=" (VStr "Jane") OR]] /\
  whereAfter (CloneOnWrite.whereGroup 0%nat (chainCallback (step_cloning upperAscii)
                                               olderOrJane)) oneWhereWorld
  = Some [Leaf "id" "=" (VNum 1) AND; Group AND []].
Proof.
  exact (proj2 (whereGroup_runs_a_chain_callback upperAscii olderOrJane 0%nat
                  oneWhere oneWhereWorld eq_refl olderOrJane_wellDirected)).
Defined.
